(** * Pattern AI engine of the KRACKEL typing game: a shallow embedding

    The engine is the JavaScript class [PatternAIEngine].  This file embeds
    its keystroke pipeline (pattern detection, spam and quality filters,
    registry maintenance, rhythm tracking, the style model, and the
    persistence boundary) and settles the properties stated about it.

    Modelling conventions.
    - A JavaScript Number that holds a score, a quality, a tempo or a ratio
      is a binary64 value: Rocq's primitive [float], whose operations are
      the IEEE 754 ones JavaScript uses (round to nearest, ties to even).
    - Time values returned by [Date.now()], keystroke timestamps and their
      differences are integral Numbers of magnitude below 2^53, on which
      binary64 addition and subtraction are exact: they are kept in [Z] and
      converted with [Z2F] where the source mixes them with fractions.
      Repetition counts and frequencies are integral as well and kept in [Z].
    - String lengths and indices are kept in [nat]; a comparison such as
      [subLen <= pattern.length / 2] is written on integers
      ([2 * subLen <= length]).
    - A string is a list of code units; code units are the 256 values of
      [ascii], read as U+0000 to U+00FF.  A key character is one of them,
      and so is its lower case.  A key whose lower case takes two code
      units (U+0130) is outside the model: with it, the joined characters
      of the history are longer than the history, and offsets into the one
      no longer index the other.
    - [Date.now()] is an effect: every call of the engine consumes one
      reading of an explicit clock.
    - Pattern objects are shared between the registry, the hierarchy and
      the style model, and they are updated in place: they live in a store
      and are named by locations.
    - [Math.random()] is an effect as well: every call consumes one choice
      of an explicit stream of choices. *)

From Stdlib Require Import ZArith List Ascii String DecimalString DecimalNat.
From Stdlib Require Import Bool Lia Permutation.
From Stdlib Require Import Floats Uint63.
Import ListNotations.

Set Warnings "-inexact-float".

(* ------------------------------------------------------------------ *)
(** * JavaScript numbers *)

Module Num.

(** An integral Number as a binary64 value (exact below 2^53). *)
Definition Z2F (z : Z) : float :=
  match z with
  | Z0 => 0%float
  | Zpos _ => PrimFloat.of_uint63 (Uint63.of_Z z)
  | Zneg p => (- PrimFloat.of_uint63 (Uint63.of_Z (Zpos p)))%float
  end.

Definition N2F (n : nat) : float := Z2F (Z.of_nat n).

(** [Math.max(x, y)]: NaN if either is NaN; +0 is larger than -0. *)
Definition Math_max (x y : float) : float :=
  if PrimFloat.is_nan x || PrimFloat.is_nan y then nan
  else if (x <? y)%float then y
  else if (y <? x)%float then x
  else match PrimFloat.classify x with NZero => y | _ => x end.

(** [Math.min(x, y)]: NaN if either is NaN; -0 is smaller than +0. *)
Definition Math_min (x y : float) : float :=
  if PrimFloat.is_nan x || PrimFloat.is_nan y then nan
  else if (x <? y)%float then x
  else if (y <? x)%float then y
  else match PrimFloat.classify x with PZero => y | _ => x end.

(** [Math.max(...values)]: the fold starts from -Infinity. *)
Definition Math_max_list (l : list float) : float :=
  fold_left Math_max l neg_infinity.

(** [x > y] on Numbers. *)
Definition gtb (x y : float) : bool := (y <? x)%float.

(** [a.reduce((x, y) => x + y, 0)]. *)
Definition sum (l : list float) : float :=
  fold_left (fun a b => (a + b)%float) l 0%float.

End Num.
Import Num.

(* ------------------------------------------------------------------ *)
(** * JavaScript strings *)

Module Str.

Definition jsstring := list ascii.

Definition lit (s : string) : jsstring := list_ascii_of_string s.

Fixpoint eqb (a b : jsstring) : bool :=
  match a, b with
  | [], [] => true
  | x :: a', y :: b' => Ascii.eqb x y && eqb a' b'
  | _, _ => false
  end.

(** [s.substring(a, b)] for [a <= b]; both ends are clamped to the
    length. *)
Definition substring (s : jsstring) (a b : nat) : jsstring :=
  firstn (b - a) (skipn a s).

(** [u.repeat(n)]. *)
Definition repeat_str (u : jsstring) (n : nat) : jsstring :=
  List.concat (repeat u n).

Definition mem (c : ascii) (s : jsstring) : bool :=
  existsb (Ascii.eqb c) s.

(** The elements of [new Set(s)], in insertion order. *)
Fixpoint distinct (s : jsstring) : jsstring :=
  match s with
  | [] => []
  | c :: s' => c :: filter (fun d => negb (Ascii.eqb c d)) (distinct s')
  end.

(** [new Set(s).size]. *)
Definition set_size (s : jsstring) : nat := List.length (distinct s).

(** Is [p] a prefix of [s]? *)
Fixpoint prefixb (p s : jsstring) : bool :=
  match p, s with
  | [], _ => true
  | x :: p', y :: s' => Ascii.eqb x y && prefixb p' s'
  | _ :: _, [] => false
  end.

(** [s.indexOf(p, from)], [None] for -1. *)
Fixpoint indexOf_aux (p s : jsstring) (pos : nat) : option nat :=
  if prefixb p s then Some pos
  else match s with
       | [] => None
       | _ :: s' => indexOf_aux p s' (S pos)
       end.

Definition indexOf (s p : jsstring) (from : nat) : option nat :=
  indexOf_aux p (skipn from s) (Nat.min from (List.length s)).

(** [s.includes(p)]. *)
Definition includes (s p : jsstring) : bool :=
  match indexOf s p 0 with Some _ => true | None => false end.

(** [c.toLowerCase()] on the code units U+0000 to U+00FF: the letters
    A-Z and the Latin-1 capitals U+00C0 to U+00DE (U+00D7, the
    multiplication sign, excepted) move up by 32. *)
Definition toLowerCase (c : ascii) : ascii :=
  let n := nat_of_ascii c in
  if ((65 <=? n) && (n <=? 90))%nat then ascii_of_nat (n + 32)
  else if ((192 <=? n) && (n <=? 222) && negb (n =? 215))%nat
       then ascii_of_nat (n + 32)
  else c.

(** A code unit that [toLowerCase] would change. *)
Definition is_upper (c : ascii) : bool := negb (Ascii.eqb (toLowerCase c) c).

(** Decimal digits of a length, as in a template literal. *)
Definition of_nat (n : nat) : jsstring :=
  lit (NilEmpty.string_of_uint (Nat.to_uint n)).

End Str.
Import Str.

(* ------------------------------------------------------------------ *)
(** * The spam and quality filters *)

(** [isSpamPattern]. *)
Definition allSameAsFirst (pattern : jsstring) : bool :=
  match pattern with
  | [] => true
  | firstChar :: _ => forallb (fun char => Ascii.eqb char firstChar) pattern
  end.

(** The values of the [charCounts] object: one count per distinct
    character. *)
Definition charCounts (pattern : jsstring) : list (ascii * nat) :=
  map (fun c => (c, List.length (filter (Ascii.eqb c) pattern)))
      (distinct pattern).

Definition maxCharFreq (pattern : jsstring) : float :=
  Math_max_list (map (fun cn => N2F (snd cn)) (charCounts pattern)).

Definition isSpamPattern (pattern : jsstring) : bool :=
  let len := List.length pattern in
  if ((2 <? len)%nat && allSameAsFirst pattern) then true
  else if ((4 <? len)%nat
           && (Nat.even len
               && Str.eqb pattern
                    (repeat_str (substring pattern 0 2) (len / 2)))
           && (set_size pattern <=? 2)%nat) then true
  else if gtb (maxCharFreq pattern / N2F len) 0.6 then true
  else false.

(** [hasMusicalCoherence]: the keyboard rows, in the order of the object's
    keys. *)
Definition keyboardRows : list (jsstring * nat) :=
  [ (lit "qwertyuiop", 0%nat); (lit "asdfghjkl", 1%nat); (lit "zxcvbnm", 2%nat) ].

Definition rowOf (char : ascii) : option nat :=
  match find (fun r => mem char (fst r)) keyboardRows with
  | Some r => Some (snd r)
  | None => None
  end.

Definition rowPositions (pattern : jsstring) : list nat :=
  flat_map (fun char => match rowOf char with Some i => [i] | None => [] end)
           pattern.

Definition hasMusicalCoherence (pattern : jsstring) : bool :=
  let uniqueRows := List.length (nodup Nat.eq_dec (rowPositions pattern)) in
  (uniqueRows <=? 2)%nat.

(** The test inside the loop of [hasExcessiveInternalRepetition]: the
    pattern is its leading [subLen] characters repeated, then a remainder. *)
Definition isUnitRepeated (pattern : jsstring) (subLen : nat) : bool :=
  let len := List.length pattern in
  let substr := substring pattern 0 subLen in
  Str.eqb pattern
    (repeat_str substr (len / subLen) ++ substring pattern 0 (len mod subLen)).

(** [hasExcessiveInternalRepetition]: the loop runs [subLen] over
    [2 .. length / 2] and returns at the first hit. *)
Definition hasExcessiveInternalRepetition (pattern : jsstring) : bool :=
  let len := List.length pattern in
  if (len <=? 4)%nat then false
  else existsb (isUnitRepeated pattern) (seq 2 (len / 2 - 1)).

(** [calculatePatternQuality], step by step. *)
Definition qualityDiversity (pattern : jsstring) : float :=
  let uniqueChars := set_size pattern in
  let diversityRatio := (N2F uniqueChars / N2F (List.length pattern))%float in
  (1.0 * (0.5 + diversityRatio))%float.

Definition qualityLength (pattern : jsstring) (quality : float) : float :=
  let len := List.length pattern in
  if ((3 <=? len) && (len <=? 8))%nat then (quality * 1.2)%float
  else if (12 <? len)%nat then (quality * 0.7)%float
  else quality.

Definition qualityCoherence (pattern : jsstring) (quality : float) : float :=
  if hasMusicalCoherence pattern then (quality * 1.3)%float else quality.

(** The running quality before the internal-repetition penalty. *)
Definition qualityBeforeRepetition (pattern : jsstring) : float :=
  qualityCoherence pattern (qualityLength pattern (qualityDiversity pattern)).

Definition qualityClamp (quality : float) : float :=
  Math_max 0.1 (Math_min 2.0 quality).

Definition calculatePatternQuality (pattern : jsstring) : float :=
  let quality := qualityBeforeRepetition pattern in
  let hasInternalRepetition := hasExcessiveInternalRepetition pattern in
  let quality := if hasInternalRepetition then (quality * 0.6)%float
                 else quality in
  qualityClamp quality.

(* ------------------------------------------------------------------ *)
(** * The interval classifier *)

Inductive NoteValue :=
| Whole | Half | Quarter | Eighth | Sixteenth | Thirtysecond | Rest.

Definition NoteValue_eqb (a b : NoteValue) : bool :=
  match a, b with
  | Whole, Whole | Half, Half | Quarter, Quarter | Eighth, Eighth
  | Sixteenth, Sixteenth | Thirtysecond, Thirtysecond | Rest, Rest => true
  | _, _ => false
  end.

Definition noteName (n : NoteValue) : string :=
  match n with
  | Whole => "whole" | Half => "half" | Quarter => "quarter"
  | Eighth => "eighth" | Sixteenth => "sixteenth"
  | Thirtysecond => "thirtysecond" | Rest => "rest"
  end.

Definition quarterNoteMs (currentTempo : float) : float :=
  ((60 / currentTempo) * 1000)%float.

(** The [ratios] object, in the order of its keys. *)
Definition ratios (quarterNoteMs intervalMs : float)
  : list (NoteValue * float) :=
  [ (Whole, intervalMs / (quarterNoteMs * 4));
    (Half, intervalMs / (quarterNoteMs * 2));
    (Quarter, intervalMs / quarterNoteMs);
    (Eighth, intervalMs / (quarterNoteMs / 2));
    (Sixteenth, intervalMs / (quarterNoteMs / 4));
    (Thirtysecond, intervalMs / (quarterNoteMs / 8)) ]%float.

(** The closest-match loop: the running pair is (closestNote,
    closestDistance). *)
Definition closestStep (acc : NoteValue * float) (nr : NoteValue * float)
  : NoteValue * float :=
  let distance := PrimFloat.abs (snd nr - 1)%float in
  if (distance <? snd acc)%float then (fst nr, distance) else acc.

Definition closestNote (quarterNoteMs intervalMs : float) : NoteValue :=
  fst (fold_left closestStep (ratios quarterNoteMs intervalMs)
         (Quarter, PrimFloat.abs (intervalMs / quarterNoteMs - 1)%float)).

(** [classifyInterval], with [this.userStyle.averageTempo] passed in. *)
Definition classifyInterval (currentTempo intervalMs : float) : NoteValue :=
  let q := quarterNoteMs currentTempo in
  let closest := closestNote q intervalMs in
  if gtb intervalMs (q * 2)%float then Rest else closest.

(* ------------------------------------------------------------------ *)
(** * Generic JavaScript containers *)

(** A [Map]: entries in insertion order, one per key. *)
Module JsMap.
Section WithKey.
Context {K V : Type} (keq : K -> K -> bool).

Fixpoint get (m : list (K * V)) (k : K) : option V :=
  match m with
  | [] => None
  | (k', v) :: m' => if keq k' k then Some v else get m' k
  end.

(** [m.set(k, v)]: an existing key keeps its position. *)
Fixpoint set (m : list (K * V)) (k : K) (v : V) : list (K * V) :=
  match m with
  | [] => [(k, v)]
  | (k', v') :: m' =>
      if keq k' k then (k', v) :: m' else (k', v') :: set m' k v
  end.
End WithKey.
End JsMap.

(** [Array.prototype.sort(cmp)]: the sort is stable; [gt a b] stands for
    [cmp(a, b) > 0].  (With a comparator that is not a consistent order,
    which here takes NaN scores, the order is implementation-defined in
    JavaScript; this is the insertion order of a stable sort.) *)
Section Sort.
Context {A : Type} (gt : A -> A -> bool).

Fixpoint sortInsert (x : A) (l : list A) : list A :=
  match l with
  | [] => [x]
  | y :: l' => if gt x y then y :: sortInsert x l' else x :: l
  end.

Definition jsSort (l : list A) : list A := fold_right sortInsert [] l.
End Sort.

(** [a.slice(-n)]: the last [n] elements. *)
Definition lastN {A} (n : nat) (l : list A) : list A :=
  skipn (List.length l - n) l.

(* ------------------------------------------------------------------ *)
(** * The data model *)

(** A keystroke record.  [char] is the lower-cased key character: one
    code unit, for a key in U+0000 to U+00FF.  [recordKeystroke] also
    stores [musicalNote] and [beatPosition]; the engine reads neither, and
    they are left out. *)
Record Keystroke := {
  char : ascii;
  timestamp : Z;
  timeSinceLastKey : Z
}.

Record RhythmInfo := {
  rhythm : list string;
  confidence : float
}.

(** A detected-pattern object. *)
Record PatternObj := {
  pattern : jsstring;
  patternLength : nat;          (* the field [length] *)
  frequency : Z;
  score : float;
  lastSeen : Z;
  rhythmInfo : option RhythmInfo;
  qualityScore : float;
  firstSeen : Z
}.

(** Pattern objects are referred to by location in the store. *)
Definition loc := nat.

Record Hier := {
  parent : loc;
  child : loc;
  nestingScore : float          (* [relationship] is always 'contains' *)
}.

Inductive Category := simple | complex | repetitive | alternating | varied.

Record Learned := {
  learned_pattern : jsstring;
  learnedAt : Z;
  strength : float;
  category : Category
}.

Record RhythmObj := {
  rhythm_pattern : list NoteValue;
  rhythm_frequency : Z;
  averageInterval : float;
  rhythm_lastSeen : Z
}.

Inductive Complexity := simpleC | mediumC | complexC.

Record UserStyle := {
  preferredPatterns : list loc;
  averageTempo : float;
  rhythmPreference : string;
  patternComplexity : Complexity;
  musicalScale : string
}.

(** The engine.  A rhythm registry key is the '-'-joined list of category
    names; the names are non-empty and free of '-', so the key is kept as
    the list of categories itself. *)
Record Engine := {
  keystrokeHistory : list Keystroke;
  store : list PatternObj;
  detectedPatterns : list (jsstring * loc);
  hierarchicalPatterns : list (jsstring * Hier);
  learnedPatterns : list Learned;
  tempoHistory : list float;
  rhythmPatterns : list (list NoteValue * RhythmObj);
  userStyle : UserStyle
}.

Definition maxPatternLength : nat := 64.
Definition minPatternLength : nat := 2.
Definition patternScoreThreshold : float := 1.5.

(** The state the constructor builds. *)
Definition initialEngine : Engine := {|
  keystrokeHistory := [];
  store := [];
  detectedPatterns := [];
  hierarchicalPatterns := [];
  learnedPatterns := [];
  tempoHistory := [];
  rhythmPatterns := [];
  userStyle := {| preferredPatterns := [];
                  averageTempo := 120;
                  rhythmPreference := "quarter";
                  patternComplexity := mediumC;
                  musicalScale := "pentatonic" |}
|}.

(** ** Field updates *)

Definition with_keystrokeHistory (f : list Keystroke -> list Keystroke)
  (e : Engine) : Engine :=
  {| keystrokeHistory := f (keystrokeHistory e); store := store e;
     detectedPatterns := detectedPatterns e;
     hierarchicalPatterns := hierarchicalPatterns e;
     learnedPatterns := learnedPatterns e; tempoHistory := tempoHistory e;
     rhythmPatterns := rhythmPatterns e; userStyle := userStyle e |}.

Definition with_store (f : list PatternObj -> list PatternObj)
  (e : Engine) : Engine :=
  {| keystrokeHistory := keystrokeHistory e; store := f (store e);
     detectedPatterns := detectedPatterns e;
     hierarchicalPatterns := hierarchicalPatterns e;
     learnedPatterns := learnedPatterns e; tempoHistory := tempoHistory e;
     rhythmPatterns := rhythmPatterns e; userStyle := userStyle e |}.

Definition with_detectedPatterns
  (f : list (jsstring * loc) -> list (jsstring * loc)) (e : Engine) : Engine :=
  {| keystrokeHistory := keystrokeHistory e; store := store e;
     detectedPatterns := f (detectedPatterns e);
     hierarchicalPatterns := hierarchicalPatterns e;
     learnedPatterns := learnedPatterns e; tempoHistory := tempoHistory e;
     rhythmPatterns := rhythmPatterns e; userStyle := userStyle e |}.

Definition with_hierarchicalPatterns
  (f : list (jsstring * Hier) -> list (jsstring * Hier)) (e : Engine)
  : Engine :=
  {| keystrokeHistory := keystrokeHistory e; store := store e;
     detectedPatterns := detectedPatterns e;
     hierarchicalPatterns := f (hierarchicalPatterns e);
     learnedPatterns := learnedPatterns e; tempoHistory := tempoHistory e;
     rhythmPatterns := rhythmPatterns e; userStyle := userStyle e |}.

Definition with_learnedPatterns (f : list Learned -> list Learned)
  (e : Engine) : Engine :=
  {| keystrokeHistory := keystrokeHistory e; store := store e;
     detectedPatterns := detectedPatterns e;
     hierarchicalPatterns := hierarchicalPatterns e;
     learnedPatterns := f (learnedPatterns e); tempoHistory := tempoHistory e;
     rhythmPatterns := rhythmPatterns e; userStyle := userStyle e |}.

Definition with_tempoHistory (f : list float -> list float)
  (e : Engine) : Engine :=
  {| keystrokeHistory := keystrokeHistory e; store := store e;
     detectedPatterns := detectedPatterns e;
     hierarchicalPatterns := hierarchicalPatterns e;
     learnedPatterns := learnedPatterns e; tempoHistory := f (tempoHistory e);
     rhythmPatterns := rhythmPatterns e; userStyle := userStyle e |}.

Definition with_rhythmPatterns
  (f : list (list NoteValue * RhythmObj) -> list (list NoteValue * RhythmObj))
  (e : Engine) : Engine :=
  {| keystrokeHistory := keystrokeHistory e; store := store e;
     detectedPatterns := detectedPatterns e;
     hierarchicalPatterns := hierarchicalPatterns e;
     learnedPatterns := learnedPatterns e; tempoHistory := tempoHistory e;
     rhythmPatterns := f (rhythmPatterns e); userStyle := userStyle e |}.

Definition with_userStyle (f : UserStyle -> UserStyle) (e : Engine) : Engine :=
  {| keystrokeHistory := keystrokeHistory e; store := store e;
     detectedPatterns := detectedPatterns e;
     hierarchicalPatterns := hierarchicalPatterns e;
     learnedPatterns := learnedPatterns e; tempoHistory := tempoHistory e;
     rhythmPatterns := rhythmPatterns e; userStyle := f (userStyle e) |}.

Definition set_frequency (v : Z) (p : PatternObj) : PatternObj :=
  {| pattern := pattern p; patternLength := patternLength p; frequency := v;
     score := score p; lastSeen := lastSeen p; rhythmInfo := rhythmInfo p;
     qualityScore := qualityScore p; firstSeen := firstSeen p |}.

Definition set_score (v : float) (p : PatternObj) : PatternObj :=
  {| pattern := pattern p; patternLength := patternLength p;
     frequency := frequency p; score := v; lastSeen := lastSeen p;
     rhythmInfo := rhythmInfo p; qualityScore := qualityScore p;
     firstSeen := firstSeen p |}.

Definition set_lastSeen (v : Z) (p : PatternObj) : PatternObj :=
  {| pattern := pattern p; patternLength := patternLength p;
     frequency := frequency p; score := score p; lastSeen := v;
     rhythmInfo := rhythmInfo p; qualityScore := qualityScore p;
     firstSeen := firstSeen p |}.

Definition set_rhythmInfo (v : option RhythmInfo) (p : PatternObj)
  : PatternObj :=
  {| pattern := pattern p; patternLength := patternLength p;
     frequency := frequency p; score := score p; lastSeen := lastSeen p;
     rhythmInfo := v; qualityScore := qualityScore p;
     firstSeen := firstSeen p |}.

(** ** The store of pattern objects *)

(** What a location outside the store reads as.  Locations come from
    [alloc] and from the registry, and are always inside. *)
Definition noObject : PatternObj :=
  {| pattern := []; patternLength := 0; frequency := 0; score := 0;
     lastSeen := 0; rhythmInfo := None; qualityScore := 0; firstSeen := 0 |}.

Definition deref (st : list PatternObj) (l : loc) : PatternObj :=
  nth l st noObject.

Fixpoint store_update (st : list PatternObj) (l : loc)
  (f : PatternObj -> PatternObj) : list PatternObj :=
  match st, l with
  | [], _ => []
  | p :: st', O => f p :: st'
  | p :: st', S l' => p :: store_update st' l' f
  end.

(* ------------------------------------------------------------------ *)
(** * Effects: the clock and the engine state *)

(** The readings [Date.now()] will return, in order; once they are used
    up the clock stays at the last reading. *)
Record Clock := {
  pending : list Z;
  lastReading : Z
}.

Definition tick (c : Clock) : Z * Clock :=
  match pending c with
  | [] => (lastReading c, c)
  | t :: rest => (t, {| pending := rest; lastReading := t |})
  end.

Record World := {
  clock : Clock;
  engine : Engine
}.

Definition Eff (A : Type) : Type := World -> A * World.

Definition ret {A} (a : A) : Eff A := fun w => (a, w).

Definition bind {A B} (m : Eff A) (k : A -> Eff B) : Eff B :=
  fun w => let (a, w') := m w in k a w'.

Notation "x <- m ;; k" := (bind m (fun x => k))
  (at level 61, m at next level, right associativity).
Notation "m ;;; k" := (bind m (fun _ => k))
  (at level 61, right associativity).

Definition exec {A} (m : Eff A) (w : World) : World := snd (m w).

(** [Date.now()]. *)
Definition Date_now : Eff Z :=
  fun w => let (t, c) := tick (clock w) in
           (t, {| clock := c; engine := engine w |}).

Definition read {A} (f : Engine -> A) : Eff A :=
  fun w => (f (engine w), w).

Definition modify (f : Engine -> Engine) : Eff unit :=
  fun w => (tt, {| clock := clock w; engine := f (engine w) |}).

Fixpoint forEach {A} (l : list A) (body : A -> Eff unit) : Eff unit :=
  match l with
  | [] => ret tt
  | x :: l' => body x ;;; forEach l' body
  end.

(** Reading an object, assigning to its fields in place, and creating
    one. *)
Definition readObj (l : loc) : Eff PatternObj :=
  read (fun e => deref (store e) l).

Definition assign (l : loc) (f : PatternObj -> PatternObj) : Eff unit :=
  modify (with_store (fun st => store_update st l f)).

Definition alloc (p : PatternObj) : Eff loc :=
  l <- read (fun e => List.length (store e)) ;;
  modify (with_store (fun st => st ++ [p])) ;;;
  ret l.

(* ------------------------------------------------------------------ *)
(** * The pattern detector *)

Definition chars (ks : list Keystroke) : jsstring := map char ks.

(** [keystrokes[i].timestamp - keystrokes[i-1].timestamp] for [i >= 1]. *)
Fixpoint intervalsOf (ks : list Keystroke) : list Z :=
  match ks with
  | a :: (b :: _) as rest => (timestamp b - timestamp a)%Z :: intervalsOf rest
  | _ => []
  end.

Definition sumZ (l : list Z) : Z := fold_left Z.add l 0%Z.

(** [a.slice(from, to)]. *)
Definition slice {A} (l : list A) (from to : nat) : list A :=
  firstn (to - from) (skipn from l).

(** The template literal [`${pattern}_${patternLength}`]. *)
Definition patternKey (pattern : jsstring) (patternLength : nat) : jsstring :=
  pattern ++ lit "_" ++ Str.of_nat patternLength.

(** The [while] loop that counts consecutive repetitions.  Every round
    advances [nextStart] by [patternLength]; with [patternLength >= 1],
    which is what [analyzePatterns] passes, [length sequence] rounds are
    enough. *)
Fixpoint countRepetitions (fuel : nat) (sequence pattern : jsstring)
  (patternLength nextStart : nat) (repetitions : Z) : Z :=
  match fuel with
  | O => repetitions
  | S fuel' =>
      if (nextStart + patternLength <=? List.length sequence)%nat then
        let nextPattern :=
          substring sequence nextStart (nextStart + patternLength) in
        if Str.eqb nextPattern pattern
        then countRepetitions fuel' sequence pattern patternLength
               (nextStart + patternLength) (repetitions + 1)
        else repetitions
      else repetitions
  end.

(** [calculatePatternScore(pattern, repetitions)]; the object is read
    through its location. *)
Definition calculatePatternScore (l : loc) (repetitions : Z) : Eff float :=
  p <- readObj l ;;
  let baseScore := (Z2F repetitions * N2F (patternLength p))%float in
  let complexityBonus := Math_min (N2F (patternLength p) / 4) 5 in
  let uniqueCharsBonus := (N2F (set_size (pattern p)) * 0.5)%float in
  now <- Date_now ;;
  let recencyBonus :=
    Math_max 0 (5 - Z2F (now - lastSeen p) / 1000) in
  ret (baseScore + complexityBonus + uniqueCharsBonus + recencyBonus)%float.

(** [calculateFreshnessPenalty(patternData)].  In
    [patternData.firstSeen || Date.now()] the clock is read again only when
    [firstSeen] is 0. *)
Definition calculateFreshnessPenalty (l : loc) : Eff float :=
  patternData <- readObj l ;;
  now <- Date_now ;;
  first <- (if (firstSeen patternData =? 0)%Z then Date_now
            else ret (firstSeen patternData)) ;;
  let timeSinceFirstSeen := (now - first)%Z in
  let usageRate :=
    (Z2F (frequency patternData)
     / Math_max 1 (Z2F timeSinceFirstSeen / 1000))%float in
  ret (if gtb usageRate 2 then 0.1
       else if gtb usageRate 1 then 0.3
       else if gtb usageRate 0.5 then 0.7
       else 1.0)%float.

(** [findPatternOccurrences]: the [while] loop moves [startIndex] past
    each hit; [length charSequence + 1] rounds are enough. *)
Fixpoint findOccurrencesFrom (fuel : nat) (pattern charSequence : jsstring)
  (keystrokeData : list Keystroke) (startIndex : nat)
  : list (list Keystroke) :=
  match fuel with
  | O => []
  | S fuel' =>
      if (startIndex + List.length pattern <=? List.length charSequence)%nat
      then match indexOf charSequence pattern startIndex with
           | None => []
           | Some foundIndex =>
               slice keystrokeData foundIndex
                     (foundIndex + List.length pattern)
               :: findOccurrencesFrom fuel' pattern charSequence
                    keystrokeData (foundIndex + 1)
           end
      else []
  end.

Definition findPatternOccurrences (pattern : jsstring)
  (keystrokeData : list Keystroke) : list (list Keystroke) :=
  let charSequence := chars keystrokeData in
  findOccurrencesFrom (S (List.length charSequence)) pattern charSequence
    keystrokeData 0.

Definition rhythmKey_eqb (a b : list NoteValue) : bool :=
  (List.length a =? List.length b)%nat
  && forallb (fun xy => NoteValue_eqb (fst xy) (snd xy)) (combine a b).

(** [rhythmKey.split('-')] of a joined key; the empty key splits into one
    empty string. *)
Definition splitKey (k : list NoteValue) : list string :=
  match k with
  | [] => [EmptyString]
  | _ => map noteName k
  end.

Definition countKey (m : list (list NoteValue * Z)) (k : list NoteValue)
  : list (list NoteValue * Z) :=
  JsMap.set rhythmKey_eqb m k
    (match JsMap.get rhythmKey_eqb m k with Some n => n | None => 0 end + 1)%Z.

(** [analyzePatternRhythm(pattern, keystrokeData)], with the current tempo
    that its calls of [classifyInterval] read. *)
Definition analyzePatternRhythm (tempo : float) (pattern : jsstring)
  (keystrokeData : list Keystroke) : option RhythmInfo :=
  let patternOccurrences := findPatternOccurrences pattern keystrokeData in
  match patternOccurrences with
  | [] => None
  | _ =>
      let rhythms :=
        map (fun occurrence =>
               map (fun interval => classifyInterval tempo (Z2F interval))
                   (intervalsOf occurrence))
            patternOccurrences in
      let rhythmCounts := fold_left countKey rhythms [] in
      match jsSort (fun a b => (snd a <? snd b)%Z) rhythmCounts with
      | [] => Some {| rhythm := []; confidence := 0 |}
      | (k, n) :: _ =>
          Some {| rhythm := splitKey k;
                  confidence := (Z2F n / N2F (List.length rhythms))%float |}
      end
  end.

(** One round of the sliding-window loop of [findPatternsOfLength], at
    offset [i].  [existingPattern] is the registry's own object when the
    key is present (the assignments below then write to the registered
    entry), and a new object otherwise. *)
Definition considerCandidate (sequence : jsstring) (patternLength : nat)
  (keystrokeData : list Keystroke) (i : nat) : Eff unit :=
  let pattern := substring sequence i (i + patternLength) in
  if isSpamPattern pattern then ret tt
  else
    let repetitions :=
      countRepetitions (List.length sequence) sequence pattern patternLength
        (i + patternLength) 1 in
    if (2 <=? repetitions)%Z then
      let qualityScore := calculatePatternQuality pattern in
      if (qualityScore <? 0.3)%float then ret tt
      else
        let key := patternKey pattern patternLength in
        found <- read (fun e => JsMap.get Str.eqb (detectedPatterns e) key) ;;
        existingPattern <-
          match found with
          | Some l => ret l
          | None =>
              now <- Date_now ;;
              alloc {| pattern := pattern; patternLength := patternLength;
                       frequency := 0; score := 0; lastSeen := 0;
                       rhythmInfo := None; qualityScore := qualityScore;
                       firstSeen := now |}
          end ;;
        p <- readObj existingPattern ;;
        assign existingPattern (set_frequency (frequency p + repetitions)) ;;;
        now <- Date_now ;;
        assign existingPattern (set_lastSeen now) ;;;
        s <- calculatePatternScore existingPattern repetitions ;;
        assign existingPattern (set_score s) ;;;
        tempo <- read (fun e => averageTempo (userStyle e)) ;;
        assign existingPattern
          (set_rhythmInfo (analyzePatternRhythm tempo pattern keystrokeData)) ;;;
        freshnessPenalty <- calculateFreshnessPenalty existingPattern ;;
        p <- readObj existingPattern ;;
        assign existingPattern (set_score (score p * freshnessPenalty)) ;;;
        p <- readObj existingPattern ;;
        if gtb (score p) 1.0
        then modify (with_detectedPatterns
                       (fun m => JsMap.set Str.eqb m key existingPattern))
        else ret tt
    else ret tt.

(** [findPatternsOfLength]: [i] runs over
    [0 .. sequence.length - 2 * patternLength].  (The local map [patterns]
    it returns is not used by its caller.) *)
Definition findPatternsOfLength (sequence : jsstring) (patternLength : nat)
  (keystrokeData : list Keystroke) : Eff unit :=
  forEach (seq 0 (List.length sequence + 1 - 2 * patternLength))
          (considerCandidate sequence patternLength keystrokeData).

(** The registry's objects whose score is above the threshold, in registry
    order. *)
Definition aboveThreshold (e : Engine) : list loc :=
  filter (fun l => gtb (score (deref (store e) l)) patternScoreThreshold)
         (map snd (detectedPatterns e)).

(** The pairs (allPatterns[i], allPatterns[j]) with [i < j], in loop
    order. *)
Fixpoint nestedPairs (l : list loc) : list (loc * loc) :=
  match l with
  | [] => []
  | x :: rest => map (pair x) rest ++ nestedPairs rest
  end.

Definition nestedKey (parentPattern childPattern : jsstring) : jsstring :=
  parentPattern ++ lit "_contains_" ++ childPattern.

Definition findNestedPatterns : Eff unit :=
  modify (fun e =>
    let st := store e in
    let allPatterns :=
      jsSort (fun a b => (patternLength (deref st a)
                          <? patternLength (deref st b))%nat)
             (aboveThreshold e) in
    with_hierarchicalPatterns
      (fun h =>
         fold_left
           (fun h pc =>
              let parentPattern := deref st (fst pc) in
              let childPattern := deref st (snd pc) in
              if includes (pattern parentPattern) (pattern childPattern)
              then JsMap.set Str.eqb h
                     (nestedKey (pattern parentPattern) (pattern childPattern))
                     {| parent := fst pc; child := snd pc;
                        nestingScore := (score parentPattern
                                         * score childPattern)%float |}
              else h)
           (nestedPairs allPatterns) h)
      e).

(** [categorizePattern]. *)
Definition categorizePattern (p : PatternObj) : Category :=
  if (patternLength p <=? 3)%nat then simple
  else if (8 <=? patternLength p)%nat then complex
  else
    let s := pattern p in
    let n := List.length s in
    let isRepeating :=
      (2 <? n)%nat && Str.eqb s (repeat_str (substring s 0 (n / 2)) 2) in
    if isRepeating then repetitive
    else
      let isAlternating :=
        (2 <? n)%nat
        && forallb (fun ic => (fst ic <? 2)%nat
                              || Ascii.eqb (snd ic)
                                   (nth (fst ic mod 2) s Ascii.zero))
                   (combine (seq 0 n) s) in
      if isAlternating then alternating else varied.

(** The pattern is dropped by the clean-up loop. *)
Definition isStale (cutoffTime : Z) (p : PatternObj) : bool :=
  (lastSeen p <? cutoffTime)%Z && (frequency p <? 3)%Z.

(** The ten best registry objects above the threshold. *)
Definition topPatterns (e : Engine) : list loc :=
  firstn 10
    (jsSort (fun a b => gtb (score (deref (store e) b)
                             - score (deref (store e) a)) 0)
            (aboveThreshold e)).

Definition decayStep (kl : jsstring * loc) : Eff unit :=
  now <- Date_now ;;
  p <- readObj (snd kl) ;;
  let timeSinceLastSeen := (now - lastSeen p)%Z in
  let decayFactor := Math_max 0.1 (1 - Z2F timeSinceLastSeen / 60000) in
  assign (snd kl) (set_score (score p * decayFactor)).

Definition learnStep (l : loc) : Eff unit :=
  p <- readObj l ;;
  learned <- read learnedPatterns ;;
  let isLearned :=
    existsb (fun x => Str.eqb (learned_pattern x) (pattern p)) learned in
  if negb isLearned && gtb (score p) (patternScoreThreshold * 2) then
    now <- Date_now ;;
    modify (with_learnedPatterns
      (fun ls =>
         let pushed :=
           ls ++ [ {| learned_pattern := pattern p; learnedAt := now;
                      strength := score p; category := categorizePattern p |} ] in
         let sorted :=
           jsSort (fun a b => gtb (strength b - strength a) 0) pushed in
         if (50 <? List.length sorted)%nat then firstn 50 sorted else sorted))
  else ret tt.

(** [scoreAndRankPatterns]: clean-up, decay, learning. *)
Definition scoreAndRankPatterns : Eff unit :=
  now <- Date_now ;;
  let cutoffTime := (now - 30000)%Z in
  modify (fun e =>
    with_detectedPatterns
      (filter (fun kl => negb (isStale cutoffTime (deref (store e) (snd kl)))))
      e) ;;;
  entries <- read detectedPatterns ;;
  forEach entries decayStep ;;;
  top <- read topPatterns ;;
  forEach top learnStep.

(** The pattern lengths [analyzePatterns] tries:
    [2 .. min(maxPatternLength, n / 2)]. *)
Definition patternLengths (n : nat) : list nat :=
  seq minPatternLength (Nat.min maxPatternLength (n / 2) + 1 - minPatternLength).

Definition analyzePatterns : Eff unit :=
  h <- read keystrokeHistory ;;
  if (List.length h <? minPatternLength)%nat then ret tt
  else
    let recentKeystrokes := lastN 32 h in
    let charSequence := chars recentKeystrokes in
    forEach (patternLengths (List.length recentKeystrokes))
      (fun patternLength =>
         findPatternsOfLength charSequence patternLength recentKeystrokes) ;;;
    findNestedPatterns ;;;
    scoreAndRankPatterns.

(* ------------------------------------------------------------------ *)
(** * The rhythm tracker *)

(** The mean of a list of intervals: the integral sum is exact, the
    division is a binary64 division. *)
Definition meanInterval (intervals : list Z) : float :=
  (Z2F (sumZ intervals) / N2F (List.length intervals))%float.

(** [isRhythmSpam]. *)
Definition isRhythmSpam (keystrokes : list Keystroke) : bool :=
  let n := List.length keystrokes in
  if (n <? 4)%nat then false
  else
    let uniqueChars := set_size (chars keystrokes) in
    let intervals := intervalsOf keystrokes in
    if ((uniqueChars =? 1)%nat && (3 <? n)%nat)
       && (meanInterval intervals <? 50)%float then true
    else
      let fast32ndCount :=
        List.length (filter (fun interval => (interval <? 80)%Z) intervals) in
      if gtb (N2F fast32ndCount / N2F (n - 1)) 0.7 then true else false.

(** [updateTempoEstimation]. *)
Definition updateTempoEstimation (intervals : list Z) : Eff unit :=
  let avgInterval := meanInterval intervals in
  let estimatedTempo := (60000 / (avgInterval * 4))%float in
  modify (with_tempoHistory
            (fun th => let th' := th ++ [estimatedTempo] in
                       if (20 <? List.length th')%nat then tl th' else th')) ;;;
  th <- read tempoHistory ;;
  modify (with_userStyle
            (fun us =>
               {| preferredPatterns := preferredPatterns us;
                  averageTempo := (Num.sum th / N2F (List.length th))%float;
                  rhythmPreference := rhythmPreference us;
                  patternComplexity := patternComplexity us;
                  musicalScale := musicalScale us |})).

(** [analyzeRhythm]. *)
Definition analyzeRhythm : Eff unit :=
  h <- read keystrokeHistory ;;
  if (List.length h <? 4)%nat then ret tt
  else
    let recentStrokes := lastN 16 h in
    if isRhythmSpam recentStrokes then ret tt
    else
      let intervals := intervalsOf recentStrokes in
      tempo <- read (fun e => averageTempo (userStyle e)) ;;
      let rhythmPattern :=
        map (fun interval => classifyInterval tempo (Z2F interval)) intervals in
      found <- read (fun e =>
                 JsMap.get rhythmKey_eqb (rhythmPatterns e) rhythmPattern) ;;
      let existingRhythm :=
        match found with
        | Some r => r
        | None => {| rhythm_pattern := rhythmPattern; rhythm_frequency := 0;
                     averageInterval := 0; rhythm_lastSeen := 0 |}
        end in
      now <- Date_now ;;
      modify (with_rhythmPatterns
                (fun m =>
                   JsMap.set rhythmKey_eqb m rhythmPattern
                     {| rhythm_pattern := rhythm_pattern existingRhythm;
                        rhythm_frequency :=
                          (rhythm_frequency existingRhythm + 1)%Z;
                        averageInterval := meanInterval intervals;
                        rhythm_lastSeen := now |})) ;;;
      updateTempoEstimation intervals.

(* ------------------------------------------------------------------ *)
(** * The style model *)

Definition countNote (m : list (NoteValue * Z)) (note : NoteValue)
  : list (NoteValue * Z) :=
  JsMap.set NoteValue_eqb m note
    (match JsMap.get NoteValue_eqb m note with Some n => n | None => 0 end + 1)%Z.

(** [updateUserStyle]. *)
Definition updateUserStyle : Eff unit :=
  modify (fun e =>
    let top := topPatterns e in
    let avgPatternLength :=
      (Z2F (sumZ (map (fun l => Z.of_nat (patternLength (deref (store e) l)))
                      top))
       / N2F (List.length top))%float in
    let complexity :=
      if (avgPatternLength <? 3)%float then simpleC
      else if gtb avgPatternLength 6 then complexC
      else mediumC in
    let rhythmCounts :=
      fold_left countNote
        (flat_map (fun kr => rhythm_pattern (snd kr)) (rhythmPatterns e)) [] in
    let mostCommonRhythm :=
      hd_error (jsSort (fun a b => (snd a <? snd b)%Z) rhythmCounts) in
    with_userStyle
      (fun us =>
         {| preferredPatterns := top;
            averageTempo := averageTempo us;
            rhythmPreference :=
              match mostCommonRhythm with
              | Some (note, _) => noteName note
              | None => rhythmPreference us
              end;
            patternComplexity := complexity;
            musicalScale := musicalScale us |})
      e).

(* ------------------------------------------------------------------ *)
(** * Recording a keystroke *)

(** [recordKeystroke(char, timestamp, musicalNote)], as a state change.
    Nothing inside the [try] block can throw.  The value stored as
    [beatPosition] comes from the musical engine, if the engine was built
    with one; [getCurrentBeatPosition()] takes a clock reading of its own
    for it, before the analysis.  That reading goes into the field nothing
    reads, and the clock of the model does not count it: its readings are
    those of the engine's own [Date.now()] calls.  The suggestions it returns
    are computed by [getPatternSuggestions], which reads the state, draws
    random numbers and changes nothing; it is embedded on its own, further
    down. *)
Definition recordKeystroke (c : ascii) (time : Z) : Eff unit :=
  h <- read keystrokeHistory ;;
  let keystroke :=
    {| char := toLowerCase c;
       timestamp := time;
       timeSinceLastKey :=
         match h with
         | [] => 0%Z
         | _ => (time - timestamp (last h {| char := Ascii.zero; timestamp := 0;
                                             timeSinceLastKey := 0 |}))%Z
         end |} in
  modify (with_keystrokeHistory
            (fun h => let h' := h ++ [keystroke] in
                      if (1000 <? List.length h')%nat then tl h' else h')) ;;;
  h <- read keystrokeHistory ;;
  if (minPatternLength <=? List.length h)%nat then
    analyzePatterns ;;; analyzeRhythm ;;; updateUserStyle
  else ret tt.

(** A key event as the game delivers it: the character, the timestamp the
    caller took, and the readings the clock gives to the engine's
    [Date.now()] calls during the pass (once they are used up, the clock
    stays at the last one). *)
Record KeyEvent := {
  ev_char : ascii;
  ev_time : Z;
  ev_readings : list Z
}.

Definition step (e : Engine) (ev : KeyEvent) : Engine :=
  engine (exec (recordKeystroke (ev_char ev) (ev_time ev))
            {| clock := {| pending := ev_readings ev;
                           lastReading := ev_time ev |};
               engine := e |}).

(** The engine after a sequence of key events, from the constructor's
    state. *)
Definition run (evs : list KeyEvent) : Engine := fold_left step evs initialEngine.

(** Key events typed while the clock stands still during each pass. *)
Definition typed (s : string) (start gap : Z) : list KeyEvent :=
  map (fun ic => {| ev_char := snd ic;
                    ev_time := (start + gap * Z.of_nat (fst ic))%Z;
                    ev_readings := [] |})
      (combine (seq 0 (String.length s)) (lit s)).

(* ------------------------------------------------------------------ *)
(** * The persistence boundary *)

(** How a Number travels through [JSON.stringify] and [JSON.parse]: a
    finite value comes back as the same binary64 value; -0 is printed as
    0; NaN and the infinities are printed as [null], which every numeric
    use in the engine reads as +0. *)
Definition jsonNumber (x : float) : float :=
  if PrimFloat.is_finite x && negb (PrimFloat.is_zero x) then x else 0%float.

Definition jsonRhythmInfo (r : RhythmInfo) : RhythmInfo :=
  {| rhythm := rhythm r; confidence := jsonNumber (confidence r) |}.

Definition jsonPattern (p : PatternObj) : PatternObj :=
  {| pattern := pattern p; patternLength := patternLength p;
     frequency := frequency p; score := jsonNumber (score p);
     lastSeen := lastSeen p;
     rhythmInfo := option_map jsonRhythmInfo (rhythmInfo p);
     qualityScore := jsonNumber (qualityScore p); firstSeen := firstSeen p |}.

Definition jsonRhythm (r : RhythmObj) : RhythmObj :=
  {| rhythm_pattern := rhythm_pattern r;
     rhythm_frequency := rhythm_frequency r;
     averageInterval := jsonNumber (averageInterval r);
     rhythm_lastSeen := rhythm_lastSeen r |}.

(** A hierarchical relation and the style model with their pattern objects
    written out, as they appear in the serialized text. *)
Record HierData := {
  parentData : PatternObj;
  childData : PatternObj;
  nestingScoreData : float
}.

Record UserStyleData := {
  preferredData : list PatternObj;
  averageTempoData : float;
  rhythmPreferenceData : string;
  patternComplexityData : Complexity;
  musicalScaleData : string
}.

(** The object [userData] behind the stored text. *)
Record Snapshot := {
  savedDetected : list (jsstring * PatternObj);
  savedHierarchical : list (jsstring * HierData);
  savedRhythm : list (list NoteValue * RhythmObj);
  savedUserStyle : UserStyleData;
  lastSaved : Z
}.

(** The registries and the style model by value: every location replaced
    by the object it names. *)
Definition registryView (e : Engine) : list (jsstring * PatternObj) :=
  map (fun kl => (fst kl, deref (store e) (snd kl))) (detectedPatterns e).

Definition hierarchyView (e : Engine) : list (jsstring * HierData) :=
  map (fun kh => (fst kh,
                  {| parentData := deref (store e) (parent (snd kh));
                     childData := deref (store e) (child (snd kh));
                     nestingScoreData := nestingScore (snd kh) |}))
      (hierarchicalPatterns e).

Definition styleView (e : Engine) : UserStyleData :=
  {| preferredData := map (deref (store e)) (preferredPatterns (userStyle e));
     averageTempoData := averageTempo (userStyle e);
     rhythmPreferenceData := rhythmPreference (userStyle e);
     patternComplexityData := patternComplexity (userStyle e);
     musicalScaleData := musicalScale (userStyle e) |}.

Definition jsonRegistry (v : list (jsstring * PatternObj))
  : list (jsstring * PatternObj) :=
  map (fun kp => (fst kp, jsonPattern (snd kp))) v.

Definition jsonHierarchy (v : list (jsstring * HierData))
  : list (jsstring * HierData) :=
  map (fun kh => (fst kh,
                  {| parentData := jsonPattern (parentData (snd kh));
                     childData := jsonPattern (childData (snd kh));
                     nestingScoreData :=
                       jsonNumber (nestingScoreData (snd kh)) |})) v.

Definition jsonRhythms (v : list (list NoteValue * RhythmObj))
  : list (list NoteValue * RhythmObj) :=
  map (fun kr => (fst kr, jsonRhythm (snd kr))) v.

Definition jsonStyle (s : UserStyleData) : UserStyleData :=
  {| preferredData := map jsonPattern (preferredData s);
     averageTempoData := jsonNumber (averageTempoData s);
     rhythmPreferenceData := rhythmPreferenceData s;
     patternComplexityData := patternComplexityData s;
     musicalScaleData := musicalScaleData s |}.

(** [saveUserPatterns]: the value handed to [localStorage.setItem], read
    back by [JSON.parse]. *)
Definition saveUserPatterns : Eff Snapshot :=
  e <- read (fun e => e) ;;
  now <- Date_now ;;
  ret {| savedDetected := jsonRegistry (registryView e);
         savedHierarchical := jsonHierarchy (hierarchyView e);
         savedRhythm := jsonRhythms (rhythmPatterns e);
         savedUserStyle := jsonStyle (styleView e);
         lastSaved := now |}.

(** [a, b, c, d, ...] as [(a, b), (c, d), ...]. *)
Fixpoint pairUp {A} (l : list A) : list (A * A) :=
  match l with
  | a :: b :: rest => (a, b) :: pairUp rest
  | _ => []
  end.

(** [loadUserPatterns], given what [localStorage.getItem] returns ([None]
    for nothing stored).  Parsing creates every object anew: each pattern
    object of the text gets a location of its own, in the order of the
    text.  The history, the tempo history and [learnedPatterns] are not
    assigned. *)
Definition loadUserPatterns (savedData : option Snapshot) : Eff unit :=
  match savedData with
  | None => ret tt
  | Some userData =>
      modify (fun e =>
        let det := savedDetected userData in
        let hier := savedHierarchical userData in
        let style := savedUserStyle userData in
        let detObjs := map snd det in
        let hierObjs :=
          flat_map (fun kh => [parentData (snd kh); childData (snd kh)]) hier in
        let prefObjs := preferredData style in
        let detLocs := seq (List.length (store e)) (List.length detObjs) in
        let hierLocs :=
          seq (List.length (store e ++ detObjs)) (List.length hierObjs) in
        let prefLocs :=
          seq (List.length ((store e ++ detObjs) ++ hierObjs))
              (List.length prefObjs) in
        {| keystrokeHistory := keystrokeHistory e;
           store := ((store e ++ detObjs) ++ hierObjs) ++ prefObjs;
           detectedPatterns := combine (map fst det) detLocs;
           hierarchicalPatterns :=
             map (fun khl =>
                    (fst (fst khl),
                     {| parent := fst (snd khl);
                        child := snd (snd khl);
                        nestingScore := nestingScoreData (snd (fst khl)) |}))
                 (combine hier (pairUp hierLocs));
           learnedPatterns := learnedPatterns e;
           tempoHistory := tempoHistory e;
           rhythmPatterns := savedRhythm userData;
           userStyle :=
             {| preferredPatterns := prefLocs;
                averageTempo := averageTempoData style;
                rhythmPreference := rhythmPreferenceData style;
                patternComplexity := patternComplexityData style;
                musicalScale := musicalScaleData style |} |})
  end.

(** [initialize]. *)
Definition initialize (savedData : option Snapshot) : Eff unit :=
  loadUserPatterns savedData.

(** Saving in one session at clock reading [now], and initializing the
    engine [e0] of a later session from what was saved. *)
Definition restore (e : Engine) (now : Z) (e0 : Engine) : Engine :=
  let snapshot :=
    fst (saveUserPatterns
           {| clock := {| pending := []; lastReading := now |}; engine := e |}) in
  engine (exec (initialize (Some snapshot))
            {| clock := {| pending := []; lastReading := now |};
               engine := e0 |}).

(* ------------------------------------------------------------------ *)
(** * Statements: sign classes of binary64 values, and the score formula
      as the specification words it *)

Module FloatClass.

(** Zero, a positive finite value or +Infinity. *)
Definition sf_nonneg (x : spec_float) : bool :=
  match x with
  | S754_zero _ => true
  | S754_infinity s | S754_finite s _ _ => negb s
  | S754_nan => false
  end.

(** Not below zero: [sf_nonneg], or NaN. *)
Definition sf_notneg (x : spec_float) : bool :=
  match x with S754_nan => true | _ => sf_nonneg x end.

(** Zero or finite, with a magnitude (digits of the mantissa plus
    exponent) of at most [D]. *)
Definition sf_mag (D : Z) (x : spec_float) : Prop :=
  match x with
  | S754_zero _ => True
  | S754_finite _ m e => (Zpos (digits2_pos m) + e <= D)%Z
  | _ => False
  end.

(** The record of a right shift after [k] single shifts of a mantissa of
    [d] digits: it is not negative and has lost [k] digits. *)
Definition shifted (d k : Z) (mrs : shr_record) : Prop :=
  (0 <= shr_m mrs /\ Zdigits2 (shr_m mrs) <= Z.max 0 (d - k))%Z.

Definition sf_posfin (x : spec_float) : bool :=
  match x with S754_finite false _ _ => true | _ => false end.

Definition nonneg (x : float) : Prop := sf_nonneg (Prim2SF x) = true.
Definition posfin (x : float) : Prop := sf_posfin (Prim2SF x) = true.

(** Zero or finite: no NaN, no infinity. *)
Definition finite (x : float) : Prop := exists D, sf_mag D (Prim2SF x).

End FloatClass.
Import FloatClass.

(** The score formula of the specification: the recency term is measured
    against the last-seen time the pattern had before the update. *)
Definition claimedScore (repetitions : Z) (len distinctCharCount : nat)
  (now previousLastSeen : Z) : float :=
  (Z2F repetitions * N2F len
   + Math_min (N2F len / 4) 5
   + N2F distinctCharCount * 0.5
   + Math_max 0 (5 - Z2F (now - previousLastSeen) / 1000))%float.


(** The registry entry of a pattern, by value. *)
Definition entryOf (e : Engine) (content : jsstring) : option PatternObj :=
  JsMap.get Str.eqb (registryView e)
    (patternKey content (List.length content)).

(** A history of keystrokes with the characters [cs], the first at
    [start] and [gap] milliseconds between neighbours. *)
Fixpoint uniformFrom (cs : list ascii) (time gap sinceLast : Z)
  : list Keystroke :=
  match cs with
  | [] => []
  | c :: cs' =>
      {| char := c; timestamp := time; timeSinceLastKey := sinceLast |}
      :: uniformFrom cs' (time + gap) gap gap
  end.

Definition uniformKeystrokes (cs : list ascii) (start gap : Z)
  : list Keystroke :=
  uniformFrom cs start gap 0.

(** An engine in its initial state, except for the history. *)
Definition engineWithHistory (h : list Keystroke) : Engine :=
  with_keystrokeHistory (fun _ => h) initialEngine.

(** ** Invariants of keystroke processing *)

(** A code unit that is its own lower case. *)
Definition lowerCase (c : ascii) : Prop := is_upper c = false.

(** A pattern object with a score that is zero, positive or +Infinity
    (not negative, not NaN), and a lower-case content. *)
Definition goodObject (p : PatternObj) : Prop :=
  nonneg (score p) /\ Forall lowerCase (pattern p).

(** The invariant: the history is lower-case and every object of the
    store is good. *)
Definition Inv (e : Engine) : Prop :=
  Forall (fun k => lowerCase (char k)) (keystrokeHistory e)
  /\ Forall goodObject (store e).

(** [keeps I m Q]: run from a state in which [I] holds, [m] ends in a
    state in which [I] holds, with a result for which [Q] holds. *)
Definition keeps {A} (I : Engine -> Prop) (m : Eff A) (Q : A -> Prop) : Prop :=
  forall w, I (engine w) -> I (engine (snd (m w))) /\ Q (fst (m w)).

Definition anything {A} (_ : A) : Prop := True.

(** [s] written [n] times in a row. *)
Definition repeatString (s : string) (n : nat) : string :=
  String.concat EmptyString (repeat s n).
(* ================================================================== *)
(** * Further statements about the engine *)

(** [hoare P m Q]: run from a state in which [P] holds, [m] returns a
    result and ends in a state that [Q] relates. *)
Definition hoare {A} (P : Engine -> Prop) (m : Eff A)
  (Q : A -> Engine -> Prop) : Prop :=
  forall w, P (engine w) -> Q (fst (m w)) (engine (snd (m w))).

(** The keystroke records that a sequence of key events produces, given
    the timestamp of the keystroke before the first of them (if any). *)
Fixpoint keystrokesFrom (previous : option Z) (evs : list KeyEvent)
  : list Keystroke :=
  match evs with
  | [] => []
  | ev :: evs' =>
      {| char := toLowerCase (ev_char ev);
         timestamp := ev_time ev;
         timeSinceLastKey :=
           match previous with
           | None => 0%Z
           | Some t => (ev_time ev - t)%Z
           end |}
      :: keystrokesFrom (Some (ev_time ev)) evs'
  end.

(** The style model's preferred patterns are the registry's top
    patterns. *)
Definition preferredIsTop (e : Engine) : Prop :=
  preferredPatterns (userStyle e) = topPatterns e.

(** The tempo history is bounded, and the running tempo is the mean of
    the estimates in it (the constructor's 120 while there is none). *)
Definition tempoInv (e : Engine) : Prop :=
  (List.length (tempoHistory e) <= 20)%nat
  /\ averageTempo (userStyle e)
     = match tempoHistory e with
       | [] => 120%float
       | th => (Num.sum th / N2F (List.length th))%float
       end.

(** A rhythm registry entry: the object carries the signature it is filed
    under, it has been seen at least once, and the signature has between
    3 and 15 categories. *)
Definition rhythmEntryOk (kr : list NoteValue * RhythmObj) : Prop :=
  rhythm_pattern (snd kr) = fst kr
  /\ (1 <= rhythm_frequency (snd kr))%Z
  /\ (3 <= List.length (fst kr) <= 15)%nat.

Definition rhythmInv (e : Engine) : Prop :=
  Forall rhythmEntryOk (rhythmPatterns e).

(** ** The registries after keystroke processing *)

(** A content the detector accepts: between 2 and 16 characters, not
    spam, and not of a quality below 0.3. *)
Definition detectable (s : jsstring) : Prop :=
  (2 <= List.length s <= 16)%nat
  /\ isSpamPattern s = false
  /\ (calculatePatternQuality s <? 0.3)%float = false.

(** A pattern object as the detector creates it: its length field is the
    length of its content, the content is acceptable, the quality is the
    one of the content, and the frequency is not negative. *)
Definition storedOk (p : PatternObj) : Prop :=
  patternLength p = List.length (pattern p)
  /\ detectable (pattern p)
  /\ qualityScore p = calculatePatternQuality (pattern p)
  /\ (0 <= frequency p)%Z.

(** A pattern object that has been through an update: it has been counted
    at least twice, and it carries the rhythm of its content, one
    category per interval. *)
Definition registeredOk (p : PatternObj) : Prop :=
  (2 <= frequency p)%Z
  /\ exists r, rhythmInfo p = Some r
               /\ List.length (rhythm r) = (patternLength p - 1)%nat.

(** A registry entry: the key is the one of the object it names. *)
Definition registryEntryOk (st : list PatternObj) (kl : jsstring * loc)
  : Prop :=
  (snd kl < List.length st)%nat
  /\ fst kl = patternKey (pattern (deref st (snd kl)))
                (patternLength (deref st (snd kl)))
  /\ registeredOk (deref st (snd kl)).

(** A hierarchical relation: the key names the two contents, and the
    parent's content includes the child's. *)
Definition hierarchyEntryOk (st : list PatternObj) (kh : jsstring * Hier)
  : Prop :=
  (parent (snd kh) < List.length st)%nat
  /\ (child (snd kh) < List.length st)%nat
  /\ fst kh = nestedKey (pattern (deref st (parent (snd kh))))
                (pattern (deref st (child (snd kh))))
  /\ includes (pattern (deref st (parent (snd kh))))
       (pattern (deref st (child (snd kh)))) = true.

(** A learned pattern: an acceptable content, learned at a strength above
    twice the threshold. *)
Definition learnedOk (x : Learned) : Prop :=
  detectable (learned_pattern x)
  /\ gtb (strength x) (patternScoreThreshold * 2) = true.

Definition registryInv (e : Engine) : Prop :=
  Forall storedOk (store e)
  /\ Forall (registryEntryOk (store e)) (detectedPatterns e)
  /\ Forall (hierarchyEntryOk (store e)) (hierarchicalPatterns e)
  /\ Forall learnedOk (learnedPatterns e)
  /\ NoDup (map learned_pattern (learnedPatterns e))
  /\ (List.length (learnedPatterns e) <= 50)%nat.

(** The invariant, with what is known of the object at one location. *)
Definition candidateInv (l : loc) (known : PatternObj -> Prop) (e : Engine)
  : Prop :=
  registryInv e /\ (l < List.length (store e))%nat
  /\ known (deref (store e) l).

(** The registry holds, under [key], the object at [l]; the object has
    the content [s], was first seen at [t], and has a frequency of at
    least [f]. *)
Definition holdsEntry (key : jsstring) (l : loc) (s : jsstring) (t f : Z)
  (e : Engine) : Prop :=
  In (key, l) (detectedPatterns e)
  /\ (l < List.length (store e))%nat
  /\ pattern (deref (store e) l) = s
  /\ firstSeen (deref (store e) l) = t
  /\ (f <= frequency (deref (store e) l))%Z.

(* ------------------------------------------------------------------ *)
(** * Suggestions and the analysis for display *)

(** Every use of [Math.random()] in the engine has the form
    [Math.floor(Math.random() * n)] with [n >= 1]: an index below [n].
    The indices come from a stream of choices, one per call: the choice
    [k] stands for the index [k mod n]. *)
Definition Choices : Type := nat -> nat.

Definition Rnd (A : Type) : Type := Choices -> A * Choices.

Definition rnd_ret {A} (a : A) : Rnd A := fun s => (a, s).

Definition rnd_bind {A B} (m : Rnd A) (k : A -> Rnd B) : Rnd B :=
  fun s => let (a, s') := m s in k a s'.

Notation "x <~ m ;; k" := (rnd_bind m (fun x => k))
  (at level 61, m at next level, right associativity).

Definition randomIndex (n : nat) : Rnd nat :=
  fun s => (s 0%nat mod n, fun i => s (S i)).

(** [getRandomCharFromUserHistory]. *)
Definition getRandomCharFromUserHistory (h : list Keystroke) : Rnd ascii :=
  match h with
  | [] => rnd_ret "a"%char
  | _ =>
      let recentChars := map char (lastN 20 h) in
      i <~ randomIndex (List.length recentChars) ;;
      rnd_ret (nth i recentChars Ascii.zero)
  end.

(** [chars[i] = c] on an array of characters, for [i] inside it. *)
Fixpoint setChar (i : nat) (c : ascii) (chars : jsstring) : jsstring :=
  match chars, i with
  | [], _ => []
  | _ :: rest, O => c :: rest
  | x :: rest, S i' => x :: setChar i' c rest
  end.

(** [generatePatternVariation(pattern)]: the strategies are, in the order
    of the array, reversing, doubling, appending a character of the
    history, and substituting one. *)
Definition generatePatternVariation (h : list Keystroke) (pattern : jsstring)
  : Rnd jsstring :=
  strategy <~ randomIndex 4 ;;
  match strategy with
  | 0%nat => rnd_ret (rev pattern)
  | 1%nat => rnd_ret (pattern ++ pattern)
  | 2%nat =>
      c <~ getRandomCharFromUserHistory h ;;
      rnd_ret (pattern ++ [c])
  | _ =>
      if (1 <? List.length pattern)%nat then
        randomIndex' <~ randomIndex (List.length pattern) ;;
        c <~ getRandomCharFromUserHistory h ;;
        rnd_ret (setChar randomIndex' c pattern)
      else rnd_ret pattern
  end.

(** The three rhythm variations. *)
Definition speedUp (note : NoteValue) : NoteValue :=
  match note with
  | Quarter => Eighth
  | Eighth => Sixteenth
  | _ => note
  end.

Definition slowDown (note : NoteValue) : NoteValue :=
  match note with
  | Sixteenth => Eighth
  | Eighth => Quarter
  | _ => note
  end.

(** [flatMap((note, i) => i % 2 === 0 ? [note, 'rest'] : [note])]. *)
Fixpoint syncopate (rhythmPattern : list NoteValue) : list NoteValue :=
  match rhythmPattern with
  | [] => []
  | [note] => [note; Rest]
  | note :: note' :: rest => note :: Rest :: note' :: syncopate rest
  end.

(** [notes.join('-')]. *)
Fixpoint joinNotes (notes : list NoteValue) : jsstring :=
  match notes with
  | [] => []
  | [note] => lit (noteName note)
  | note :: rest => lit (noteName note) ++ lit "-" ++ joinNotes rest
  end.

(** [generateRhythmVariation(rhythmPattern)]. *)
Definition generateRhythmVariation (rhythmPattern : list NoteValue)
  : Rnd jsstring :=
  let variations :=
    [ map speedUp rhythmPattern;
      map slowDown rhythmPattern;
      syncopate rhythmPattern ] in
  i <~ randomIndex (List.length variations) ;;
  rnd_ret (joinNotes (nth i variations [])).

Inductive SuggestionType := extendS | variationS | rhythmS.

Record Suggestion := {
  sug_type : SuggestionType;
  sug_original : jsstring;
  sug_suggestion : jsstring;
  sug_confidence : float;
  sug_description : jsstring
}.

(** The double quote of the template literals. *)
Definition quote : ascii := Ascii.ascii_of_nat 34.

(** The body of the [forEach] of [getPatternSuggestions]: the
    suggestions pushed for one preferred pattern. *)
Definition suggestionsFor (h : list Keystroke) (p : PatternObj)
  : Rnd (list Suggestion) :=
  let extension :=
    {| sug_type := extendS;
       sug_original := pattern p;
       sug_suggestion := pattern p ++ pattern p;
       sug_confidence := (score p / 100)%float;
       sug_description :=
         lit "Try extending " ++ [quote] ++ pattern p ++ [quote]
         ++ lit " to make it longer" |} in
  variation <~ generatePatternVariation h (pattern p) ;;
  if Str.eqb variation (pattern p) then rnd_ret [extension]
  else
    rnd_ret
      [ extension;
        {| sug_type := variationS;
           sug_original := pattern p;
           sug_suggestion := variation;
           sug_confidence := (score p / 100)%float;
           sug_description :=
             lit "Try this variation: " ++ [quote] ++ variation ++ [quote] |} ].

Fixpoint suggestionsForAll (h : list Keystroke) (ps : list PatternObj)
  : Rnd (list Suggestion) :=
  match ps with
  | [] => rnd_ret []
  | p :: ps' =>
      first <~ suggestionsFor h p ;;
      others <~ suggestionsForAll h ps' ;;
      rnd_ret (first ++ others)
  end.

(** The rhythm objects of the registry, most frequent first. *)
Definition rhythmsByFrequency (e : Engine) : list RhythmObj :=
  jsSort (fun a b => (rhythm_frequency a <? rhythm_frequency b)%Z)
         (map snd (rhythmPatterns e)).

(** [getPatternSuggestions()]: what [recordKeystroke] returns. *)
Definition getPatternSuggestions (e : Engine) : Rnd (list Suggestion) :=
  let topPatterns :=
    map (deref (store e)) (firstn 3 (preferredPatterns (userStyle e))) in
  forPatterns <~ suggestionsForAll (keystrokeHistory e) topPatterns ;;
  forRhythm <~
    match rhythmsByFrequency e with
    | [] => rnd_ret []
    | topRhythm :: _ =>
        variation <~ generateRhythmVariation (rhythm_pattern topRhythm) ;;
        rnd_ret
          [ {| sug_type := rhythmS;
               sug_original := joinNotes (rhythm_pattern topRhythm);
               sug_suggestion := variation;
               sug_confidence := 0.8%float;
               sug_description := lit "Try varying your rhythm pattern" |} ]
    end ;;
  rnd_ret (firstn 5 (forPatterns ++ forRhythm)).

(** [Math.round(x)]: the integral Number closest to [x], the larger one
    in a tie; NaN, the infinities and integral values are returned as
    they are, and a result of zero keeps the sign of [x]. *)
Definition Math_round (x : float) : float :=
  match Prim2SF x with
  | S754_finite s m e =>
      if (0 <=? e)%Z then x
      else
        let sm := if s then Z.neg m else Z.pos m in
        let n := ((2 * sm + 2 ^ (- e)) / 2 ^ (1 - e))%Z in
        if (n =? 0)%Z then (if s then PrimFloat.opp 0 else 0)%float
        else Z2F n
  | _ => x
  end.

Record Stats := {
  totalKeystrokes : nat;
  patternsLearned : nat;
  currentTempo : float
}.

Record Analysis := {
  an_detectedPatterns : list loc;
  an_hierarchicalPatterns : list Hier;
  an_rhythmPatterns : list RhythmObj;
  an_userStyle : UserStyle;
  an_suggestions : list Suggestion;
  an_stats : Stats
}.

(** [getCurrentAnalysis()].  The detected patterns are the registry's
    objects themselves; they are given by location. *)
Definition getCurrentAnalysis (e : Engine) : Rnd Analysis :=
  suggestions <~ getPatternSuggestions e ;;
  rnd_ret
    {| an_detectedPatterns :=
         firstn 10
           (jsSort (fun a b => gtb (score (deref (store e) b)
                                    - score (deref (store e) a)) 0)
              (filter (fun l => gtb (score (deref (store e) l))
                                    patternScoreThreshold)
                 (map snd (detectedPatterns e))));
       an_hierarchicalPatterns :=
         firstn 5
           (jsSort (fun a b => gtb (nestingScore b - nestingScore a) 0)
              (map snd (hierarchicalPatterns e)));
       an_rhythmPatterns := firstn 5 (rhythmsByFrequency e);
       an_userStyle := userStyle e;
       an_suggestions := suggestions;
       an_stats :=
         {| totalKeystrokes := List.length (keystrokeHistory e);
            patternsLearned := List.length (detectedPatterns e);
            currentTempo := Math_round (averageTempo (userStyle e)) |} |}.

(** A suggestion about a pattern is made of lower-case characters. *)
Definition lowerCaseSuggestion (sg : Suggestion) : Prop :=
  match sug_type sg with
  | rhythmS => True
  | _ => Forall lowerCase (sug_original sg)
         /\ Forall lowerCase (sug_suggestion sg)
  end.
(* ================================================================== *)
(** * Facts about binary64 arithmetic *)

Module FloatFacts.

Lemma iter_pos_inv {A} (P : A -> Prop) (f : A -> A) :
  (forall x, P x -> P (f x)) -> forall p x, P x -> P (iter_pos f p x).
Proof.
  intros Hf. induction p; intros x Hx; simpl; auto.
Qed.

Lemma shr_1_nonneg mrs : (0 <= shr_m mrs -> 0 <= shr_m (shr_1 mrs))%Z.
Proof.
  destruct mrs as [m r s]. simpl.
  destruct m as [|p|p]; simpl; try lia.
  - destruct p; simpl; lia.
Qed.

Lemma shr_fexp_nonneg m e l :
  (0 <= m -> 0 <= shr_m (fst (shr_fexp prec emax m e l)))%Z.
Proof.
  intros Hm. unfold shr_fexp, shr.
  assert (H0 : (0 <= shr_m (shr_record_of_loc m l))%Z).
  { destruct l as [|[]]; simpl; assumption. }
  destruct (fexp prec emax (Zdigits2 m + e) - e)%Z; simpl; auto.
  apply iter_pos_inv; auto using shr_1_nonneg.
Qed.

Lemma round_nearest_even_nonneg m l : (0 <= m -> 0 <= round_nearest_even m l)%Z.
Proof.
  intros. destruct l as [|[]]; simpl; try lia.
  destruct (Z.even m); lia.
Qed.

(** The rounding step keeps the sign it is given; it yields no NaN from
    a mantissa that is not negative. *)
Lemma binary_round_aux_sign s m e l :
  match binary_round_aux prec emax s m e l with
  | S754_zero s' | S754_infinity s' | S754_finite s' _ _ => s' = s
  | S754_nan => True
  end.
Proof.
  unfold binary_round_aux.
  destruct (shr_fexp prec emax m e l) as [mrs' e'].
  destruct (shr_fexp prec emax _ e' loc_Exact) as [mrs'' e''].
  destruct (shr_m mrs''); auto.
  destruct (e'' <=? emax - prec)%Z; auto.
Qed.

Lemma binary_round_aux_nonnan s m e l :
  (0 <= m)%Z -> binary_round_aux prec emax s m e l <> S754_nan.
Proof.
  intros Hm. unfold binary_round_aux.
  pose proof (shr_fexp_nonneg m e l Hm) as H1.
  destruct (shr_fexp prec emax m e l) as [mrs' e']. simpl in H1.
  pose proof (shr_fexp_nonneg _ e' loc_Exact
                (round_nearest_even_nonneg _ (loc_of_shr_record mrs') H1)) as H2.
  destruct (shr_fexp prec emax _ e' loc_Exact) as [mrs'' e'']. simpl in H2.
  destruct (shr_m mrs''); try discriminate; try lia.
  destruct (e'' <=? emax - prec)%Z; discriminate.
Qed.

Lemma bra_nonneg m e l :
  (0 <= m)%Z -> sf_nonneg (binary_round_aux prec emax false m e l) = true.
Proof.
  intros Hm.
  pose proof (binary_round_aux_sign false m e l) as Hs.
  pose proof (binary_round_aux_nonnan false m e l Hm) as Hn.
  destruct (binary_round_aux prec emax false m e l); simpl; subst; auto;
    congruence.
Qed.

Lemma binary_round_nonneg m e :
  sf_nonneg (binary_round prec emax false m e) = true.
Proof.
  unfold binary_round.
  destruct (shl_align m e _) as [mz ez]. apply bra_nonneg. lia.
Qed.

(** ** Closure of the classes under the operations *)

Lemma SFadd_nonneg x y :
  sf_nonneg x = true -> sf_nonneg y = true ->
  sf_nonneg (SF64add x y) = true.
Proof.
  unfold SF64add, SFadd.
  destruct x as [sx|sx| |sx mx ex], y as [sy|sy| |sy my ey]; simpl;
    try discriminate; auto.
  - destruct sx, sy; simpl; auto.
  - destruct sx, sy; simpl; auto; discriminate.
  - destruct sx, sy; simpl; try discriminate. intros _ _.
    unfold binary_normalize.
    destruct (shl_align mx ex _) as [a ea], (shl_align my ey _) as [b eb].
    simpl. apply binary_round_nonneg.
Qed.

Lemma SFmul_nonneg_posfin x y :
  sf_nonneg x = true -> sf_posfin y = true ->
  sf_nonneg (SF64mul x y) = true.
Proof.
  unfold SF64mul, SFmul.
  destruct x as [sx|sx| |sx mx ex], y as [sy|sy| |sy my ey]; simpl;
    try discriminate; auto;
    try (destruct sx, sy; simpl; auto; discriminate).
  destruct sx, sy; simpl; try discriminate. intros _ _. apply bra_nonneg. lia.
Qed.

Lemma SFmul_posfin_nonneg x y :
  sf_posfin x = true -> sf_nonneg y = true ->
  sf_nonneg (SF64mul x y) = true.
Proof.
  unfold SF64mul, SFmul.
  destruct x as [sx|sx| |sx mx ex], y as [sy|sy| |sy my ey]; simpl;
    try discriminate; auto;
    try (destruct sx, sy; simpl; auto; discriminate).
  destruct sx, sy; simpl; try discriminate. intros _ _. apply bra_nonneg. lia.
Qed.

Lemma SFdiv_core_nonneg mx ex my ey :
  (0 <= fst (fst (SFdiv_core_binary prec emax (Zpos mx) ex (Zpos my) ey)))%Z.
Proof.
  unfold SFdiv_core_binary.
  set (s := (_ - _ - _)%Z).
  set (m' := match s with Z0 => _ | Zpos _ => _ | Zneg _ => _ end).
  assert (Hm' : (0 <= m')%Z).
  { unfold m'. destruct s; try lia. apply Z.shiftl_nonneg. lia. }
  pose proof (Z_div_mod m' (Zpos my) ltac:(lia)) as H.
  destruct (Z.div_eucl m' (Z.pos my)) as [q r]. simpl.
  destruct H as [H1 H2]. nia.
Qed.

Lemma SFdiv_nonneg_posfin x y :
  sf_nonneg x = true -> sf_posfin y = true ->
  sf_nonneg (SF64div x y) = true.
Proof.
  unfold SF64div, SFdiv.
  destruct x as [sx|sx| |sx mx ex], y as [sy|sy| |sy my ey]; simpl;
    try discriminate; auto;
    try (destruct sx, sy; simpl; auto; discriminate).
  destruct sx, sy; simpl; try discriminate. intros _ _.
  pose proof (SFdiv_core_nonneg mx ex my ey) as H.
  destruct (SFdiv_core_binary prec emax (Z.pos mx) ex (Z.pos my) ey)
    as [[mz ez] lz]. simpl in H. apply bra_nonneg. assumption.
Qed.

Lemma SFltb_nonneg a b :
  sf_nonneg a = true -> SFltb a b = true -> sf_nonneg b = true.
Proof.
  unfold SFltb, SFcompare.
  destruct a as [sa|sa| |sa ma ea], b as [sb|sb| |sb mb eb]; simpl;
    try discriminate; auto;
    destruct sa; simpl; try discriminate; destruct sb; simpl;
    try discriminate; auto.
Qed.

Lemma SFltb_neg_nonneg a b :
  sf_notneg a = false -> sf_nonneg b = true -> SFltb a b = true.
Proof.
  unfold SFltb, SFcompare.
  destruct a as [sa|sa| |sa ma ea], b as [sb|sb| |sb mb eb]; simpl;
    try discriminate; auto;
    destruct sa; simpl; try discriminate; destruct sb; simpl;
    try discriminate; auto.
Qed.

Lemma SFltb_leb a b : SFltb a b = true -> SFleb a b = true.
Proof.
  unfold SFltb, SFleb. destruct (SFcompare a b) as [[]|]; auto.
Qed.

(** ** The same facts on primitive floats *)

Lemma posfin_is_nonneg x : posfin x -> nonneg x.
Proof.
  unfold posfin, nonneg.
  destruct (Prim2SF x) as [| | |[]]; simpl; auto; discriminate.
Qed.

Lemma nonneg_iff x : nonneg x <-> (0 <=? x)%float = true.
Proof.
  unfold nonneg. rewrite FloatAxioms.leb_spec.
  change (Prim2SF 0) with (S754_zero false).
  unfold SFleb, SFcompare.
  destruct (Prim2SF x) as [s|s| |s m e]; simpl; try tauto;
    destruct s; simpl; split; auto; discriminate.
Qed.

Lemma nonneg_not_nan x : nonneg x -> PrimFloat.is_nan x = false.
Proof.
  unfold nonneg, Prim2SF.
  destruct (PrimFloat.is_nan x); simpl; auto.
Qed.

Lemma add_nonneg x y : nonneg x -> nonneg y -> nonneg (x + y).
Proof. unfold nonneg. rewrite FloatAxioms.add_spec. apply SFadd_nonneg. Qed.

Lemma mul_nonneg_posfin x y : nonneg x -> posfin y -> nonneg (x * y).
Proof. unfold nonneg, posfin. rewrite FloatAxioms.mul_spec. apply SFmul_nonneg_posfin. Qed.

Lemma mul_posfin_nonneg x y : posfin x -> nonneg y -> nonneg (x * y).
Proof. unfold nonneg, posfin. rewrite FloatAxioms.mul_spec. apply SFmul_posfin_nonneg. Qed.

Lemma div_nonneg_posfin x y : nonneg x -> posfin y -> nonneg (x / y).
Proof. unfold nonneg, posfin. rewrite FloatAxioms.div_spec. apply SFdiv_nonneg_posfin. Qed.

Lemma ltb_leb x y : (x <? y)%float = true -> (x <=? y)%float = true.
Proof. rewrite FloatAxioms.ltb_spec, FloatAxioms.leb_spec. apply SFltb_leb. Qed.

(** ** Integral Numbers *)

Lemma of_uint63_nonneg n : nonneg (PrimFloat.of_uint63 n).
Proof.
  unfold nonneg. rewrite FloatAxioms.of_uint63_spec.
  pose proof (Uint63.to_Z_bounded n) as Hb.
  unfold binary_normalize.
  destruct (Uint63.to_Z n); simpl; auto; try lia.
  apply binary_round_nonneg.
Qed.

Lemma Z2F_nonneg z : (0 <= z)%Z -> nonneg (Z2F z).
Proof.
  intros Hz. destruct z; simpl; try lia.
  - reflexivity.
  - apply of_uint63_nonneg.
Qed.

Lemma N2F_nonneg n : nonneg (N2F n).
Proof. apply Z2F_nonneg. lia. Qed.

Lemma digits2_pos_iter p k :
  digits2_pos (Pos.iter xO p k) = (digits2_pos p + k)%positive.
Proof.
  induction k using Pos.peano_ind.
  - simpl. lia.
  - rewrite Pos.iter_succ. simpl. rewrite IHk. lia.
Qed.

Lemma digits2_pos_bound p : forall n,
  (0 <= n -> Zpos p < 2 ^ n -> Zpos (digits2_pos p) <= n)%Z.
Proof.
  induction p as [q IH|q IH|]; intros n Hn Hp.
  - assert (n <> 0)%Z by (intros ->; simpl in Hp; lia).
    replace n with (Z.succ (n - 1)) in Hp by lia.
    rewrite Z.pow_succ_r in Hp by lia.
    specialize (IH (n - 1)%Z ltac:(lia) ltac:(lia)). simpl. lia.
  - assert (n <> 0)%Z by (intros ->; simpl in Hp; lia).
    replace n with (Z.succ (n - 1)) in Hp by lia.
    rewrite Z.pow_succ_r in Hp by lia.
    specialize (IH (n - 1)%Z ltac:(lia) ltac:(lia)). simpl. lia.
  - assert (n <> 0)%Z by (intros ->; simpl in Hp; lia). simpl. lia.
Qed.

(** A 53-digit mantissa with an exponent in range is already rounded. *)
Lemma binary_round_aux_exact s m e :
  Zpos (digits2_pos m) = 53%Z -> (-1074 <= e <= 971)%Z ->
  binary_round_aux prec emax s (Zpos m) e loc_Exact = S754_finite s m e.
Proof.
  intros Hd He.
  assert (Hf : (fexp prec emax (Zdigits2 (Zpos m) + e) - e = 0)%Z).
  { unfold fexp, SpecFloat.emin, prec, emax. simpl Zdigits2. lia. }
  assert (Hle : (e <=? emax - prec)%Z = true)
    by (apply Z.leb_le; unfold emax, prec; lia).
  unfold binary_round_aux, shr_fexp. rewrite Hf.
  cbn [shr shr_record_of_loc shr_m loc_of_shr_record round_nearest_even].
  rewrite Hf. cbn [shr shr_m]. rewrite Hle. reflexivity.
Qed.

(** An integer in (0, 2^53) converts to a positive finite value. *)
Lemma Z2F_posfin z : (0 < z < 2 ^ 53)%Z -> posfin (Z2F z).
Proof.
  intros [H0 H1]. destruct z as [|p|p]; try lia.
  unfold posfin, Z2F. rewrite FloatAxioms.of_uint63_spec, Uint63.of_Z_spec.
  rewrite Z.mod_small
    by (split; [lia|]; apply Z.lt_trans with (1 := H1); reflexivity).
  unfold binary_normalize, binary_round.
  pose proof (digits2_pos_bound p 53 ltac:(lia) H1) as Hd.
  assert (Hf : fexp prec emax (Zpos (digits2_pos p) + 0)
               = (Zpos (digits2_pos p) - 53)%Z).
  { unfold fexp, SpecFloat.emin, prec, emax. lia. }
  rewrite Hf. unfold shl_align.
  destruct (Zpos (digits2_pos p) - 53 - 0)%Z as [|k|k] eqn:Ek; try lia.
  - rewrite binary_round_aux_exact; auto; lia.
  - rewrite binary_round_aux_exact; auto.
    + rewrite digits2_pos_iter. lia.
    + lia.
Qed.

Lemma N2F_posfin n : (0 < n)%nat -> (Z.of_nat n < 2 ^ 53)%Z -> posfin (N2F n).
Proof. intros. apply Z2F_posfin. lia. Qed.

(** ** Magnitudes: no overflow *)

Section Magnitude.

Local Open Scope Z_scope.

Lemma digits2_pos_gt p : Zpos p < 2 ^ Zpos (digits2_pos p).
Proof.
  induction p as [q IH|q IH|]; cbn [digits2_pos];
    try (rewrite Pos2Z.inj_succ, Z.pow_succ_r by lia; lia).
  reflexivity.
Qed.

Lemma Zdigits2_nonneg m : 0 <= Zdigits2 m.
Proof. destruct m; simpl; lia. Qed.

Lemma Zdigits2_bound m n : 0 <= n -> 0 <= m < 2 ^ n -> Zdigits2 m <= n.
Proof.
  intros Hn [H0 H1]. destruct m as [|p|p]; simpl; try lia.
  apply digits2_pos_bound; assumption.
Qed.

Lemma Zdigits2_gt m : 0 <= m -> m < 2 ^ Zdigits2 m.
Proof.
  intros H. destruct m as [|p|p]; simpl; try lia. apply digits2_pos_gt.
Qed.

Lemma Zdigits2_le a b : 0 <= a <= b -> Zdigits2 a <= Zdigits2 b.
Proof.
  intros [Ha Hab]. apply Zdigits2_bound; [apply Zdigits2_nonneg|].
  split; [exact Ha|]. apply Z.le_lt_trans with (1 := Hab).
  apply Zdigits2_gt. lia.
Qed.

Lemma Zdigits2_pos m : 0 < m -> 1 <= Zdigits2 m.
Proof. destruct m; simpl; lia. Qed.

Lemma Zdigits2_succ m : 0 <= m -> Zdigits2 (m + 1) <= Zdigits2 m + 1.
Proof.
  intros H. apply Zdigits2_bound; [pose proof (Zdigits2_nonneg m); lia|].
  split; [lia|]. pose proof (Zdigits2_gt m H) as Hg.
  rewrite Z.pow_add_r by (pose proof (Zdigits2_nonneg m); lia).
  change (2 ^ 1) with 2. lia.
Qed.

Lemma Zdigits2_shiftl m s :
  0 <= m -> 0 <= s -> Zdigits2 (Z.shiftl m s) <= Zdigits2 m + s.
Proof.
  intros Hm Hs. pose proof (Zdigits2_nonneg m) as Hd.
  apply Zdigits2_bound; [lia|]. rewrite Z.shiftl_mul_pow2 by lia.
  pose proof (Zdigits2_gt m Hm) as Hg.
  rewrite Z.pow_add_r by lia.
  assert (0 < 2 ^ s) by (apply Z.pow_pos_nonneg; lia). nia.
Qed.

Lemma shr_1_shifted d k mrs : shifted d k mrs -> shifted d (k + 1) (shr_1 mrs).
Proof.
  intros [H0 Hd]. destruct mrs as [m r s]. cbn [shr_m] in *.
  unfold shifted, shr_1.
  destruct m as [|p|p]; try lia; cbn [shr_m].
  - simpl. lia.
  - destruct p as [q|q|]; cbn [shr_m]; simpl in *; lia.
Qed.

Lemma iter_pos_shifted d p : forall k mrs,
  shifted d k mrs -> shifted d (k + Zpos p) (iter_pos shr_1 p mrs).
Proof.
  induction p as [q IH|q IH|]; intros k mrs H; cbn [iter_pos].
  - apply shr_1_shifted in H. apply IH in H. apply IH in H.
    replace (k + Zpos q~1) with (k + 1 + Zpos q + Zpos q) by lia. exact H.
  - apply IH in H. apply IH in H.
    replace (k + Zpos q~0) with (k + Zpos q + Zpos q) by lia. exact H.
  - apply shr_1_shifted, H.
Qed.

(** After [shr_fexp] the mantissa has at most 53 digits, the exponent is
    the larger of the old one and the canonical one, and the magnitude has
    not grown. *)
Lemma shr_fexp_bounds m e l :
  0 <= m ->
  let r := shr_fexp prec emax m e l in
  0 <= shr_m (fst r)
  /\ Zdigits2 (shr_m (fst r)) <= 53
  /\ snd r = Z.max e (fexp prec emax (Zdigits2 m + e))
  /\ (0 < shr_m (fst r) -> Zdigits2 (shr_m (fst r)) + snd r <= Zdigits2 m + e).
Proof.
  intros Hm. unfold shr_fexp, shr.
  assert (H0 : shifted (Zdigits2 m) 0 (shr_record_of_loc m l)).
  { split; [destruct l as [|[]]; exact Hm|].
    rewrite Z.sub_0_r.
    replace (shr_m (shr_record_of_loc m l)) with m by (destruct l as [|[]]; reflexivity).
    pose proof (Zdigits2_nonneg m). lia. }
  assert (Hm0 : shr_m (shr_record_of_loc m l) = m)
    by (destruct l as [|[]]; reflexivity).
  pose proof (Zdigits2_nonneg m) as Hd.
  unfold fexp, SpecFloat.emin, prec, emax in *.
  destruct (Z.max (Zdigits2 m + e - 53) (3 - 1024 - 53) - e) as [|p|p] eqn:En;
    cbn [fst snd].
  - rewrite Hm0. repeat split; try lia.
  - apply (iter_pos_shifted _ p) in H0. destruct H0 as [H1 H2].
    repeat split; try lia.
    intros Hpos. assert (1 <= Zdigits2 (shr_m (iter_pos shr_1 p (shr_record_of_loc m l))))
      by (apply Zdigits2_pos, Hpos). lia.
  - rewrite Hm0. repeat split; try lia.
Qed.

Lemma round_nearest_even_bounds m l :
  0 <= m ->
  0 <= round_nearest_even m l
  /\ Zdigits2 (round_nearest_even m l) <= Zdigits2 m + 1
  /\ (round_nearest_even m l = 0 \/ 0 < round_nearest_even m l).
Proof.
  intros Hm. pose proof (Zdigits2_succ m Hm) as Hs.
  destruct l as [|[]]; cbn [round_nearest_even]; try (repeat split; lia).
  destruct (Z.even m); repeat split; lia.
Qed.

(** Rounding does not overflow from an exponent of at most 970 and a
    magnitude of at most 1000, and raises the magnitude by at most one. *)
Lemma binary_round_aux_mag s m e l D :
  0 <= m -> e <= 970 -> e <= D -> Zdigits2 m + e <= D -> -1074 <= D <= 1000 ->
  sf_mag (D + 1) (binary_round_aux prec emax s m e l).
Proof.
  intros Hm He HeD HD HDr. unfold binary_round_aux.
  pose proof (shr_fexp_bounds m e l Hm) as H1. cbv zeta in H1.
  destruct (shr_fexp prec emax m e l) as [mrs' e']. cbn [fst snd] in H1.
  destruct H1 as (H1a & H1b & H1c & H1d).
  pose proof (round_nearest_even_bounds (shr_m mrs') (loc_of_shr_record mrs') H1a)
    as (Hr0 & Hrd & _).
  set (mr := round_nearest_even (shr_m mrs') (loc_of_shr_record mrs')) in *.
  pose proof (shr_fexp_bounds mr e' loc_Exact Hr0) as H2. cbv zeta in H2.
  destruct (shr_fexp prec emax mr e' loc_Exact) as [mrs'' e'']. cbn [fst snd] in H2.
  destruct H2 as (H2a & H2b & H2c & H2d).
  pose proof (Zdigits2_nonneg m) as Hdm.
  pose proof (Zdigits2_nonneg (shr_m mrs')) as Hd1.
  pose proof (Zdigits2_nonneg mr) as Hdr.
  unfold fexp, SpecFloat.emin, prec, emax in *.
  destruct (shr_m mrs'') as [|p|p] eqn:Em; cbn [sf_mag]; try lia; auto.
  assert (Hpos : 0 < Z.pos p) by lia. specialize (H2d Hpos).
  cbn [Zdigits2] in H2d, H2b.
  assert (Hmr : 0 < mr).
  { destruct (Z.eq_dec mr 0) as [E0|]; [|lia].
    exfalso. rewrite E0 in H2d. cbn [Zdigits2] in H2d. lia. }
  assert (Hm1 : shr_m mrs' = 0 \/ 0 < shr_m mrs') by lia.
  assert (Hmag1 : Zdigits2 mr + e' <= D + 1).
  { destruct Hm1 as [E0|Hp1].
    - rewrite E0 in Hrd. cbn [Zdigits2] in Hrd. lia.
    - specialize (H1d Hp1). lia. }
  assert (He'' : e'' <= 971) by lia.
  destruct (Z.leb_spec e'' (1024 - 53)); cbn [sf_mag]; lia.
Qed.

Lemma shl_align_mag mx ex ex' :
  let r := shl_align mx ex ex' in
  snd r <= ex
  /\ Zpos (digits2_pos (fst r)) + snd r = Zpos (digits2_pos mx) + ex.
Proof.
  unfold shl_align. destruct (ex' - ex) as [|d|d] eqn:E; cbn [fst snd];
    try (split; lia).
  rewrite digits2_pos_iter. split; lia.
Qed.

Lemma binary_round_mag s m e D :
  e <= 970 -> Zpos (digits2_pos m) + e <= D -> -1074 <= D <= 1000 ->
  sf_mag (D + 1) (binary_round prec emax s m e).
Proof.
  intros He HD HDr. unfold binary_round.
  pose proof (shl_align_mag m e (fexp prec emax (Zpos (digits2_pos m) + e)))
    as Ha. cbv zeta in Ha.
  destruct (shl_align m e _) as [mz ez]. cbn [fst snd] in Ha.
  destruct Ha as [Ha1 Ha2].
  apply binary_round_aux_mag; cbn [Zdigits2]; lia.
Qed.

Lemma binary_normalize_mag m e sz D :
  e <= 970 -> Zdigits2 m + e <= D -> -1074 <= D <= 1000 ->
  sf_mag (D + 1) (binary_normalize prec emax m e sz).
Proof.
  intros He HD HDr. unfold binary_normalize.
  destruct m as [|p|p]; [exact Logic.I| |];
    apply binary_round_mag; cbn [Zdigits2] in HD; assumption.
Qed.

Lemma sf_mag_weaken D D' x : D <= D' -> sf_mag D x -> sf_mag D' x.
Proof. destruct x; cbn [sf_mag]; auto. lia. Qed.

Lemma sf_mag_opp D x : sf_mag D x -> sf_mag D (SFopp x).
Proof. destruct x; cbn [sf_mag SFopp]; auto. Qed.

Lemma of_uint63_mag n : sf_mag 64 (Prim2SF (PrimFloat.of_uint63 n)).
Proof.
  rewrite FloatAxioms.of_uint63_spec.
  pose proof (Uint63.to_Z_bounded n) as Hb.
  apply (binary_normalize_mag _ 0 false 63); try lia.
  rewrite Z.add_0_r. apply Zdigits2_bound; [lia|].
  split; [lia|]. apply Z.lt_le_trans with (1 := proj2 Hb). reflexivity.
Qed.

(** Every integral Number converts to a zero or finite value. *)
Lemma Z2F_mag z : sf_mag 64 (Prim2SF (Z2F z)).
Proof.
  destruct z as [|p|p]; cbn [Z2F].
  - exact Logic.I.
  - apply of_uint63_mag.
  - rewrite FloatAxioms.opp_spec. apply sf_mag_opp, of_uint63_mag.
Qed.

Lemma SFdiv_core_mag mx ex my ey :
  let r := SFdiv_core_binary prec emax (Zpos mx) ex (Zpos my) ey in
  0 <= fst (fst r)
  /\ snd (fst r) <= ex - ey
  /\ Zdigits2 (fst (fst r)) + snd (fst r) <= Zpos (digits2_pos mx) + ex - ey.
Proof.
  unfold SFdiv_core_binary.
  set (e' := Z.min _ (ex - ey)).
  assert (He' : e' <= ex - ey) by (unfold e'; lia).
  set (s := ex - ey - e').
  assert (Hs : 0 <= s) by (unfold s; lia).
  set (m' := match s with Z0 => _ | Zpos _ => _ | Zneg _ => _ end).
  assert (Hm' : 0 <= m' /\ Zdigits2 m' <= Zpos (digits2_pos mx) + s).
  { unfold m'. destruct s as [|p|p] eqn:Es; try lia.
    - cbn [Zdigits2]. lia.
    - split; [apply Z.shiftl_nonneg; lia|].
      apply (Zdigits2_shiftl (Zpos mx) (Zpos p)); lia. }
  destruct Hm' as [Hm0 Hmd].
  pose proof (Z_div_mod m' (Zpos my) ltac:(lia)) as H.
  destruct (Z.div_eucl m' (Z.pos my)) as [q r]. cbn [fst snd].
  destruct H as [H1 H2].
  assert (Hq : 0 <= q <= m') by nia.
  pose proof (Zdigits2_le q m' Hq). unfold s in *. repeat split; lia.
Qed.

(** Dividing a zero or finite value by a finite one does not overflow
    while the magnitudes allow it. *)
Lemma SFdiv_mag D x sy my ey :
  sf_mag D x -> -1074 <= D - ey <= 970 ->
  sf_mag (D - ey + 1) (SF64div x (S754_finite sy my ey)).
Proof.
  intros Hx HD. unfold SF64div, SFdiv.
  destruct x as [sx|sx| |sx mx ex]; cbn [sf_mag] in *; try contradiction;
    [exact Logic.I|].
  pose proof (SFdiv_core_mag mx ex my ey) as H. cbv zeta in H.
  destruct (SFdiv_core_binary prec emax (Z.pos mx) ex (Z.pos my) ey)
    as [[mz ez] lz]. cbn [fst snd] in H. destruct H as (H0 & H1 & H2).
  pose proof (Zdigits2_nonneg mz).
  apply binary_round_aux_mag; lia.
Qed.

Lemma Zdigits2_opp m : Zdigits2 (- m) = Zdigits2 m.
Proof. destruct m; reflexivity. Qed.

Lemma Zdigits2_abs_bound m n : 0 <= n -> Z.abs m < 2 ^ n -> Zdigits2 m <= n.
Proof.
  intros Hn H. destruct (Z.le_gt_cases 0 m).
  - apply Zdigits2_bound; lia.
  - rewrite <- Zdigits2_opp. apply Zdigits2_bound; lia.
Qed.

(** The sum or difference of two aligned mantissas has at most one digit
    more than the longer one. *)
Lemma Zdigits2_add_bound a b n :
  0 <= n -> Zdigits2 a <= n -> Zdigits2 b <= n -> Zdigits2 (a + b) <= n + 1.
Proof.
  intros Hn Ha Hb.
  assert (Habs : forall x, Zdigits2 x <= n -> Z.abs x < 2 ^ n).
  { intros x Hx. destruct (Z.le_gt_cases 0 x) as [H0|H0].
    - rewrite Z.abs_eq by lia.
      apply Z.lt_le_trans with (1 := Zdigits2_gt x H0).
      apply Z.pow_le_mono_r; [lia|exact Hx].
    - rewrite Z.abs_neq by lia. rewrite <- Zdigits2_opp in Hx.
      apply Z.lt_le_trans with (1 := Zdigits2_gt (- x) ltac:(lia)).
      apply Z.pow_le_mono_r; [lia|exact Hx]. }
  apply Zdigits2_abs_bound; [lia|].
  pose proof (Habs a Ha). pose proof (Habs b Hb).
  rewrite Z.pow_add_r by lia. change (2 ^ 1) with 2. lia.
Qed.

Lemma Zdigits2_cond_Zopp s m : Zdigits2 (cond_Zopp s m) = Zdigits2 m.
Proof. destruct s; cbn [cond_Zopp]; [apply Zdigits2_opp | reflexivity]. Qed.

(** Subtracting from a finite value does not overflow while the
    magnitudes allow it. *)
Lemma SFsub_mag D sc mc ec y :
  Zpos (digits2_pos mc) + ec <= D -> ec <= 970 -> sf_mag D y ->
  -1074 <= D <= 998 ->
  sf_mag (D + 2) (SF64sub (S754_finite sc mc ec) y).
Proof.
  intros Hc Hec Hy HD. unfold SF64sub, SFsub.
  destruct y as [sy|sy| |sy my ey]; cbn [sf_mag] in *; try contradiction;
    [lia|].
  pose proof (shl_align_mag mc ec (Z.min ec ey)) as Ha.
  pose proof (shl_align_mag my ey (Z.min ec ey)) as Hb. cbv zeta in Ha, Hb.
  assert (Hea : snd (shl_align mc ec (Z.min ec ey)) = Z.min ec ey).
  { unfold shl_align. destruct (Z.min ec ey - ec) eqn:E; cbn [snd]; lia. }
  assert (Heb : snd (shl_align my ey (Z.min ec ey)) = Z.min ec ey).
  { unfold shl_align. destruct (Z.min ec ey - ey) eqn:E; cbn [snd]; lia. }
  destruct Ha as [_ Ha]. destruct Hb as [_ Hb]. rewrite Hea in Ha. rewrite Heb in Hb.
  apply (sf_mag_weaken (D + 1 + 1)); [lia|].
  apply binary_normalize_mag; try lia.
  set (a := cond_Zopp sc (Z.pos (fst (shl_align mc ec (Z.min ec ey))))).
  set (b := cond_Zopp sy (Z.pos (fst (shl_align my ey (Z.min ec ey))))).
  replace (a - b) with (a + - b) by lia.
  assert (Hda : Zdigits2 a <= D - Z.min ec ey).
  { unfold a. rewrite Zdigits2_cond_Zopp. cbn [Zdigits2]. lia. }
  assert (Hdb : Zdigits2 (- b) <= D - Z.min ec ey).
  { unfold b. rewrite Zdigits2_opp, Zdigits2_cond_Zopp. cbn [Zdigits2]. lia. }
  pose proof (Zdigits2_add_bound a (- b) (D - Z.min ec ey)) as Hsum.
  assert (0 <= D - Z.min ec ey).
  { pose proof (Zdigits2_nonneg a). lia. }
  specialize (Hsum ltac:(lia) Hda Hdb). lia.
Qed.

(** ** Values that are zero or finite *)

Lemma finite_not_nan x : finite x -> PrimFloat.is_nan x = false.
Proof.
  intros [D H]. destruct (PrimFloat.is_nan x) eqn:E; [|reflexivity].
  unfold Prim2SF in H. rewrite E in H. contradiction.
Qed.

Lemma posfin_finite x : posfin x -> finite x.
Proof.
  unfold posfin. intros H.
  destruct (Prim2SF x) as [s|s| |s m e] eqn:E; try discriminate.
  exists (Zpos (digits2_pos m) + e). rewrite E. cbn [sf_mag]. lia.
Qed.

Lemma posfin_classify c x :
  posfin c -> match PrimFloat.classify c with NZero => x | _ => c end = c.
Proof.
  unfold posfin. rewrite FloatAxioms.classify_spec.
  destruct (Prim2SF c) as [s|s| |s m e]; try discriminate.
  destruct s; try discriminate. intros _.
  unfold SF64classify, SFclassify. destruct (_ =? _); reflexivity.
Qed.

Lemma SFltb_posfin c x D :
  sf_posfin c = true -> SFltb c x = true -> sf_mag D x -> sf_posfin x = true.
Proof.
  unfold SFltb, SFcompare.
  destruct c as [sc|sc| |sc mc ec], x as [sx|sx| |sx mx ex]; cbn [sf_posfin sf_mag];
    try discriminate; try contradiction; auto;
    destruct sc; try discriminate; destruct sx; try discriminate; auto.
Qed.

(** [Math.max(c, x)] of a positive finite [c] and a finite [x] is positive
    and finite. *)
Lemma Math_max_posfin c x : posfin c -> finite x -> posfin (Math_max c x).
Proof.
  intros Hc Hx. unfold Math_max.
  rewrite (finite_not_nan x Hx), (finite_not_nan c (posfin_finite c Hc)).
  cbn [orb].
  destruct (c <? x)%float eqn:E1.
  - rewrite FloatAxioms.ltb_spec in E1. destruct Hx as [D Hx].
    apply (SFltb_posfin _ _ D Hc E1 Hx).
  - destruct (x <? c)%float; [exact Hc|].
    rewrite posfin_classify by exact Hc. exact Hc.
Qed.

(** [Math.max(c, x)] of a [c] that is not negative and an [x] that is not
    NaN is zero, positive or +Infinity. *)
Lemma Math_max_nonneg c x :
  nonneg c -> PrimFloat.is_nan x = false -> nonneg (Math_max c x).
Proof.
  intros Hc Hx. unfold Math_max.
  rewrite Hx, (nonneg_not_nan c Hc). cbn [orb].
  destruct (c <? x)%float eqn:E1.
  - rewrite FloatAxioms.ltb_spec in E1. apply (SFltb_nonneg _ _ Hc E1).
  - destruct (x <? c)%float eqn:E2; [exact Hc|].
    destruct (PrimFloat.classify c); try exact Hc.
    unfold nonneg.
    destruct (sf_notneg (Prim2SF x)) eqn:E.
    + unfold Prim2SF in *. rewrite Hx in *.
      destruct (PrimFloat.is_zero x); [reflexivity|].
      destruct (PrimFloat.is_infinity x); [exact E|].
      destruct (Z.frexp x) as [r ex].
      destruct (shr_fexp _ _ _ _ _) as [sh e'].
      destruct (shr_m sh); try reflexivity; exact E.
    + rewrite FloatAxioms.ltb_spec in E2.
      rewrite (SFltb_neg_nonneg _ _ E Hc) in E2. discriminate.
Qed.

Lemma Math_min_nonneg x y : nonneg x -> nonneg y -> nonneg (Math_min x y).
Proof.
  intros Hx Hy. unfold Math_min.
  rewrite (nonneg_not_nan x Hx), (nonneg_not_nan y Hy). cbn [orb].
  destruct (x <? y)%float; [exact Hx|].
  destruct (y <? x)%float; [exact Hy|].
  destruct (PrimFloat.classify x); assumption.
Qed.

(** The product of two values that are zero or positive and finite is not
    negative (and not NaN). *)
Lemma mul_nonneg_finite x y :
  nonneg x -> nonneg y -> finite x -> finite y -> nonneg (x * y).
Proof.
  unfold nonneg. intros Hx Hy [Dx Fx] [Dy Fy]. rewrite FloatAxioms.mul_spec.
  unfold SF64mul, SFmul.
  destruct (Prim2SF x) as [sx|sx| |sx mx ex], (Prim2SF y) as [sy|sy| |sy my ey];
    cbn [sf_mag sf_nonneg] in *; try contradiction; try reflexivity.
  destruct sx, sy; try discriminate. apply bra_nonneg. lia.
Qed.

Lemma Z2F_finite z : finite (Z2F z).
Proof. exists 64. apply Z2F_mag. Qed.

Lemma N2F_finite n : finite (N2F n).
Proof. apply Z2F_finite. Qed.

(** [c - z / d] is zero or finite, for constants [c] and [d] of moderate
    size and every integral [z]. *)
Lemma const_minus_quotient_finite (c d : float) (z : Z) sc mc ec sd md ed :
  Prim2SF c = S754_finite sc mc ec -> Prim2SF d = S754_finite sd md ed ->
  Zpos (digits2_pos mc) + ec <= 65 - ed -> ec <= 970 ->
  -1074 <= 64 - ed <= 900 ->
  finite (c - Z2F z / d).
Proof.
  intros Hc Hd Hmc Hec Hed. exists (64 - ed + 1 + 2). unfold finite.
  rewrite FloatAxioms.sub_spec, FloatAxioms.div_spec, Hc, Hd.
  apply SFsub_mag; try lia.
  apply SFdiv_mag; [apply Z2F_mag | lia].
Qed.

(** The decay factor is positive and finite, whatever the clock reads. *)
Lemma decayFactor_posfin (timeSinceLastSeen : Z) :
  posfin (Math_max 0.1 (1 - Z2F timeSinceLastSeen / 60000)).
Proof.
  apply Math_max_posfin; [reflexivity|].
  eapply const_minus_quotient_finite; try reflexivity; cbn; lia.
Qed.

(** The recency bonus is never negative and never NaN. *)
Lemma recencyBonus_nonneg (age : Z) :
  nonneg (Math_max 0 (5 - Z2F age / 1000)).
Proof.
  apply Math_max_nonneg; [reflexivity|]. apply finite_not_nan.
  eapply const_minus_quotient_finite; try reflexivity; cbn; lia.
Qed.

End Magnitude.

End FloatFacts.
Import FloatFacts.

(* ================================================================== *)
(** * Strings *)

Lemma Str_eqb_eq (a b : jsstring) : Str.eqb a b = true <-> a = b.
Proof.
  revert b. induction a as [|x a IH]; destruct b as [|y b]; simpl;
    try (split; [discriminate | discriminate]); try tauto.
  rewrite andb_true_iff, Ascii.eqb_eq, IH.
  split; [intros [-> ->]; reflexivity | intros H; inversion H; auto].
Qed.

Lemma substring_from_0 (s : jsstring) (n : nat) : substring s 0 n = firstn n s.
Proof. unfold substring. rewrite Nat.sub_0_r. reflexivity. Qed.

(* ================================================================== *)
(** * The quality score *)

Section Quality.

Local Open Scope float_scope.

Lemma qualityDiversity_nonneg (pattern : jsstring) :
  (0 < List.length pattern)%nat ->
  (Z.of_nat (List.length pattern) < 2 ^ 53)%Z ->
  nonneg (qualityDiversity pattern).
Proof.
  intros Hlen Hbound. unfold qualityDiversity.
  apply mul_posfin_nonneg; [reflexivity|].
  apply add_nonneg; [apply posfin_is_nonneg; reflexivity|].
  apply div_nonneg_posfin; [apply N2F_nonneg | apply N2F_posfin; assumption].
Qed.

Lemma qualityLength_nonneg (pattern : jsstring) (q : float) :
  nonneg q -> nonneg (qualityLength pattern q).
Proof.
  intros Hq. unfold qualityLength.
  destruct (_ && _); [apply mul_nonneg_posfin; [assumption|reflexivity]|].
  destruct (_ <? _)%nat; [apply mul_nonneg_posfin; [assumption|reflexivity]|].
  assumption.
Qed.

Lemma qualityCoherence_nonneg (pattern : jsstring) (q : float) :
  nonneg q -> nonneg (qualityCoherence pattern q).
Proof.
  intros Hq. unfold qualityCoherence.
  destruct (hasMusicalCoherence pattern); auto.
  apply mul_nonneg_posfin; [assumption|reflexivity].
Qed.

Lemma qualityBeforeRepetition_nonneg (pattern : jsstring) :
  (0 < List.length pattern)%nat ->
  (Z.of_nat (List.length pattern) < 2 ^ 53)%Z ->
  nonneg (qualityBeforeRepetition pattern).
Proof.
  intros. unfold qualityBeforeRepetition.
  apply qualityCoherence_nonneg, qualityLength_nonneg,
    qualityDiversity_nonneg; assumption.
Qed.

(** The clamp does its work on every value that is not NaN. *)
Lemma qualityClamp_range (q : float) :
  PrimFloat.is_nan q = false ->
  (0.1 <=? qualityClamp q) = true /\ (qualityClamp q <=? 2.0) = true.
Proof.
  intros Hq. unfold qualityClamp.
  assert (Hm : PrimFloat.is_nan (Math_min 2.0 q) = false
               /\ (Math_min 2.0 q <=? 2.0) = true).
  { unfold Math_min. rewrite Hq.
    change (PrimFloat.is_nan 2.0 || false) with false. cbv iota.
    destruct (2.0 <? q) eqn:E1; [split; reflexivity|].
    destruct (q <? 2.0) eqn:E2; [split; [assumption | apply ltb_leb, E2]|].
    split; reflexivity. }
  destruct Hm as [Hn Hle]. set (m := Math_min 2.0 q) in *.
  unfold Math_max. rewrite Hn.
  change (PrimFloat.is_nan 0.1 || false) with false. cbv iota.
  destruct (0.1 <? m) eqn:E1; [split; [apply ltb_leb, E1 | assumption]|].
  destruct (m <? 0.1) eqn:E2; split; reflexivity.
Qed.

End Quality.

(** C6 (as amended).  For every non-empty sequence (of a length a
    JavaScript string can have), the quality score lies within
    [0.1, 2.0]. *)
Theorem quality_within_bounds (pattern : jsstring) :
  (0 < List.length pattern)%nat ->
  (Z.of_nat (List.length pattern) < 2 ^ 53)%Z ->
  (0.1 <=? calculatePatternQuality pattern)%float = true
  /\ (calculatePatternQuality pattern <=? 2.0)%float = true.
Proof.
  intros Hlen Hbound. unfold calculatePatternQuality.
  apply qualityClamp_range, nonneg_not_nan.
  pose proof (qualityBeforeRepetition_nonneg pattern Hlen Hbound) as Hq.
  destruct (hasExcessiveInternalRepetition pattern); auto.
  apply mul_nonneg_posfin; [assumption|reflexivity].
Qed.

Lemma quality_within_bounds_witness :
  (0 < List.length (lit "na"))%nat
  /\ (Z.of_nat (List.length (lit "na")) < 2 ^ 53)%Z
  /\ (0.1 <=? calculatePatternQuality (lit "na"))%float = true
  /\ (calculatePatternQuality (lit "na") <=? 2.0)%float = true.
Proof.
  split; [simpl; lia|]. split; [reflexivity|].
  apply (quality_within_bounds (lit "na")); [simpl; lia | reflexivity].
Defined.

(** C6, as stated, fails on the empty sequence: the diversity ratio is
    0/0, and the clamp passes NaN through, which is neither at least 0.1
    nor at most 2.0. *)
Lemma quality_of_empty_sequence_is_nan :
  calculatePatternQuality [] = nan
  /\ (0.1 <=? calculatePatternQuality [])%float = false
  /\ (calculatePatternQuality [] <=? 2.0)%float = false.
Proof. repeat (apply conj); vm_compute; reflexivity. Qed.

(* ================================================================== *)
(** * The internal-repetition penalty *)

(** C7 (as amended).  A sequence of 4 characters or less never receives
    the penalty: the test answers false on it and the quality is the
    clamped running score, unchanged.  For every sequence longer than 4
    characters that, for some sub-length from 2 up to half its length,
    equals its leading sub-unit of that length repeated to fill, with
    remainder, the quality computation multiplies the running score by 0.6
    before clamping. *)
Theorem repetition_penalty_applies (pattern : jsstring) :
  ((List.length pattern <= 4)%nat ->
   hasExcessiveInternalRepetition pattern = false
   /\ calculatePatternQuality pattern
      = qualityClamp (qualityBeforeRepetition pattern))
  /\ (forall subLen : nat,
      (4 < List.length pattern)%nat ->
      (2 <= subLen)%nat -> (2 * subLen <= List.length pattern)%nat ->
      pattern = repeat_str (firstn subLen pattern)
                  (List.length pattern / subLen)
                ++ firstn (List.length pattern mod subLen) pattern ->
      hasExcessiveInternalRepetition pattern = true
      /\ calculatePatternQuality pattern
         = qualityClamp (qualityBeforeRepetition pattern * 0.6)%float).
Proof.
  split.
  - intros Hshort.
    assert (Hex : hasExcessiveInternalRepetition pattern = false).
    { unfold hasExcessiveInternalRepetition.
      destruct (Nat.leb_spec (List.length pattern) 4) as [_|Hlt];
        [reflexivity | lia]. }
    split; [exact Hex|].
    unfold calculatePatternQuality. rewrite Hex. reflexivity.
  - intros subLen Hlen H2 Hhalf Hrep.
    assert (Hex : hasExcessiveInternalRepetition pattern = true).
    { unfold hasExcessiveInternalRepetition.
      destruct (Nat.leb_spec (List.length pattern) 4) as [Hle|_]; [lia|].
      apply existsb_exists. exists subLen. split.
      - apply in_seq.
        assert (subLen <= List.length pattern / 2)%nat
          by (apply Nat.div_le_lower_bound; lia).
        lia.
      - unfold isUnitRepeated. rewrite !substring_from_0.
        apply Str_eqb_eq. exact Hrep. }
    split; [exact Hex|].
    unfold calculatePatternQuality. rewrite Hex. reflexivity.
Qed.

Lemma repetition_penalty_applies_witness :
  (hasExcessiveInternalRepetition (lit "nana") = false
   /\ calculatePatternQuality (lit "nana")
      = qualityClamp (qualityBeforeRepetition (lit "nana")))
  /\ (hasExcessiveInternalRepetition (lit "abcabc") = true
      /\ calculatePatternQuality (lit "abcabc")
         = qualityClamp (qualityBeforeRepetition (lit "abcabc") * 0.6)%float).
Proof.
  split.
  - apply (proj1 (repetition_penalty_applies (lit "nana"))). simpl; lia.
  - apply (proj2 (repetition_penalty_applies (lit "abcabc")) 3);
      [simpl; lia | lia | simpl; lia | reflexivity].
Defined.

(** C7, as stated, fails on sequences of length 4 or less: "abab" is the
    unit "ab" repeated twice, the test is never run on it, and its quality
    is the running score without the factor 0.6. *)
Lemma repetition_penalty_skips_abab :
  lit "abab" = repeat_str (firstn 2 (lit "abab")) (4 / 2)
               ++ firstn (4 mod 2) (lit "abab")
  /\ hasExcessiveInternalRepetition (lit "abab") = false
  /\ calculatePatternQuality (lit "abab")
     = qualityClamp (qualityBeforeRepetition (lit "abab"))
  /\ (calculatePatternQuality (lit "abab")
      =? qualityClamp (qualityBeforeRepetition (lit "abab") * 0.6))%float
     = false.
Proof. repeat (apply conj); vm_compute; reflexivity. Qed.

(* ================================================================== *)
(** * The interval classifier *)

(** C8.  For every tempo and every gap greater than twice the
    quarter-note duration at that tempo, the classification is "rest",
    whatever the closest ratio is. *)
Theorem long_gap_is_rest (tempo gap : float) :
  gtb gap (quarterNoteMs tempo * 2)%float = true ->
  classifyInterval tempo gap = Rest.
Proof.
  intros H. unfold classifyInterval. rewrite H. reflexivity.
Qed.

(** At 120 BPM a gap of 2000 ms is four quarter notes: the closest ratio
    is that of "whole", and the classification is "rest". *)
Lemma long_gap_is_rest_witness :
  gtb 2000 (quarterNoteMs 120 * 2)%float = true
  /\ closestNote (quarterNoteMs 120) 2000 = Whole
  /\ classifyInterval 120 2000 = Rest.
Proof.
  split; [reflexivity|]. split; [reflexivity|].
  apply (long_gap_is_rest 120 2000). reflexivity.
Defined.

(* ================================================================== *)
(** * Running effectful code *)

Lemma exec_bind {A B} (m : Eff A) (k : A -> Eff B) (w : World) :
  exec (bind m k) w = exec (k (fst (m w))) (snd (m w)).
Proof. unfold exec, bind. destruct (m w). reflexivity. Qed.

Lemma engine_after_now (w : World) : engine (snd (Date_now w)) = engine w.
Proof. unfold Date_now. destruct (tick (clock w)). reflexivity. Qed.

Lemma value_of_now (w : World) : fst (Date_now w) = fst (tick (clock w)).
Proof. unfold Date_now. destruct (tick (clock w)). reflexivity. Qed.

(** A loop whose body leaves a component of the engine alone leaves it
    alone. *)
Lemma forEach_unchanged {A B} (f : Engine -> B) (body : A -> Eff unit) :
  (forall x w, f (engine (exec (body x) w)) = f (engine w)) ->
  forall l w, f (engine (exec (forEach l body) w)) = f (engine w).
Proof.
  intros Hbody. induction l as [|x l IH]; intros w; simpl.
  - reflexivity.
  - rewrite exec_bind, IH. apply Hbody.
Qed.

(* ================================================================== *)
(** * Registry clean-up *)

Lemma decayStep_keeps_registry (kl : jsstring * loc) (w : World) :
  detectedPatterns (engine (exec (decayStep kl) w))
  = detectedPatterns (engine w).
Proof.
  unfold decayStep. rewrite !exec_bind. unfold exec, assign, modify, readObj, read.
  simpl. rewrite engine_after_now. reflexivity.
Qed.

Lemma learnStep_keeps_registry (l : loc) (w : World) :
  detectedPatterns (engine (exec (learnStep l) w))
  = detectedPatterns (engine w).
Proof.
  unfold learnStep. rewrite !exec_bind. unfold readObj, read. simpl.
  destruct (_ && _).
  - rewrite exec_bind. unfold exec, modify. simpl.
    rewrite engine_after_now. reflexivity.
  - reflexivity.
Qed.

(** What [scoreAndRankPatterns] leaves in the registry: the entries its
    first loop does not delete. *)
Lemma scoreAndRankPatterns_registry (w : World) :
  detectedPatterns (engine (exec scoreAndRankPatterns w))
  = filter (fun kl =>
              negb (isStale (fst (tick (clock w)) - 30000)
                      (deref (store (engine w)) (snd kl))))
           (detectedPatterns (engine w)).
Proof.
  unfold scoreAndRankPatterns. rewrite !exec_bind.
  rewrite (forEach_unchanged detectedPatterns _ learnStep_keeps_registry).
  unfold read at 1. simpl fst. simpl snd.
  pose proof (forEach_unchanged detectedPatterns _ decayStep_keeps_registry)
    as Hdecay.
  unfold exec in Hdecay. rewrite Hdecay. simpl.
  rewrite engine_after_now, value_of_now. reflexivity.
Qed.

Lemma isStale_spec (now : Z) (p : PatternObj) :
  isStale (now - 30000) p = true
  <-> (now - lastSeen p > 30000)%Z /\ (frequency p < 3)%Z.
Proof.
  unfold isStale. rewrite andb_true_iff, !Z.ltb_lt. lia.
Qed.

(** C3 (as amended).  The clean-up of an analysis pass removes a registry
    entry if and only if, at the clock reading of the clean-up, the entry
    was last seen more than 30 seconds ago and its frequency is below 3:
    an entry is in the registry afterwards exactly when it was there
    before and that condition fails. *)
Theorem cleanup_removes_exactly_stale (w : World) (key : jsstring) (l : loc) :
  let now := fst (tick (clock w)) in
  let p := deref (store (engine w)) l in
  In (key, l) (detectedPatterns (engine (exec scoreAndRankPatterns w)))
  <-> In (key, l) (detectedPatterns (engine w))
      /\ ~ ((now - lastSeen p > 30000)%Z /\ (frequency p < 3)%Z).
Proof.
  intros now p. rewrite scoreAndRankPatterns_registry, filter_In.
  simpl snd. fold now. fold p.
  rewrite negb_true_iff, <- not_true_iff_false, isStale_spec. reflexivity.
Qed.

(** C3, as stated, fails at an age of exactly 30 seconds.  The sixteen
    letters a..p typed twice register one pattern, last seen at 7200 with
    frequency 2; the next key, z, arrives when the clock reads 37200.  The
    entry is 30 seconds old, its frequency is below 3, and the pass keeps
    it; one millisecond later it would be removed. *)
Lemma entry_aged_exactly_30s_is_kept :
  let keys := typed "abcdefghijklmnopabcdefghijklmnop" 1000 200 in
  map (fun kp => (lastSeen (snd kp), frequency (snd kp)))
      (registryView (run keys)) = [(7200, 2)]%Z
  /\ map (fun kp => (lastSeen (snd kp), frequency (snd kp)))
       (registryView (run (keys ++ typed "z" 37200 0))) = [(7200, 2)]%Z
  /\ registryView (run (keys ++ typed "z" 37201 0)) = [].
Proof. cbv zeta. repeat (apply conj); vm_compute; reflexivity. Qed.

(* ================================================================== *)
(** * Updating a detected pattern *)

(** C1: the code measures the recency bonus against the last-seen time it
    has just assigned, not against the previous one.  After "nana" typed
    from 1000 ms on, the entry "na" was last seen at 1600.  The next key
    arrives at 100000, over 98 seconds later; the freshness penalty is
    1.0 and the decay factor is 1.  The formula with the previous
    last-seen time gives 2*2 + 0.5 + 1 + 0 = 5.5; the registry holds
    10.5, the full recency bonus of 5 included. *)
Lemma recency_bonus_uses_new_lastSeen :
  let before := run (typed "nana" 1000 200) in
  let after := run (typed "nana" 1000 200 ++ typed "n" 100000 0) in
  option_map lastSeen (entryOf before (lit "na")) = Some 1600%Z
  /\ option_map score (entryOf after (lit "na")) = Some 10.5%float
  /\ option_map lastSeen (entryOf after (lit "na")) = Some 100000%Z
  /\ claimedScore 2 2 2 100000 1600 = 5.5%float
  /\ fst (calculateFreshnessPenalty 0
            {| clock := {| pending := []; lastReading := 100000 |};
               engine := after |}) = 1.0%float.
Proof. cbv zeta. repeat (apply conj); vm_compute; reflexivity. Qed.

(** C2: a candidate whose score after the penalty is at most 1.0 still
    changes the entry already registered under its key.  The state is the
    one after "nana" typed from 1000 ms on, with the fifth key, "n",
    pushed at 1800; the candidate is "na" at offset 0 of "nanan".  The
    clock reads 1800 when [lastSeen] is assigned and 2400 from then on.
    The score after the penalty is 0.99; the entry's frequency, last-seen
    time and score have changed all the same. *)
Lemma rejected_candidate_changes_entry :
  let e4 := run (typed "nana" 1000 200) in
  let key5 := {| char := "n"; timestamp := 1800; timeSinceLastKey := 200 |} in
  let e := with_keystrokeHistory (fun h => h ++ [key5]) e4 in
  let w := {| clock := {| pending := [1800; 2400; 2400]%Z;
                          lastReading := 1800 |};
              engine := e |} in
  let e' := engine (exec (considerCandidate (lit "nanan") 2
                            (keystrokeHistory e) 0) w) in
  detectedPatterns e' = detectedPatterns e
  /\ option_map (fun p => (frequency p, lastSeen p, score p))
       (entryOf e (lit "na")) = Some (2%Z, 1600%Z, 3.15%float)
  /\ option_map (fun p => (frequency p, lastSeen p, score p))
       (entryOf e' (lit "na")) = Some (4%Z, 1800%Z, 0.9900000000000001%float)
  /\ option_map (fun p => gtb (score p) 1.0) (entryOf e' (lit "na"))
     = Some false.
Proof. cbv zeta. repeat (apply conj); vm_compute; reflexivity. Qed.

(** The same in a whole pass: the key event "n" at 1800, with the clock
    moving to 2400 after the first reading the analysis takes, leaves the
    entry "na" with frequency 4 and last-seen time 1800. *)
Lemma pass_changes_entry_of_rejected_candidate :
  let e4 := run (typed "nana" 1000 200) in
  let ev := {| ev_char := "n"; ev_time := 1800;
               ev_readings := [1800; 2400; 2400]%Z |} in
  option_map (fun p => (frequency p, lastSeen p))
    (entryOf (step e4 ev) (lit "na")) = Some (4%Z, 1800%Z).
Proof. vm_compute. reflexivity. Qed.

(* ================================================================== *)
(** * The rhythm tracker on evenly spaced keystrokes *)

Lemma updateTempoEstimation_keeps_rhythms (intervals : list Z) (w : World) :
  rhythmPatterns (engine (exec (updateTempoEstimation intervals) w))
  = rhythmPatterns (engine w).
Proof. reflexivity. Qed.

(** What one pass of [analyzeRhythm] does to the rhythm registry, when the
    history has at least four keystrokes and the window is not spam. *)
Lemma analyzeRhythm_registry (w : World) :
  let h := keystrokeHistory (engine w) in
  let intervals := intervalsOf (lastN 16 h) in
  let key := map (fun interval =>
                    classifyInterval (averageTempo (userStyle (engine w)))
                      (Z2F interval)) intervals in
  let existingRhythm :=
    match JsMap.get rhythmKey_eqb (rhythmPatterns (engine w)) key with
    | Some r => r
    | None => {| rhythm_pattern := key; rhythm_frequency := 0;
                 averageInterval := 0; rhythm_lastSeen := 0 |}
    end in
  (List.length h <? 4)%nat = false ->
  isRhythmSpam (lastN 16 h) = false ->
  rhythmPatterns (engine (exec analyzeRhythm w))
  = JsMap.set rhythmKey_eqb (rhythmPatterns (engine w)) key
      {| rhythm_pattern := rhythm_pattern existingRhythm;
         rhythm_frequency := (rhythm_frequency existingRhythm + 1)%Z;
         averageInterval := meanInterval intervals;
         rhythm_lastSeen := fst (tick (clock w)) |}.
Proof.
  intros h intervals key existingRhythm Hlen Hspam.
  unfold analyzeRhythm. rewrite exec_bind.
  change (fst (read keystrokeHistory w)) with h.
  change (snd (read keystrokeHistory w)) with w.
  rewrite Hlen, Hspam. fold intervals.
  rewrite !exec_bind. unfold read. cbn [fst snd].
  rewrite updateTempoEstimation_keeps_rhythms.
  unfold exec, modify. cbn [fst snd engine].
  rewrite engine_after_now, value_of_now. reflexivity.
Qed.

Lemma uniformFrom_length (cs : list ascii) : forall time gap sinceLast,
  List.length (uniformFrom cs time gap sinceLast) = List.length cs.
Proof. induction cs; intros; simpl; auto. Qed.

Lemma uniformFrom_skipn (n : nat) : forall cs time gap sinceLast,
  (0 < n)%nat ->
  skipn n (uniformFrom cs time gap sinceLast)
  = uniformFrom (skipn n cs) (time + gap * Z.of_nat n) gap gap.
Proof.
  induction n as [|n IH]; intros cs time gap sinceLast Hn; [lia|].
  destruct cs as [|c cs]; [reflexivity|].
  cbn [uniformFrom skipn].
  destruct n as [|n'].
  - cbn [skipn]. f_equal. lia.
  - rewrite IH by lia. f_equal. lia.
Qed.

Lemma intervalsOf_cons (a b : Keystroke) (rest : list Keystroke) :
  intervalsOf (a :: b :: rest)
  = (timestamp b - timestamp a)%Z :: intervalsOf (b :: rest).
Proof. reflexivity. Qed.

Lemma uniformFrom_intervals (cs : list ascii) : forall time gap sinceLast,
  intervalsOf (uniformFrom cs time gap sinceLast)
  = repeat gap (List.length cs - 1).
Proof.
  induction cs as [|c cs IH]; intros time gap sinceLast; [reflexivity|].
  destruct cs as [|c' cs']; [reflexivity|].
  specialize (IH (time + gap)%Z gap gap).
  cbn [uniformFrom] in *. rewrite intervalsOf_cons, IH.
  cbn [List.length Nat.sub timestamp]. rewrite Nat.sub_0_r.
  cbn [repeat]. f_equal. lia.
Qed.

(** Sixteen keystrokes 500 ms apart are not rhythm spam, whatever the
    characters. *)
Lemma evenly_spaced_is_not_spam (ks : list Keystroke) :
  List.length ks = 16%nat -> intervalsOf ks = repeat 500%Z 15 ->
  isRhythmSpam ks = false.
Proof.
  intros Hlen Hint. unfold isRhythmSpam. rewrite Hlen, Hint.
  change (16 <? 4)%nat with false. cbv iota.
  change (meanInterval (repeat 500%Z 15) <? 50)%float with false.
  rewrite andb_false_r. reflexivity.
Qed.

(** C4 (as amended).  With 20 keystrokes 500 ms apart in the history, the
    initial tempo of 120 BPM and an empty rhythm registry, one pass of the
    rhythm analysis classifies every interval of its window, the last 16
    keystrokes, as "quarter": the registry then holds one signature, 15
    "quarter" categories, with frequency 1. *)
Theorem uniform_500ms_is_fifteen_quarters
  (cs : list ascii) (start : Z) (clk : Clock) :
  List.length cs = 20%nat ->
  rhythmPatterns
    (engine (exec analyzeRhythm
               {| clock := clk;
                  engine := engineWithHistory
                              (uniformKeystrokes cs start 500) |}))
  = [ (repeat Quarter 15,
       {| rhythm_pattern := repeat Quarter 15;
          rhythm_frequency := 1;
          averageInterval := 500;
          rhythm_lastSeen := fst (tick clk) |}) ].
Proof.
  intros Hlen.
  set (h := uniformKeystrokes cs start 500).
  assert (Hh : List.length h = 20%nat)
    by (unfold h, uniformKeystrokes; rewrite uniformFrom_length; exact Hlen).
  assert (Hwin : lastN 16 h
                 = uniformFrom (skipn 4 cs) (start + 500 * 4) 500 500).
  { unfold lastN. rewrite Hh. change (20 - 16)%nat with 4%nat.
    unfold h, uniformKeystrokes. rewrite uniformFrom_skipn by lia.
    reflexivity. }
  assert (Hwlen : List.length (lastN 16 h) = 16%nat).
  { rewrite Hwin, uniformFrom_length, length_skipn, Hlen. reflexivity. }
  assert (Hint : intervalsOf (lastN 16 h) = repeat 500%Z 15).
  { rewrite Hwin, uniformFrom_intervals, length_skipn, Hlen. reflexivity. }
  rewrite analyzeRhythm_registry.
  - cbn [engine engineWithHistory with_keystrokeHistory keystrokeHistory
           initialEngine rhythmPatterns userStyle averageTempo clock].
    fold h. rewrite Hint. reflexivity.
  - cbn [engine engineWithHistory with_keystrokeHistory keystrokeHistory].
    fold h. rewrite Hh. reflexivity.
  - cbn [engine engineWithHistory with_keystrokeHistory keystrokeHistory].
    fold h. apply evenly_spaced_is_not_spam; assumption.
Qed.

Lemma uniform_500ms_is_fifteen_quarters_witness :
  List.length (lit "abcdefghijklmnopqrst") = 20%nat
  /\ rhythmPatterns
       (engine (exec analyzeRhythm
                  {| clock := {| pending := []; lastReading := 10600 |};
                     engine := engineWithHistory
                                 (uniformKeystrokes
                                    (lit "abcdefghijklmnopqrst") 1000 500) |}))
     = [ (repeat Quarter 15,
          {| rhythm_pattern := repeat Quarter 15;
             rhythm_frequency := 1;
             averageInterval := 500;
             rhythm_lastSeen := 10600 |}) ].
Proof.
  split; [reflexivity|].
  apply (uniform_500ms_is_fifteen_quarters (lit "abcdefghijklmnopqrst") 1000
           {| pending := []; lastReading := 10600 |}).
  reflexivity.
Defined.

(** C4, as stated, fails: the window of the rhythm analysis is the last 16
    keystrokes, so a signature has at most 15 categories and there is none
    of 19.  Moreover, when the 20 keystrokes come in one at a time, the
    first pass (at the fourth key) re-estimates the tempo as
    60000 / (500 * 4) = 30 BPM, and from then on a 500 ms interval is a
    "sixteenth": the last signature is 15 "sixteenth" categories, seen 5
    times. *)
Lemma no_signature_of_19_quarters :
  let one_pass :=
    engine (exec analyzeRhythm
              {| clock := {| pending := []; lastReading := 10600 |};
                 engine := engineWithHistory
                             (uniformKeystrokes
                                (lit "abcdefghijklmnopqrst") 1000 500) |}) in
  let typed_in := run (typed "abcdefghijklmnopqrst" 1000 500) in
  JsMap.get rhythmKey_eqb (rhythmPatterns one_pass) (repeat Quarter 19) = None
  /\ map fst (rhythmPatterns one_pass) = [repeat Quarter 15]
  /\ JsMap.get rhythmKey_eqb (rhythmPatterns typed_in) (repeat Quarter 19)
     = None
  /\ averageTempo (userStyle typed_in) = 30%float
  /\ option_map rhythm_frequency
       (JsMap.get rhythmKey_eqb (rhythmPatterns typed_in)
          (repeat Sixteenth 15)) = Some 5%Z
  /\ option_map rhythm_frequency
       (JsMap.get rhythmKey_eqb (rhythmPatterns typed_in)
          (repeat Quarter 3)) = Some 1%Z.
Proof. cbv zeta. repeat (apply conj); vm_compute; reflexivity. Qed.

(* ================================================================== *)
(** * Saving and restoring *)

Lemma deref_block (pre objs post : list PatternObj) :
  map (deref ((pre ++ objs) ++ post)) (seq (List.length pre) (List.length objs))
  = objs.
Proof.
  revert pre. induction objs as [|o os IH]; intros pre; [reflexivity|].
  cbn [List.length seq map]. f_equal.
  - unfold deref. rewrite <- app_assoc. cbn [app]. apply nth_middle.
  - specialize (IH (pre ++ [o])).
    rewrite length_app in IH. cbn [List.length] in IH.
    rewrite Nat.add_1_r in IH.
    replace ((pre ++ [o]) ++ os) with (pre ++ o :: os) in IH
      by (rewrite <- app_assoc; reflexivity).
    exact IH.
Qed.

Lemma map_combine_snd {K A B} (f : A -> B) (ks : list K) (ls : list A) :
  map (fun kl => (fst kl, f (snd kl))) (combine ks ls) = combine ks (map f ls).
Proof.
  revert ls. induction ks as [|k ks IH]; intros [|l ls]; simpl; auto.
  rewrite IH. reflexivity.
Qed.

Lemma combine_fst_snd {A B} (l : list (A * B)) :
  combine (map fst l) (map snd l) = l.
Proof. induction l as [|[a b] l IH]; simpl; [|rewrite IH]; reflexivity. Qed.

(** Pairing up the locations of the parent and child objects gives back
    the relations. *)
Lemma hierarchy_block (st : list PatternObj) (hier : list (jsstring * HierData)) :
  forall locs,
  map (deref st) locs
  = flat_map (fun kh => [parentData (snd kh); childData (snd kh)]) hier ->
  map (fun kh : jsstring * Hier =>
         (fst kh, {| parentData := deref st (parent (snd kh));
                     childData := deref st (child (snd kh));
                     nestingScoreData := nestingScore (snd kh) |}))
      (map (fun khl : (jsstring * HierData) * (loc * loc) =>
              (fst (fst khl),
               {| parent := fst (snd khl); child := snd (snd khl);
                  nestingScore := nestingScoreData (snd (fst khl)) |}))
           (combine hier (pairUp locs)))
  = hier.
Proof.
  induction hier as [|[k [p c n]] hier IH]; intros locs Hlocs; [reflexivity|].
  destruct locs as [|lp [|lc locs]]; try discriminate.
  cbn [flat_map app map parentData childData snd] in Hlocs.
  injection Hlocs as Hp Hc Hrest.
  cbn [pairUp combine map fst snd parent child nestingScore nestingScoreData].
  rewrite Hp, Hc, (IH locs Hrest). reflexivity.
Qed.

Section Restore.

Variables (e : Engine) (now : Z) (e0 : Engine).

Lemma restore_registry :
  registryView (restore e now e0) = jsonRegistry (registryView e).
Proof.
  unfold restore, initialize, loadUserPatterns, exec, modify, registryView.
  cbn [fst snd engine store detectedPatterns saveUserPatterns
         savedDetected savedHierarchical savedUserStyle].
  rewrite map_combine_snd, <- app_assoc, deref_block.
  apply combine_fst_snd.
Qed.

Lemma restore_hierarchy :
  hierarchyView (restore e now e0) = jsonHierarchy (hierarchyView e).
Proof.
  unfold restore, initialize, loadUserPatterns, exec, modify.
  unfold hierarchyView at 1.
  cbn [fst snd engine store hierarchicalPatterns saveUserPatterns
         savedDetected savedHierarchical savedUserStyle].
  apply hierarchy_block. apply deref_block.
Qed.

Lemma restore_rhythms :
  rhythmPatterns (restore e now e0) = jsonRhythms (rhythmPatterns e).
Proof. reflexivity. Qed.

Lemma restore_style :
  styleView (restore e now e0) = jsonStyle (styleView e).
Proof.
  unfold restore, initialize, loadUserPatterns, exec, modify.
  unfold styleView at 1.
  cbn [fst snd engine store userStyle preferredPatterns averageTempo
         rhythmPreference patternComplexity musicalScale saveUserPatterns
         savedDetected savedHierarchical savedUserStyle].
  rewrite <- (app_nil_r (_ ++ preferredData _)), deref_block.
  reflexivity.
Qed.

End Restore.

(** A finite Number is restored as a Number equal to it. *)
Lemma jsonNumber_finite (x : float) :
  PrimFloat.is_finite x = true -> (jsonNumber x =? x)%float = true.
Proof.
  intros Hfin. unfold jsonNumber. rewrite Hfin. cbn [andb].
  assert (Hnan : (x =? x)%float = true).
  { unfold PrimFloat.is_finite, PrimFloat.is_nan in Hfin.
    destruct (x =? x)%float; auto. }
  destruct (PrimFloat.is_zero x) eqn:Hz; cbn [negb]; [|exact Hnan].
  unfold PrimFloat.is_zero in Hz.
  rewrite FloatAxioms.eqb_spec in *.
  change (Prim2SF zero) with (S754_zero false) in Hz.
  change (Prim2SF 0) with (S754_zero false).
  destruct (Prim2SF x) as [s|s| |s m ex]; try destruct s;
    cbv in Hz |- *; solve [discriminate | reflexivity].
Qed.

(** C5 (as amended).  For every engine state, restoring what was saved
    gives back, by value and up to the way JSON carries Numbers (finite
    ones unchanged), the detected-pattern registry, the hierarchical
    relations, the rhythm registry and the style model.  The learned
    patterns are not part of what is saved: the restoring engine keeps its
    own. *)
Theorem restore_after_save (e : Engine) (now : Z) (e0 : Engine) :
  registryView (restore e now e0) = jsonRegistry (registryView e)
  /\ hierarchyView (restore e now e0) = jsonHierarchy (hierarchyView e)
  /\ rhythmPatterns (restore e now e0) = jsonRhythms (rhythmPatterns e)
  /\ styleView (restore e now e0) = jsonStyle (styleView e)
  /\ learnedPatterns (restore e now e0) = learnedPatterns e0.
Proof.
  split; [apply restore_registry|].
  split; [apply restore_hierarchy|].
  split; [apply restore_rhythms|].
  split; [apply restore_style|reflexivity].
Qed.

(** C5, as stated, fails for the learned patterns: after "nananana" the
    engine has learned three patterns; an engine initialized from what it
    saved has learned none, while the registry is back. *)
Lemma learned_patterns_are_not_restored :
  let e := run (typed "nananana" 1000 200) in
  let restored := restore e 5000 initialEngine in
  List.length (learnedPatterns e) = 3%nat
  /\ learnedPatterns restored = []
  /\ registryView restored = registryView e.
Proof. cbv zeta. repeat (apply conj); vm_compute; reflexivity. Qed.

(* ================================================================== *)
(** * Reasoning about effectful code *)

Section Keeps.

Variable I : Engine -> Prop.

Lemma keeps_ret {A} (a : A) (Q : A -> Prop) : Q a -> keeps I (ret a) Q.
Proof. intros Ha w Hw. split; assumption. Qed.

Lemma keeps_bind {A B} (m : Eff A) (k : A -> Eff B)
  (R : A -> Prop) (Q : B -> Prop) :
  keeps I m R -> (forall a, R a -> keeps I (k a) Q) -> keeps I (bind m k) Q.
Proof.
  intros Hm Hk w Hw. unfold bind.
  destruct (Hm w Hw) as [H1 H2]. destruct (m w) as [a w']. cbn [fst snd] in *.
  apply Hk; assumption.
Qed.

Lemma keeps_now : keeps I Date_now anything.
Proof.
  intros w Hw. unfold Date_now. destruct (tick (clock w)).
  split; [exact Hw | exact Logic.I].
Qed.

Lemma keeps_read {A} (f : Engine -> A) (Q : A -> Prop) :
  (forall e, I e -> Q (f e)) -> keeps I (read f) Q.
Proof. intros Hf w Hw. split; [exact Hw | apply Hf, Hw]. Qed.

Lemma keeps_modify (f : Engine -> Engine) :
  (forall e, I e -> I (f e)) -> keeps I (modify f) anything.
Proof. intros Hf w Hw. split; [apply Hf, Hw | exact Logic.I]. Qed.

Lemma keeps_forEach {A} (l : list A) (body : A -> Eff unit) :
  (forall x, In x l -> keeps I (body x) anything) ->
  keeps I (forEach l body) anything.
Proof.
  induction l as [|x l IH]; intros Hbody; cbn [forEach].
  - apply keeps_ret. exact Logic.I.
  - eapply keeps_bind; [apply Hbody; left; reflexivity|].
    intros _ _. apply IH. intros y Hy. apply Hbody. right. exact Hy.
Qed.

End Keeps.

(** A step whose result is not needed, and a final step. *)
Ltac read_any :=
  eapply keeps_bind with (R := anything);
  [apply keeps_read; intros; exact Logic.I|].

Ltac now_any := eapply keeps_bind; [apply keeps_now|].

Ltac done_any := apply keeps_ret; exact Logic.I.

(* ================================================================== *)
(** * The invariant of keystroke processing *)

Lemma toLowerCase_is_lower (c : ascii) : lowerCase (toLowerCase c).
Proof.
  destruct c as [[] [] [] [] [] [] [] []]; vm_compute; reflexivity.
Qed.

Lemma substring_lower (s : jsstring) (a b : nat) :
  Forall lowerCase s -> Forall lowerCase (substring s a b).
Proof.
  intros Hs. unfold substring.
  rewrite <- (firstn_skipn a s) in Hs. apply Forall_app in Hs as [_ Hs].
  rewrite <- (firstn_skipn (b - a) (skipn a s)) in Hs.
  apply Forall_app in Hs as [Hs _]. exact Hs.
Qed.

Lemma goodObject_noObject : goodObject noObject.
Proof. split; [reflexivity | constructor]. Qed.

Lemma deref_good (st : list PatternObj) (l : loc) :
  Forall goodObject st -> goodObject (deref st l).
Proof.
  intros Hst. unfold deref.
  destruct (nth_in_or_default l st noObject) as [Hin | ->].
  - rewrite Forall_forall in Hst. apply Hst, Hin.
  - apply goodObject_noObject.
Qed.

Lemma store_update_good (st : list PatternObj) (f : PatternObj -> PatternObj) :
  (forall p, goodObject p -> goodObject (f p)) ->
  forall l, Forall goodObject st -> Forall goodObject (store_update st l f).
Proof.
  intros Hf. induction st as [|p st IH]; intros l Hst; [constructor|].
  inversion Hst; subst. destruct l; cbn [store_update]; constructor; auto.
Qed.

Lemma keeps_readObj (l : loc) : keeps Inv (readObj l) goodObject.
Proof.
  apply keeps_read. intros e [_ Hst]. apply deref_good, Hst.
Qed.

Lemma keeps_assign (l : loc) (f : PatternObj -> PatternObj) :
  (forall p, goodObject p -> goodObject (f p)) ->
  keeps Inv (assign l f) anything.
Proof.
  intros Hf. apply keeps_modify. intros e [Hh Hst].
  split; [exact Hh | apply store_update_good; assumption].
Qed.

Lemma keeps_alloc (p : PatternObj) :
  goodObject p -> keeps Inv (alloc p) anything.
Proof.
  intros Hp. unfold alloc.
  read_any. intros l _.
  eapply keeps_bind; [|intros; done_any].
  apply keeps_modify. intros e [Hh Hst]. split; [exact Hh|].
  cbn [store with_store]. apply Forall_app. split; [exact Hst|].
  constructor; [exact Hp | constructor].
Qed.

(** Assignments to fields other than the score and the content. *)
Lemma good_set_frequency v p : goodObject p -> goodObject (set_frequency v p).
Proof. auto. Qed.

Lemma good_set_lastSeen v p : goodObject p -> goodObject (set_lastSeen v p).
Proof. auto. Qed.

Lemma good_set_rhythmInfo v p : goodObject p -> goodObject (set_rhythmInfo v p).
Proof. auto. Qed.

Lemma good_set_score v :
  nonneg v -> forall p, goodObject p -> goodObject (set_score v p).
Proof. intros Hv p [_ Hp]. split; assumption. Qed.

Lemma calculatePatternScore_keeps (l : loc) (repetitions : Z) :
  (0 <= repetitions)%Z ->
  keeps Inv (calculatePatternScore l repetitions) nonneg.
Proof.
  intros Hrep. unfold calculatePatternScore.
  eapply keeps_bind; [apply keeps_readObj|]. intros p Hp.
  now_any. intros now _.
  apply keeps_ret.
  repeat apply add_nonneg.
  - apply mul_nonneg_finite;
      auto using Z2F_nonneg, N2F_nonneg, Z2F_finite, N2F_finite.
  - apply Math_min_nonneg; [|reflexivity].
    apply div_nonneg_posfin; [apply N2F_nonneg | reflexivity].
  - apply mul_nonneg_posfin; [apply N2F_nonneg | reflexivity].
  - apply recencyBonus_nonneg.
Qed.

Lemma calculateFreshnessPenalty_keeps (l : loc) :
  keeps Inv (calculateFreshnessPenalty l) posfin.
Proof.
  unfold calculateFreshnessPenalty.
  eapply keeps_bind; [apply keeps_readObj|]. intros p _.
  now_any. intros now _.
  eapply keeps_bind with (R := anything).
  { destruct (_ =? _)%Z; [apply keeps_now | done_any]. }
  intros first _. apply keeps_ret.
  destruct (gtb _ 2); [reflexivity|].
  destruct (gtb _ 1); [reflexivity|].
  destruct (gtb _ 0.5); reflexivity.
Qed.

Lemma considerCandidate_keeps (sequence : jsstring) (patternLength : nat)
  (keystrokeData : list Keystroke) (i : nat) :
  Forall lowerCase sequence ->
  keeps Inv (considerCandidate sequence patternLength keystrokeData i) anything.
Proof.
  intros Hseq. unfold considerCandidate.
  destruct (isSpamPattern _); [done_any|].
  destruct (Z.leb_spec 2 (countRepetitions (List.length sequence) sequence
                            (substring sequence i (i + patternLength))
                            patternLength (i + patternLength) 1)) as [Hrep|_];
    [|done_any].
  destruct (_ <? 0.3)%float; [done_any|].
  read_any. intros found _.
  eapply keeps_bind with (R := anything).
  { destruct found; [done_any|].
    now_any. intros now _.
    apply keeps_alloc. split; [reflexivity|].
    apply substring_lower, Hseq. }
  intros existingPattern _.
  eapply keeps_bind; [apply keeps_readObj|]. intros p _.
  eapply keeps_bind; [apply keeps_assign, good_set_frequency|]. intros _ _.
  now_any. intros now _.
  eapply keeps_bind; [apply keeps_assign, good_set_lastSeen|]. intros _ _.
  eapply keeps_bind; [apply calculatePatternScore_keeps; lia|]. intros s Hs.
  eapply keeps_bind; [apply keeps_assign, good_set_score, Hs|]. intros _ _.
  read_any. intros tempo _.
  eapply keeps_bind; [apply keeps_assign, good_set_rhythmInfo|]. intros _ _.
  eapply keeps_bind; [apply calculateFreshnessPenalty_keeps|].
  intros freshnessPenalty Hpen.
  eapply keeps_bind; [apply keeps_readObj|]. intros p' [Hp' _].
  eapply keeps_bind;
    [apply keeps_assign, good_set_score, mul_nonneg_posfin; assumption|].
  intros _ _.
  eapply keeps_bind; [apply keeps_readObj|]. intros p'' _.
  destruct (gtb _ _); [|done_any].
  apply keeps_modify. intros e He. exact He.
Qed.

Lemma findPatternsOfLength_keeps (sequence : jsstring) (patternLength : nat)
  (keystrokeData : list Keystroke) :
  Forall lowerCase sequence ->
  keeps Inv (findPatternsOfLength sequence patternLength keystrokeData)
    anything.
Proof.
  intros Hseq. apply keeps_forEach. intros i _.
  apply considerCandidate_keeps, Hseq.
Qed.

Lemma findNestedPatterns_keeps : keeps Inv findNestedPatterns anything.
Proof. apply keeps_modify. intros e He. exact He. Qed.

Lemma decayStep_keeps (kl : jsstring * loc) : keeps Inv (decayStep kl) anything.
Proof.
  unfold decayStep.
  now_any. intros now _.
  eapply keeps_bind; [apply keeps_readObj|]. intros p [Hp _].
  apply keeps_assign, good_set_score, mul_nonneg_posfin; [exact Hp|].
  apply decayFactor_posfin.
Qed.

Lemma learnStep_keeps (l : loc) : keeps Inv (learnStep l) anything.
Proof.
  unfold learnStep.
  eapply keeps_bind; [apply keeps_readObj|]. intros p _.
  read_any. intros ls _.
  destruct (_ && _); [|done_any].
  now_any. intros now _.
  apply keeps_modify. intros e He. exact He.
Qed.

Lemma scoreAndRankPatterns_keeps : keeps Inv scoreAndRankPatterns anything.
Proof.
  unfold scoreAndRankPatterns.
  now_any. intros now _.
  eapply keeps_bind; [apply keeps_modify; intros e He; exact He|]. intros _ _.
  read_any.
  intros entries _.
  eapply keeps_bind;
    [apply keeps_forEach; intros; apply decayStep_keeps|]. intros _ _.
  read_any. intros top _.
  apply keeps_forEach. intros. apply learnStep_keeps.
Qed.

Lemma history_window_lower (n : nat) (h : list Keystroke) :
  Forall (fun k => lowerCase (char k)) h ->
  Forall lowerCase (chars (lastN n h)).
Proof.
  intros Hh. unfold chars, lastN. apply Forall_map.
  rewrite <- (firstn_skipn (List.length h - n) h) in Hh.
  apply Forall_app in Hh as [_ Hh]. exact Hh.
Qed.

Lemma analyzePatterns_keeps : keeps Inv analyzePatterns anything.
Proof.
  unfold analyzePatterns.
  eapply keeps_bind with (R := Forall (fun k => lowerCase (char k))).
  { apply keeps_read. intros e [Hh _]. exact Hh. }
  intros h Hh.
  destruct (_ <? _)%nat; [done_any|].
  eapply keeps_bind.
  { apply keeps_forEach. intros L _.
    apply findPatternsOfLength_keeps, history_window_lower, Hh. }
  intros _ _.
  eapply keeps_bind; [apply findNestedPatterns_keeps|]. intros _ _.
  apply scoreAndRankPatterns_keeps.
Qed.

Lemma updateTempoEstimation_keeps (intervals : list Z) :
  keeps Inv (updateTempoEstimation intervals) anything.
Proof.
  unfold updateTempoEstimation.
  eapply keeps_bind; [apply keeps_modify; intros e He; exact He|]. intros _ _.
  read_any. intros th _.
  apply keeps_modify. intros e He. exact He.
Qed.

Lemma analyzeRhythm_keeps : keeps Inv analyzeRhythm anything.
Proof.
  unfold analyzeRhythm.
  read_any. intros h _.
  destruct (_ <? _)%nat; [done_any|].
  destruct (isRhythmSpam _); [done_any|].
  read_any. intros tempo _.
  read_any. intros found _.
  now_any. intros now _.
  eapply keeps_bind; [apply keeps_modify; intros e He; exact He|]. intros _ _.
  apply updateTempoEstimation_keeps.
Qed.

Lemma updateUserStyle_keeps : keeps Inv updateUserStyle anything.
Proof. apply keeps_modify. intros e He. exact He. Qed.

Lemma recordKeystroke_keeps (c : ascii) (time : Z) :
  keeps Inv (recordKeystroke c time) anything.
Proof.
  unfold recordKeystroke.
  read_any. intros h _.
  eapply keeps_bind.
  { apply keeps_modify. intros e [Hh Hst]. split; [|exact Hst].
    cbn [keystrokeHistory with_keystrokeHistory].
    assert (Hpush : Forall (fun k => lowerCase (char k))
                      (keystrokeHistory e
                       ++ [ {| char := toLowerCase c; timestamp := time;
                               timeSinceLastKey :=
                                 match h with
                                 | [] => 0%Z
                                 | _ :: _ =>
                                     (time - timestamp
                                        (last h {| char := Ascii.zero;
                                                   timestamp := 0;
                                                   timeSinceLastKey := 0 |}))%Z
                                 end |} ])).
    { apply Forall_app. split; [exact Hh|].
      constructor; [apply toLowerCase_is_lower | constructor]. }
    destruct (_ <? _)%nat; [|exact Hpush].
    destruct (_ ++ _) as [|k rest]; [constructor|].
    inversion Hpush; assumption. }
  intros _ _.
  read_any. intros h' _.
  destruct (_ <=? _)%nat; [|done_any].
  eapply keeps_bind; [apply analyzePatterns_keeps|]. intros _ _.
  eapply keeps_bind; [apply analyzeRhythm_keeps|]. intros _ _.
  apply updateUserStyle_keeps.
Qed.

Lemma Inv_initialEngine : Inv initialEngine.
Proof. split; constructor. Qed.

Lemma step_keeps_Inv (e : Engine) (ev : KeyEvent) : Inv e -> Inv (step e ev).
Proof.
  intros He. unfold step, exec.
  apply (recordKeystroke_keeps (ev_char ev) (ev_time ev)). exact He.
Qed.

(** Every state reached by keystroke processing satisfies the invariant. *)
Lemma run_Inv (evs : list KeyEvent) : Inv (run evs).
Proof.
  unfold run. generalize Inv_initialEngine. generalize initialEngine.
  induction evs as [|ev evs IH]; intros e He; cbn [fold_left];
    [exact He | apply IH, step_keeps_Inv, He].
Qed.

Lemma registry_objects_good (e : Engine) :
  Inv e -> Forall (fun kp => goodObject (snd kp)) (registryView e).
Proof.
  intros [_ Hst]. unfold registryView. apply Forall_map, Forall_forall.
  intros kl _. apply deref_good, Hst.
Qed.

(** C9 (as amended).  In every engine state reached by keystroke
    processing from the initial state, every entry of the detected-pattern
    registry has a score of at least 0 after the decay: the score is never
    negative (and never NaN). *)
Theorem scores_never_negative (evs : list KeyEvent) :
  Forall (fun kp => (0 <=? score (snd kp))%float = true)
         (registryView (run evs)).
Proof.
  eapply Forall_impl; [|apply registry_objects_good, run_Inv].
  intros kp [Hscore _]. apply nonneg_iff, Hscore.
Qed.

(** C10.  After every sequence of calls of [recordKeystroke], whatever
    the case of the characters passed, every keystroke of the history and
    the content of every detected pattern is lower-case. *)
Theorem history_and_patterns_are_lower_case (evs : list KeyEvent) :
  Forall (fun k => is_upper (char k) = false) (keystrokeHistory (run evs))
  /\ Forall (fun kp => Forall (fun c => is_upper c = false) (pattern (snd kp)))
            (registryView (run evs)).
Proof.
  split; [apply run_Inv|].
  eapply Forall_impl; [|apply registry_objects_good, run_Inv].
  intros kp [_ Hp]. exact Hp.
Qed.

(** C9, as stated, fails: a score reaches exactly 0.  "nananana" is typed
    from 1000 ms on and registers "na", "an" and "nana".  From 100000 ms
    on, 408 further keys follow, one per second, cycling through 24
    letters other than "n" and "a", so that no pattern repeats in the
    window.  Once the old patterns have left the window every pass
    multiplies their scores by the decay factor, which is 0.1 from the
    54th second on; binary64 has no positive value below 4.9e-324, and
    after some 320 such passes the products round to 0. *)
Lemma decayed_score_reaches_zero :
  let keys := typed "nananana" 1000 200
              ++ typed (repeatString "bcdefghijklmopqrstuvwxyz" 17)
                   100000 1000 in
  map (fun kp => (pattern (snd kp), score (snd kp),
                  (score (snd kp) <=? 0)%float))
      (registryView (run keys))
  = [ (lit "na", 0%float, true); (lit "an", 0%float, true);
      (lit "nana", 0%float, true) ].
Proof. vm_compute. reflexivity. Qed.

(* ================================================================== *)
(** * The loops run to their end *)

(** With a pattern length of at least 1, the repetition count does not
    depend on the fuel, once the fuel covers what is left of the
    sequence: the loop of [findPatternsOfLength] has ended by itself. *)
Lemma countRepetitions_fuel (sequence pattern : jsstring) (patternLength : nat) :
  (1 <= patternLength)%nat ->
  forall fuel fuel' nextStart repetitions,
    (List.length sequence <= nextStart + fuel)%nat ->
    (List.length sequence <= nextStart + fuel')%nat ->
    countRepetitions fuel sequence pattern patternLength nextStart repetitions
    = countRepetitions fuel' sequence pattern patternLength nextStart
        repetitions.
Proof.
  intros HL. induction fuel as [|fuel IH]; intros fuel' nextStart r H1 H2.
  - destruct fuel' as [|fuel']; [reflexivity|]. cbn [countRepetitions].
    destruct (Nat.leb_spec (nextStart + patternLength)
                (List.length sequence)); [lia | reflexivity].
  - cbn [countRepetitions].
    destruct (Nat.leb_spec (nextStart + patternLength)
                (List.length sequence)) as [Hle|Hgt].
    + destruct fuel' as [|fuel']; [lia|]. cbn [countRepetitions].
      destruct (Nat.leb_spec (nextStart + patternLength)
                  (List.length sequence)); [|lia].
      destruct (Str.eqb _ _); [|reflexivity].
      apply IH; lia.
    + destruct fuel' as [|fuel']; [reflexivity|]. cbn [countRepetitions].
      destruct (Nat.leb_spec (nextStart + patternLength)
                  (List.length sequence)); [lia | reflexivity].
Qed.

Lemma indexOf_aux_from (p s : jsstring) : forall pos i,
  indexOf_aux p s pos = Some i -> (pos <= i)%nat.
Proof.
  induction s as [|c s IH]; intros pos i; cbn [indexOf_aux].
  - destruct (prefixb p []); [intros [= <-]; lia | discriminate].
  - destruct (prefixb p (c :: s)); [intros [= <-]; lia|].
    intros H. apply IH in H. lia.
Qed.

Lemma indexOf_from (s p : jsstring) (from i : nat) :
  (from <= List.length s)%nat -> indexOf s p from = Some i -> (from <= i)%nat.
Proof.
  intros Hfrom H. unfold indexOf in H. apply indexOf_aux_from in H. lia.
Qed.

(** The occurrences found do not depend on the fuel either, once it
    exceeds what is left of the sequence. *)
Lemma findOccurrencesFrom_fuel (pattern charSequence : jsstring)
  (keystrokeData : list Keystroke) :
  forall fuel fuel' startIndex,
    (List.length charSequence < startIndex + fuel)%nat ->
    (List.length charSequence < startIndex + fuel')%nat ->
    findOccurrencesFrom fuel pattern charSequence keystrokeData startIndex
    = findOccurrencesFrom fuel' pattern charSequence keystrokeData startIndex.
Proof.
  induction fuel as [|fuel IH]; intros fuel' startIndex H1 H2.
  - destruct fuel' as [|fuel']; [reflexivity|]. cbn [findOccurrencesFrom].
    destruct (Nat.leb_spec (startIndex + List.length pattern)
                (List.length charSequence)); [lia | reflexivity].
  - destruct fuel' as [|fuel'].
    + cbn [findOccurrencesFrom].
      destruct (Nat.leb_spec (startIndex + List.length pattern)
                  (List.length charSequence)); [lia | reflexivity].
    + cbn [findOccurrencesFrom].
      destruct (Nat.leb_spec (startIndex + List.length pattern)
                  (List.length charSequence)) as [Hle|_]; [|reflexivity].
      destruct (indexOf charSequence pattern startIndex) as [foundIndex|] eqn:E;
        [|reflexivity].
      apply indexOf_from in E; [|lia].
      f_equal. apply IH; lia.
Qed.
(* ================================================================== *)
(** * Pre- and postconditions of effectful code *)

Lemma hoare_ret {A} (P : Engine -> Prop) (a : A) (Q : A -> Engine -> Prop) :
  (forall e, P e -> Q a e) -> hoare P (ret a) Q.
Proof. intros H w Hw. apply H, Hw. Qed.

Lemma hoare_bind {A B} (P : Engine -> Prop) (m : Eff A) (k : A -> Eff B)
  (R : A -> Engine -> Prop) (Q : B -> Engine -> Prop) :
  hoare P m R -> (forall a, hoare (R a) (k a) Q) -> hoare P (bind m k) Q.
Proof.
  intros Hm Hk w Hw. unfold bind. specialize (Hm w Hw).
  destruct (m w) as [a w']. cbn [fst snd] in Hm. apply Hk, Hm.
Qed.

Lemma hoare_conseq {A} (P P' : Engine -> Prop) (m : Eff A)
  (Q Q' : A -> Engine -> Prop) :
  hoare P' m Q' -> (forall e, P e -> P' e) ->
  (forall a e, Q' a e -> Q a e) -> hoare P m Q.
Proof. intros Hm HP HQ w Hw. apply HQ, Hm, HP, Hw. Qed.

Lemma hoare_now (P : Engine -> Prop) : hoare P Date_now (fun _ => P).
Proof.
  intros w Hw. unfold Date_now. destruct (tick (clock w)). exact Hw.
Qed.

Lemma hoare_read {A} (P : Engine -> Prop) (f : Engine -> A) :
  hoare P (read f) (fun a e => P e /\ a = f e).
Proof. intros w Hw. split; [exact Hw | reflexivity]. Qed.

Lemma hoare_modify (P : Engine -> Prop) (f : Engine -> Engine)
  (Q : unit -> Engine -> Prop) :
  (forall e, P e -> Q tt (f e)) -> hoare P (modify f) Q.
Proof. intros H w Hw. apply H, Hw. Qed.

Lemma hoare_forEach {A} (I : Engine -> Prop) (l : list A)
  (body : A -> Eff unit) :
  (forall x, In x l -> hoare I (body x) (fun _ => I)) ->
  hoare I (forEach l body) (fun _ => I).
Proof.
  induction l as [|x l IH]; intros Hbody; cbn [forEach].
  - apply hoare_ret. auto.
  - eapply hoare_bind; [apply Hbody; left; reflexivity|].
    intros ?. apply IH. intros y Hy. apply Hbody. right. exact Hy.
Qed.

Lemma keeps_hoare {A} (I : Engine -> Prop) (m : Eff A) (Q : A -> Prop) :
  keeps I m Q <-> hoare I m (fun a e => I e /\ Q a).
Proof. split; intros H w Hw; apply H, Hw. Qed.

(** A step through the program: the clock, a read, a modification, a
    loop, a branch, a call.  [frame] proves that code keeps an invariant
    that none of its modifications can break; [frame_with tac] leaves the
    calls that can break it to [tac]. *)
Ltac head_of t :=
  lazymatch t with
  | ?f _ => head_of f
  | _ => t
  end.

Ltac frame_step tac :=
  cbv beta zeta;
  first
    [ tac
    | lazymatch goal with
      | |- keeps _ (ret _) _ => apply keeps_ret; exact Logic.I
      | |- keeps _ (bind _ _) _ =>
          eapply keeps_bind with (R := anything); [|intros ? _]
      | |- keeps _ Date_now _ => apply keeps_now
      | |- keeps _ (read _) _ => apply keeps_read; intros; exact Logic.I
      | |- keeps _ (modify _) _ =>
          apply keeps_modify; let He := fresh in intros ? He; exact He
      | |- keeps _ (forEach _ _) _ => apply keeps_forEach; intros ? _
      | |- keeps _ (if ?b then _ else _) _ => destruct b
      | |- keeps _ (match ?x with _ => _ end) _ => destruct x
      | |- keeps _ ?m _ => let h := head_of m in unfold h
      end ].

Ltac frame_with tac := repeat frame_step tac.

Ltac frame := frame_with fail.

(** What code leaves alone: a field that every invariant on it survives. *)
Lemma unchanged_field {A B} (F : Engine -> B) (m : Eff A) :
  (forall b, keeps (fun e => F e = b) m anything) ->
  forall w, F (engine (snd (m w))) = F (engine w).
Proof. intros H w. apply (H (F (engine w)) w). reflexivity. Qed.

(* ================================================================== *)
(** * The history buffer *)

Lemma analysis_keeps_history (b : list Keystroke) :
  keeps (fun e => keystrokeHistory e = b)
    (analyzePatterns ;;; analyzeRhythm ;;; updateUserStyle) anything.
Proof. frame. Qed.

(** What [recordKeystroke] does to the history: the new record goes to
    the end, and beyond 1000 records the oldest one goes. *)
Lemma recordKeystroke_history (c : ascii) (time : Z) (w : World) :
  keystrokeHistory (engine (exec (recordKeystroke c time) w))
  = let h := keystrokeHistory (engine w) in
    let h' :=
      h ++ [ {| char := toLowerCase c; timestamp := time;
                timeSinceLastKey :=
                  match h with
                  | [] => 0%Z
                  | _ => (time - timestamp
                                   (last h {| char := Ascii.zero;
                                              timestamp := 0;
                                              timeSinceLastKey := 0 |}))%Z
                  end |} ] in
    if (1000 <? List.length h')%nat then tl h' else h'.
Proof.
  unfold exec, recordKeystroke.
  unfold bind at 1. unfold read at 1. cbv iota.
  unfold bind at 1. unfold modify at 1. cbv iota.
  unfold bind at 1. unfold read at 1. cbv iota.
  match goal with
  | |- context [if ?b then _ else ret tt] => destruct b
  end.
  - rewrite (unchanged_field keystrokeHistory _ analysis_keeps_history).
    reflexivity.
  - reflexivity.
Qed.

Lemma lastN_all {A} (n : nat) (l : list A) :
  (List.length l <= n)%nat -> lastN n l = l.
Proof.
  intros H. unfold lastN.
  replace (List.length l - n)%nat with 0%nat by lia. reflexivity.
Qed.

Lemma lastN_length {A} (n : nat) (l : list A) :
  List.length (lastN n l) = Nat.min n (List.length l).
Proof. unfold lastN. rewrite length_skipn. lia. Qed.

Lemma tl_skipn {A} (k : nat) : forall l : list A,
  tl (skipn k l) = skipn (S k) l.
Proof.
  induction k as [|k IH]; intros [|x l]; try reflexivity.
  cbn [skipn]. rewrite IH. reflexivity.
Qed.

(** Pushing onto a buffer of the last [n] elements and dropping the
    oldest one beyond [n] gives the last [n] elements again. *)
Lemma lastN_push {A} (n : nat) (l : list A) (x : A) :
  (0 < n)%nat ->
  (if (n <? List.length (lastN n l ++ [x]))%nat
   then tl (lastN n l ++ [x]) else lastN n l ++ [x])
  = lastN n (l ++ [x]).
Proof.
  intros Hn.
  destruct (Nat.leb_spec n (List.length l)) as [Hge|Hlt].
  - destruct (Nat.ltb_spec n (List.length (lastN n l ++ [x]))) as [_|Hle].
    2:{ rewrite length_app, lastN_length in Hle. cbn [List.length] in Hle. lia. }
    unfold lastN. rewrite length_app. cbn [List.length].
    rewrite skipn_app.
    replace (List.length l + 1 - n - List.length l)%nat with 0%nat by lia.
    cbn [skipn].
    replace (List.length l + 1 - n)%nat with (S (List.length l - n)) by lia.
    rewrite <- tl_skipn.
    destruct (skipn (List.length l - n) l) eqn:E; [|reflexivity].
    apply (f_equal (@List.length A)) in E. rewrite length_skipn in E.
    cbn [List.length] in E. lia.
  - rewrite (lastN_all n l) by lia.
    destruct (Nat.ltb_spec n (List.length (l ++ [x]))) as [Hgt|_].
    { rewrite length_app in Hgt. cbn [List.length] in Hgt. lia. }
    symmetry. apply lastN_all. rewrite length_app. cbn [List.length]. lia.
Qed.

Lemma lastN_nil_inv {A} (n : nat) (l : list A) :
  (0 < n)%nat -> lastN n l = [] -> l = [].
Proof.
  intros Hn H. apply (f_equal (@List.length A)) in H.
  rewrite lastN_length in H. cbn [List.length] in H.
  destruct l; [reflexivity | cbn [List.length] in H; lia].
Qed.

Lemma last_skipn {A} (d : A) (l : list A) : forall k,
  (k < List.length l)%nat -> last (skipn k l) d = last l d.
Proof.
  induction l as [|x l IH]; intros k Hk; [cbn [List.length] in Hk; lia|].
  destruct k as [|k]; [reflexivity|]. cbn [skipn].
  cbn [List.length] in Hk. rewrite IH by lia.
  destruct l; [cbn [List.length] in Hk; lia | reflexivity].
Qed.

Lemma last_lastN {A} (d : A) (n : nat) (l : list A) :
  (0 < n)%nat -> last (lastN n l) d = last l d.
Proof.
  intros Hn. unfold lastN. destruct l as [|x l]; [reflexivity|].
  apply last_skipn. cbn [List.length]. lia.
Qed.

(** The timestamp of the last event, if any, else [previous]. *)
Lemma keystrokesFrom_snoc (evs : list KeyEvent) (ev : KeyEvent) :
  forall previous,
  keystrokesFrom previous (evs ++ [ev])
  = keystrokesFrom previous evs
    ++ keystrokesFrom
         (match evs with
          | [] => previous
          | _ => Some (ev_time (last evs ev))
          end) [ev].
Proof.
  induction evs as [|e evs IH]; intros previous; [reflexivity|].
  cbn [app keystrokesFrom]. rewrite IH. f_equal. f_equal.
  destruct evs; reflexivity.
Qed.

Lemma keystrokesFrom_last (d : Keystroke) (evs : list KeyEvent) (ev : KeyEvent) :
  forall previous, evs <> [] ->
  timestamp (last (keystrokesFrom previous evs) d) = ev_time (last evs ev).
Proof.
  induction evs as [|e evs IH]; intros previous Hne; [congruence|].
  destruct evs as [|e' evs]; [reflexivity|].
  change (keystrokesFrom previous (e :: e' :: evs))
    with ({| char := toLowerCase (ev_char e); timestamp := ev_time e;
             timeSinceLastKey :=
               match previous with
               | None => 0%Z
               | Some t => (ev_time e - t)%Z
               end |} :: keystrokesFrom (Some (ev_time e)) (e' :: evs)).
  change (last (e :: e' :: evs) ev) with (last (e' :: evs) ev).
  rewrite <- (IH (Some (ev_time e))) by discriminate.
  cbn [keystrokesFrom]. reflexivity.
Qed.

Lemma run_snoc (evs : list KeyEvent) (ev : KeyEvent) :
  run (evs ++ [ev]) = step (run evs) ev.
Proof. unfold run. rewrite fold_left_app. reflexivity. Qed.

Lemma run_history (evs : list KeyEvent) :
  keystrokeHistory (run evs) = lastN 1000 (keystrokesFrom None evs).
Proof.
  induction evs as [|ev evs IH] using rev_ind; [reflexivity|].
  rewrite run_snoc. unfold step. rewrite recordKeystroke_history.
  cbv zeta. cbn [engine]. rewrite IH, keystrokesFrom_snoc.
  cbn [keystrokesFrom].
  match goal with
  | |- context [lastN 1000 ?l ++ [?k]] =>
      replace k with
        {| char := toLowerCase (ev_char ev); timestamp := ev_time ev;
           timeSinceLastKey :=
             match
               match evs with
               | [] => None
               | _ => Some (ev_time (last evs ev))
               end
             with
             | None => 0%Z
             | Some t => (ev_time ev - t)%Z
             end |}
  end.
  - apply lastN_push. lia.
  - f_equal. destruct evs as [|e evs']; [reflexivity|].
    destruct (lastN 1000 (keystrokesFrom None (e :: evs'))) eqn:E.
    { apply lastN_nil_inv in E; [discriminate | lia]. }
    rewrite <- E, last_lastN by lia.
    rewrite (keystrokesFrom_last _ (e :: evs') ev) by discriminate.
    reflexivity.
Qed.

(** X1.  After any sequence of key events the history holds exactly the
    last 1000 keystrokes, in order: each with its character in lower case,
    its timestamp, and the time since the keystroke before it (0 for the
    very first). *)
Theorem history_is_last_1000_keystrokes (evs : list KeyEvent) :
  keystrokeHistory (run evs) = lastN 1000 (keystrokesFrom None evs).
Proof. apply run_history. Qed.

(* ================================================================== *)
(** * Invariants of a run *)

(** What holds of the constructor's state and is kept by every call of
    [recordKeystroke] holds after every sequence of key events. *)
Lemma run_invariant (I : Engine -> Prop) :
  I initialEngine ->
  (forall c time, keeps I (recordKeystroke c time) anything) ->
  forall evs, I (run evs).
Proof.
  intros H0 Hstep evs. unfold run. revert H0. generalize initialEngine.
  induction evs as [|ev evs IH]; intros e He; cbn [fold_left]; [exact He|].
  apply IH. unfold step, exec.
  apply (Hstep (ev_char ev) (ev_time ev)). exact He.
Qed.

(* ================================================================== *)
(** * The style model's preferred patterns *)

Lemma firstn_incl {A} (x : A) (n : nat) (l : list A) :
  In x (firstn n l) -> In x l.
Proof.
  intros H. rewrite <- (firstn_skipn n l). apply in_or_app. left. exact H.
Qed.

Lemma firstn_at_most {A} (n : nat) (l : list A) :
  (List.length (firstn n l) <= n)%nat.
Proof. rewrite length_firstn. lia. Qed.

(** After [updateUserStyle] the preferred patterns are the top patterns
    of the registry, whatever they were before. *)
Lemma recordKeystroke_preferred (c : ascii) (time : Z) (w : World) :
  preferredIsTop (engine w) ->
  preferredIsTop (engine (exec (recordKeystroke c time) w)).
Proof.
  intros H. unfold exec, recordKeystroke.
  unfold bind at 1. unfold read at 1. cbv iota.
  unfold bind at 1. unfold modify at 1. cbv iota.
  unfold bind at 1. unfold read at 1. cbv iota.
  match goal with
  | |- context [if ?b then _ else ret tt] => destruct b
  end.
  - unfold bind at 1.
    destruct (analyzePatterns _) as [u w1]. unfold bind at 1.
    destruct (analyzeRhythm w1) as [u' w2]. reflexivity.
  - exact H.
Qed.

Lemma jsSort_In {A} (gt : A -> A -> bool) (x : A) (l : list A) :
  In x (jsSort gt l) <-> In x l.
Proof.
  assert (Hins : forall y l', In x (sortInsert gt y l') <-> x = y \/ In x l').
  { intros y l'. induction l' as [|z l' IH]; cbn [sortInsert].
    - cbn [In]. intuition congruence.
    - destruct (gt y z); cbn [In]; [rewrite IH|]; intuition congruence. }
  induction l as [|y l IH]; [reflexivity|].
  cbn [jsSort fold_right]. fold (jsSort gt l). rewrite Hins, IH.
  cbn [In]. intuition congruence.
Qed.

Lemma run_preferredIsTop (evs : list KeyEvent) : preferredIsTop (run evs).
Proof.
  induction evs as [|ev evs IH] using rev_ind; [reflexivity|].
  rewrite run_snoc. unfold step.
  apply (recordKeystroke_preferred (ev_char ev) (ev_time ev)). exact IH.
Qed.

(** X2.  After any sequence of key events, the preferred patterns of the
    style model are the registry's current top patterns: at most ten
    entries of the registry, each scoring above the threshold 1.5. *)
Theorem preferred_patterns_are_top_ten (evs : list KeyEvent) :
  preferredPatterns (userStyle (run evs)) = topPatterns (run evs)
  /\ (List.length (preferredPatterns (userStyle (run evs))) <= 10)%nat
  /\ Forall (fun l => In l (map snd (detectedPatterns (run evs)))
                      /\ gtb (score (deref (store (run evs)) l))
                             patternScoreThreshold = true)
       (preferredPatterns (userStyle (run evs))).
Proof.
  pose proof (run_preferredIsTop evs) as H.
  unfold preferredIsTop in H.
  split; [exact H|]. rewrite H. split; [apply firstn_at_most|].
  apply Forall_forall. intros l Hl. unfold topPatterns in Hl.
  apply firstn_incl in Hl. apply jsSort_In in Hl.
  unfold aboveThreshold in Hl. apply filter_In in Hl. exact Hl.
Qed.

(* ================================================================== *)
(** * The tempo estimate *)

Lemma updateTempoEstimation_tempo (intervals : list Z) :
  keeps tempoInv (updateTempoEstimation intervals) anything.
Proof.
  intros w [Hlen _]. split; [|exact Logic.I].
  unfold updateTempoEstimation, bind, modify, read, tempoInv.
  cbn [fst snd engine tempoHistory with_tempoHistory with_userStyle
       userStyle averageTempo].
  revert Hlen. generalize (tempoHistory (engine w)) as th.
  generalize (60000 / (meanInterval intervals * 4))%float as x.
  intros x th Hlen.
  assert (Hpush : List.length (th ++ [x]) = S (List.length th)).
  { rewrite length_app. cbn [List.length]. lia. }
  destruct (Nat.ltb_spec 20 (List.length (th ++ [x]))) as [Hgt|Hle].
  - destruct th as [|t th']; [cbn [List.length app] in Hgt; lia|].
    cbn [app tl]. cbn [List.length] in Hlen.
    split; [rewrite length_app; cbn [List.length]; lia|].
    destruct (th' ++ [x]) eqn:E; [|reflexivity].
    apply (f_equal (@List.length float)) in E.
    rewrite length_app in E. cbn [List.length] in E. lia.
  - split; [exact Hle|].
    destruct (th ++ [x]) eqn:E; [|reflexivity].
    cbn [List.length] in Hpush. lia.
Qed.

Lemma recordKeystroke_tempo (c : ascii) (time : Z) :
  keeps tempoInv (recordKeystroke c time) anything.
Proof. frame_with ltac:(apply updateTempoEstimation_tempo). Qed.

Lemma run_tempoInv (evs : list KeyEvent) : tempoInv (run evs).
Proof.
  apply run_invariant; [|apply recordKeystroke_tempo].
  split; [cbn; lia | reflexivity].
Qed.

(** X3.  After any sequence of key events the tempo history holds at most
    20 estimates. *)
Theorem tempo_history_at_most_20 (evs : list KeyEvent) :
  (List.length (tempoHistory (run evs)) <= 20)%nat.
Proof. apply run_tempoInv. Qed.

(** X4.  After any sequence of key events the running tempo of the style
    model is the constructor's 120 BPM while no tempo has been estimated,
    and from then on the mean of the estimates in the tempo history. *)
Theorem average_tempo_is_mean_of_estimates (evs : list KeyEvent) :
  averageTempo (userStyle (run evs))
  = match tempoHistory (run evs) with
    | [] => 120%float
    | th => (Num.sum th / N2F (List.length th))%float
    end.
Proof. apply run_tempoInv. Qed.

(* ================================================================== *)
(** * The rhythm registry *)

Lemma JsMap_get_In {K V} (keq : K -> K -> bool) (m : list (K * V)) (k : K)
  (v : V) :
  JsMap.get keq m k = Some v -> exists k', In (k', v) m /\ keq k' k = true.
Proof.
  induction m as [|[k' v'] m IH]; cbn [JsMap.get]; [discriminate|].
  destruct (keq k' k) eqn:E.
  - intros [= ->]. exists k'. split; [left; reflexivity | exact E].
  - intros H. destruct (IH H) as [k'' [Hin Hk]].
    exists k''. split; [right; exact Hin | exact Hk].
Qed.

Lemma JsMap_set_Forall {K V} (keq : K -> K -> bool) (P : K * V -> Prop)
  (m : list (K * V)) (k : K) (v : V) :
  Forall P m -> (forall k', keq k' k = true -> P (k', v)) -> P (k, v) ->
  Forall P (JsMap.set keq m k v).
Proof.
  intros Hm Hsame Hnew.
  induction m as [|[k' v'] m IH]; cbn [JsMap.set].
  - constructor; [exact Hnew | constructor].
  - inversion Hm; subst. destruct (keq k' k) eqn:E.
    + constructor; [apply Hsame, E | assumption].
    + constructor; [assumption | apply IH; assumption].
Qed.

Lemma NoteValue_eqb_eq (a b : NoteValue) : NoteValue_eqb a b = true -> a = b.
Proof. destruct a, b; (reflexivity || discriminate). Qed.

Lemma rhythmKey_eqb_eq (a b : list NoteValue) :
  rhythmKey_eqb a b = true -> a = b.
Proof.
  unfold rhythmKey_eqb. rewrite andb_true_iff, Nat.eqb_eq.
  revert b. induction a as [|x a IH]; intros [|y b] [Hlen Hall];
    try discriminate; [reflexivity|].
  cbn [combine forallb fst snd] in Hall. apply andb_true_iff in Hall.
  destruct Hall as [Hxy Hall]. apply NoteValue_eqb_eq in Hxy. subst y.
  f_equal. apply IH. split; [cbn [List.length] in Hlen; lia | exact Hall].
Qed.

Lemma intervalsOf_length (ks : list Keystroke) :
  List.length (intervalsOf ks) = (List.length ks - 1)%nat.
Proof.
  induction ks as [|a [|b ks] IH]; try reflexivity.
  change (intervalsOf (a :: b :: ks))
    with ((timestamp b - timestamp a)%Z :: intervalsOf (b :: ks)).
  cbn [List.length] in *. rewrite IH. lia.
Qed.

Lemma analyzeRhythm_rhythm : keeps rhythmInv analyzeRhythm anything.
Proof.
  unfold analyzeRhythm.
  eapply keeps_bind with (R := anything);
    [apply keeps_read; intros; exact Logic.I|].
  intros h _.
  destruct (Nat.ltb_spec (List.length h) 4) as [|Hlen];
    [apply keeps_ret; exact Logic.I|].
  destruct (isRhythmSpam _); [apply keeps_ret; exact Logic.I|].
  cbv zeta.
  eapply keeps_bind with (R := anything);
    [apply keeps_read; intros; exact Logic.I|].
  intros tempo _.
  set (key := map (fun interval => classifyInterval tempo (Z2F interval))
                  (intervalsOf (lastN 16 h))).
  assert (Hkey : (3 <= List.length key <= 15)%nat).
  { unfold key. rewrite length_map, intervalsOf_length, lastN_length. lia. }
  eapply keeps_bind
    with (R := fun found => match found with
                            | Some r => rhythmEntryOk (key, r)
                            | None => True
                            end).
  { apply keeps_read. intros e He.
    destruct (JsMap.get _ _ _) as [r|] eqn:E; [|exact Logic.I].
    apply JsMap_get_In in E. destruct E as [k' [Hin Hk]].
    apply rhythmKey_eqb_eq in Hk. subst k'.
    unfold rhythmInv in He. rewrite Forall_forall in He. apply He, Hin. }
  intros found Hfound.
  eapply keeps_bind; [apply keeps_now|]. intros now _.
  eapply keeps_bind.
  { apply keeps_modify. intros e He. unfold rhythmInv in *.
    cbn [rhythmPatterns with_rhythmPatterns].
    assert (Hnew : rhythmEntryOk
              (key,
               {| rhythm_pattern :=
                    rhythm_pattern
                      match found with
                      | Some r => r
                      | None => {| rhythm_pattern := key;
                                   rhythm_frequency := 0;
                                   averageInterval := 0;
                                   rhythm_lastSeen := 0 |}
                      end;
                  rhythm_frequency :=
                    (rhythm_frequency
                       match found with
                       | Some r => r
                       | None => {| rhythm_pattern := key;
                                    rhythm_frequency := 0;
                                    averageInterval := 0;
                                    rhythm_lastSeen := 0 |}
                       end + 1)%Z;
                  averageInterval := meanInterval (intervalsOf (lastN 16 h));
                  rhythm_lastSeen := now |})).
    { destruct found as [r|].
      - destruct Hfound as [Hp [Hf _]]. cbn [fst snd] in *.
        repeat split; cbn [fst snd rhythm_pattern rhythm_frequency];
          [exact Hp | lia | lia | lia].
      - repeat split; cbn [fst snd rhythm_pattern rhythm_frequency]; lia. }
    apply JsMap_set_Forall; [exact He | | exact Hnew].
    intros k' Hk. apply rhythmKey_eqb_eq in Hk. subst k'. exact Hnew. }
  intros _ _. frame.
Qed.

Lemma recordKeystroke_rhythm (c : ascii) (time : Z) :
  keeps rhythmInv (recordKeystroke c time) anything.
Proof. frame_with ltac:(apply analyzeRhythm_rhythm). Qed.

(** X5.  After any sequence of key events, every entry of the rhythm
    registry is filed under the signature its object carries, has a
    frequency of at least 1, and has a signature of between 3 and 15
    categories. *)
Theorem rhythm_signatures_are_well_formed (evs : list KeyEvent) :
  Forall (fun kr => rhythm_pattern (snd kr) = fst kr
                    /\ (1 <= rhythm_frequency (snd kr))%Z
                    /\ (3 <= List.length (fst kr) <= 15)%nat)
         (rhythmPatterns (run evs)).
Proof.
  apply (run_invariant rhythmInv); [constructor|].
  apply recordKeystroke_rhythm.
Qed.

(* ================================================================== *)
(** * Searching the character sequence *)

Lemma prefixb_firstn (p s : jsstring) :
  prefixb p s = true <-> firstn (List.length p) s = p.
Proof.
  revert s. induction p as [|x p IH]; intros s; [split; reflexivity|].
  destruct s as [|y s]; cbn [prefixb List.length firstn];
    [split; discriminate|].
  rewrite andb_true_iff, IH. split.
  - intros [Hxy Hp]. apply Ascii.eqb_eq in Hxy. congruence.
  - intros [= -> Hp]. rewrite Hp. split; [apply Ascii.eqb_refl | congruence].
Qed.

Lemma prefixb_length (p s : jsstring) :
  prefixb p s = true -> (List.length p <= List.length s)%nat.
Proof.
  intros H. apply prefixb_firstn in H.
  apply (f_equal (@List.length ascii)) in H. rewrite length_firstn in H. lia.
Qed.

Lemma substring_at (s : jsstring) (i L : nat) :
  substring s i (i + L) = firstn L (skipn i s).
Proof. unfold substring. f_equal. lia. Qed.

(** A string occurs at an offset. *)
Lemma occurs_at_prefixb (p s : jsstring) (i : nat) :
  Str.eqb (substring s i (i + List.length p)) p = prefixb p (skipn i s).
Proof.
  rewrite substring_at.
  destruct (prefixb p (skipn i s)) eqn:E.
  - apply Str_eqb_eq, prefixb_firstn, E.
  - destruct (Str.eqb _ p) eqn:E'; [|reflexivity].
    apply Str_eqb_eq, prefixb_firstn in E'. congruence.
Qed.

(** [indexOf_aux] returns the first offset at which the pattern is a
    prefix, or nothing when there is none. *)
Lemma indexOf_aux_some (p s : jsstring) : forall pos i,
  indexOf_aux p s pos = Some i ->
  exists j, i = (pos + j)%nat /\ (j <= List.length s)%nat
            /\ prefixb p (skipn j s) = true
            /\ forall j', (j' < j)%nat -> prefixb p (skipn j' s) = false.
Proof.
  induction s as [|c s IH]; intros pos i; cbn [indexOf_aux].
  - destruct (prefixb p []) eqn:E; [|discriminate].
    intros [= <-]. exists 0%nat.
    repeat split; [lia | cbn; lia | exact E | intros; lia].
  - destruct (prefixb p (c :: s)) eqn:E.
    + intros [= <-]. exists 0%nat.
      repeat split; [lia | cbn; lia | exact E | intros; lia].
    + intros H. destruct (IH _ _ H) as [j [Hi [Hj [Hp Hmin]]]].
      exists (S j). repeat split; [lia | cbn [List.length]; lia | exact Hp |].
      intros [|j'] Hj'; [exact E|]. apply Hmin. lia.
Qed.

Lemma indexOf_aux_none (p s : jsstring) : forall pos,
  indexOf_aux p s pos = None ->
  forall j, prefixb p (skipn j s) = false.
Proof.
  induction s as [|c s IH]; intros pos; cbn [indexOf_aux].
  - destruct (prefixb p []) eqn:E; [discriminate|].
    intros _ j. rewrite skipn_nil. exact E.
  - destruct (prefixb p (c :: s)) eqn:E; [discriminate|].
    intros H [|j]; [exact E|]. cbn [skipn]. apply (IH _ H).
Qed.

Lemma indexOf_some (s p : jsstring) (from i : nat) :
  (from <= List.length s)%nat -> indexOf s p from = Some i ->
  (from <= i)%nat /\ (i + List.length p <= List.length s)%nat
  /\ prefixb p (skipn i s) = true
  /\ forall i', (from <= i' < i)%nat -> prefixb p (skipn i' s) = false.
Proof.
  intros Hfrom H. unfold indexOf in H.
  apply indexOf_aux_some in H. destruct H as [j [Hi [Hj [Hp Hmin]]]].
  rewrite skipn_skipn in Hp. rewrite length_skipn in Hj.
  replace (Nat.min from (List.length s)) with from in Hi by lia.
  assert (Hij : (j + from)%nat = i) by lia. rewrite Hij in Hp.
  repeat split; [lia | | exact Hp |].
  - apply prefixb_length in Hp. rewrite length_skipn in Hp. lia.
  - intros i' Hi'. specialize (Hmin (i' - from)%nat).
    rewrite skipn_skipn in Hmin.
    replace (i' - from + from)%nat with i' in Hmin by lia.
    apply Hmin. lia.
Qed.

Lemma indexOf_none (s p : jsstring) (from i : nat) :
  indexOf s p from = None -> (from <= i)%nat ->
  prefixb p (skipn i s) = false.
Proof.
  intros H Hi. unfold indexOf in H.
  pose proof (indexOf_aux_none _ _ _ H (i - from)%nat) as Hn.
  rewrite skipn_skipn in Hn.
  replace (i - from + from)%nat with i in Hn by lia. exact Hn.
Qed.

Lemma filter_seq_none (f : nat -> bool) (len : nat) : forall start,
  (forall i, (start <= i < start + len)%nat -> f i = false) ->
  filter f (seq start len) = [].
Proof.
  induction len as [|len IH]; intros start H; [reflexivity|].
  cbn [seq filter]. rewrite H by lia. apply IH. intros i Hi. apply H. lia.
Qed.

Lemma filter_seq_first (f : nat -> bool) (len : nat) : forall start i,
  (start <= i < start + len)%nat -> f i = true ->
  (forall i', (start <= i' < i)%nat -> f i' = false) ->
  filter f (seq start len)
  = i :: filter f (seq (S i) (start + len - S i)).
Proof.
  induction len as [|len IH]; intros start i Hi Hf Hmin; [lia|].
  cbn [seq filter].
  destruct (Nat.eq_dec start i) as [->|Hne].
  - rewrite Hf. do 3 f_equal. lia.
  - rewrite Hmin by lia. rewrite (IH (S start) i); [|lia|exact Hf|].
    + do 3 f_equal. lia.
    + intros i' Hi'. apply Hmin. lia.
Qed.

Lemma findOccurrencesFrom_all (pattern : jsstring)
  (keystrokeData : list Keystroke) :
  forall fuel startIndex,
    (List.length keystrokeData < startIndex + fuel)%nat ->
    findOccurrencesFrom fuel pattern (chars keystrokeData) keystrokeData
      startIndex
    = map (fun i => slice keystrokeData i (i + List.length pattern))
        (filter (fun i => prefixb pattern (skipn i (chars keystrokeData)))
           (seq startIndex
              (List.length keystrokeData + 1 - List.length pattern
               - startIndex))).
Proof.
  assert (Hn : List.length (chars keystrokeData) = List.length keystrokeData)
    by apply length_map.
  induction fuel as [|fuel IH]; intros startIndex Hfuel.
  - replace (List.length keystrokeData + 1 - List.length pattern
             - startIndex)%nat with 0%nat by lia.
    reflexivity.
  - cbn [findOccurrencesFrom]. rewrite Hn.
    destruct (Nat.leb_spec (startIndex + List.length pattern)
                (List.length keystrokeData)) as [Hle|Hgt].
    2:{ replace (List.length keystrokeData + 1 - List.length pattern
                 - startIndex)%nat with 0%nat by lia.
        reflexivity. }
    destruct (indexOf (chars keystrokeData) pattern startIndex)
      as [foundIndex|] eqn:E.
    + apply indexOf_some in E; [|lia].
      destruct E as [Hfrom [Hend [Hp Hmin]]]. rewrite Hn in Hend.
      rewrite (filter_seq_first _ _ startIndex foundIndex);
        [|lia|exact Hp|exact Hmin].
      cbn [map]. f_equal. rewrite IH by lia.
      replace (foundIndex + 1)%nat with (S foundIndex) by lia.
      do 3 f_equal. lia.
    + rewrite filter_seq_none; [reflexivity|].
      intros i Hi. apply (indexOf_none _ _ _ _ E). lia.
Qed.

Lemma findPatternOccurrences_spec (pattern : jsstring)
  (keystrokeData : list Keystroke) :
  findPatternOccurrences pattern keystrokeData
  = map (fun i => slice keystrokeData i (i + List.length pattern))
      (filter (fun i => prefixb pattern (skipn i (chars keystrokeData)))
         (seq 0 (List.length keystrokeData + 1 - List.length pattern))).
Proof.
  unfold findPatternOccurrences.
  rewrite findOccurrencesFrom_all.
  - rewrite Nat.sub_0_r. reflexivity.
  - unfold chars. rewrite length_map. lia.
Qed.

(** X6.  [findPatternOccurrences] returns one slice of the keystroke data
    for every offset at which the pattern occurs in its character
    sequence, overlapping occurrences included, in increasing order of the
    offset. *)
Theorem findPatternOccurrences_finds_every_offset (pattern : jsstring)
  (keystrokeData : list Keystroke) :
  findPatternOccurrences pattern keystrokeData
  = map (fun i => slice keystrokeData i (i + List.length pattern))
      (filter (fun i => Str.eqb (substring (chars keystrokeData) i
                                   (i + List.length pattern)) pattern)
         (seq 0 (List.length keystrokeData + 1 - List.length pattern))).
Proof.
  rewrite findPatternOccurrences_spec. f_equal. apply filter_ext.
  intros i. symmetry. apply occurs_at_prefixb.
Qed.

(* ================================================================== *)
(** * Counting repetitions *)

Lemma substring_length_le (s : jsstring) (a b : nat) :
  (b <= List.length s)%nat ->
  List.length (substring s a b) = (b - a)%nat.
Proof.
  intros H. unfold substring. rewrite length_firstn, length_skipn. lia.
Qed.

Lemma substring_short (s : jsstring) (a L : nat) :
  (1 <= L)%nat -> (List.length s < a + L)%nat ->
  (List.length (substring s a (a + L)) < L)%nat.
Proof.
  intros HL H. rewrite substring_at, length_firstn, length_skipn. lia.
Qed.

(** The loop of [findPatternsOfLength] counts the copies of the pattern
    that follow one another from [nextStart] on, and stops at the first
    block that is not a copy. *)
Lemma countRepetitions_blocks (sequence pattern : jsstring) (L : nat) :
  (1 <= L)%nat -> List.length pattern = L ->
  forall fuel nextStart repetitions,
    (List.length sequence <= nextStart + fuel)%nat ->
    exists k,
      countRepetitions fuel sequence pattern L nextStart repetitions
      = (repetitions + Z.of_nat k)%Z
      /\ (forall j, (j < k)%nat ->
            substring sequence (nextStart + j * L) (nextStart + j * L + L)
            = pattern)
      /\ substring sequence (nextStart + k * L) (nextStart + k * L + L)
         <> pattern.
Proof.
  intros HL Hp. induction fuel as [|fuel IH]; intros nextStart r Hfuel.
  - exists 0%nat. cbn [countRepetitions]. rewrite Nat.add_0_r.
    repeat split; [lia | intros; lia |].
    intros E. apply (f_equal (@List.length ascii)) in E.
    pose proof (substring_short sequence nextStart L). lia.
  - cbn [countRepetitions].
    destruct (Nat.leb_spec (nextStart + L) (List.length sequence))
      as [Hle|Hgt].
    + destruct (Str.eqb _ pattern) eqn:E.
      * apply Str_eqb_eq in E.
        destruct (IH (nextStart + L)%nat (r + 1)%Z) as [k [Hr [Hb Hstop]]];
          [lia|].
        exists (S k). repeat split.
        -- rewrite Hr. lia.
        -- intros [|j] Hj.
           ++ rewrite Nat.add_0_r. exact E.
           ++ replace (nextStart + S j * L)%nat
                with (nextStart + L + j * L)%nat by lia.
              apply Hb. lia.
        -- replace (nextStart + S k * L)%nat
             with (nextStart + L + k * L)%nat by lia.
           exact Hstop.
      * exists 0%nat. rewrite Nat.add_0_r.
        repeat split; [lia | intros; lia |].
        intros E'. apply Str_eqb_eq in E'. congruence.
    + exists 0%nat. rewrite Nat.add_0_r.
      repeat split; [lia | intros; lia |].
      intros E. apply (f_equal (@List.length ascii)) in E.
      pose proof (substring_short sequence nextStart L). lia.
Qed.

Lemma firstn_plus {A} (a b : nat) : forall l : list A,
  firstn (a + b) l = firstn a l ++ firstn b (skipn a l).
Proof.
  induction a as [|a IH]; intros [|x l]; cbn [Nat.add firstn skipn app];
    try reflexivity.
  - rewrite firstn_nil. reflexivity.
  - rewrite IH. reflexivity.
Qed.

Lemma blocks_are_copies (s p : jsstring) (L : nat) : forall k i,
  (forall j, (j < k)%nat -> substring s (i + j * L) (i + j * L + L) = p) ->
  substring s i (i + k * L) = repeat_str p k.
Proof.
  induction k as [|k IH]; intros i Hb.
  - rewrite substring_at. reflexivity.
  - rewrite substring_at. cbn [Nat.mul]. rewrite firstn_plus.
    unfold repeat_str. cbn [repeat List.concat]. f_equal.
    + rewrite <- substring_at. specialize (Hb 0%nat).
      rewrite Nat.add_0_r in Hb. apply Hb. lia.
    + rewrite skipn_skipn. rewrite <- substring_at.
      rewrite (Nat.add_comm L i). apply IH.
      intros j Hj. specialize (Hb (S j)).
      replace (i + S j * L)%nat with (i + L + j * L)%nat in Hb by lia.
      apply Hb. lia.
Qed.

(** X7.  For the candidate at offset [i], a pattern of [L >= 1]
    characters that lies inside the sequence, the repetition count is the
    number [k >= 1] of copies of the pattern that follow one another from
    offset [i] on: the sequence holds [k] copies there, and the block
    after them is not another copy. *)
Theorem repetitions_are_consecutive_copies (sequence : jsstring) (i L : nat) :
  (1 <= L)%nat -> (i + L <= List.length sequence)%nat ->
  let pattern := substring sequence i (i + L) in
  exists k,
    countRepetitions (List.length sequence) sequence pattern L (i + L) 1
    = Z.of_nat k
    /\ (1 <= k)%nat
    /\ substring sequence i (i + k * L) = repeat_str pattern k
    /\ substring sequence (i + k * L) (i + k * L + L) <> pattern.
Proof.
  intros HL Hin pattern.
  assert (Hp : List.length pattern = L).
  { unfold pattern. rewrite substring_length_le by lia. lia. }
  destruct (countRepetitions_blocks sequence pattern L HL Hp
              (List.length sequence) (i + L)%nat 1%Z) as [k [Hr [Hb Hstop]]];
    [lia|].
  exists (S k). repeat split.
  - rewrite Hr. lia.
  - lia.
  - apply blocks_are_copies. intros [|j] Hj.
    + rewrite Nat.add_0_r. reflexivity.
    + replace (i + S j * L)%nat with (i + L + j * L)%nat by lia.
      apply Hb. lia.
  - replace (i + S k * L)%nat with (i + L + k * L)%nat by lia. exact Hstop.
Qed.

Lemma repetitions_are_consecutive_copies_witness :
  let sequence := lit "nanan" in
  let pattern := substring sequence 0 (0 + 2) in
  (1 <= 2)%nat /\ (0 + 2 <= List.length sequence)%nat
  /\ exists k,
       countRepetitions (List.length sequence) sequence pattern 2 (0 + 2) 1
       = Z.of_nat k
       /\ (1 <= k)%nat
       /\ substring sequence 0 (0 + k * 2) = repeat_str pattern k
       /\ substring sequence (0 + k * 2) (0 + k * 2 + 2) <> pattern.
Proof.
  cbv zeta. split; [lia|]. split; [simpl; lia|].
  apply (repetitions_are_consecutive_copies (lit "nanan") 0 2);
    [lia | simpl; lia].
Defined.

(* ================================================================== *)
(** * Registry keys *)

Lemma digits_have_no_underscore (d : Decimal.uint) :
  ~ In "_"%char (lit (NilEmpty.string_of_uint d)).
Proof.
  induction d; cbn [NilEmpty.string_of_uint lit list_ascii_of_string In];
    [tauto | | | | | | | | | |];
    intros [H|H]; try discriminate; exact (IHd H).
Qed.

Lemma of_nat_inj (n m : nat) : Str.of_nat n = Str.of_nat m -> n = m.
Proof.
  unfold Str.of_nat, lit. intros H.
  apply (f_equal string_of_list_ascii) in H.
  rewrite !string_of_list_ascii_of_string in H.
  apply (f_equal NilEmpty.uint_of_string) in H.
  rewrite !NilEmpty.usu in H. injection H as H.
  apply Unsigned.to_uint_inj, H.
Qed.

(** Splitting at the last occurrence of a separator. *)
Lemma split_at_last {A} (u : A) (a : list A) : forall a' d d',
  ~ In u d -> ~ In u d' -> a ++ u :: d = a' ++ u :: d' -> a = a' /\ d = d'.
Proof.
  induction a as [|x a IH]; intros [|x' a'] d d' Hd Hd' H;
    cbn [app] in H.
  - injection H as H. split; [reflexivity | exact H].
  - injection H as Hx H. subst d. exfalso. apply Hd.
    apply in_or_app. right. left. reflexivity.
  - injection H as Hx H. subst d'. exfalso. apply Hd'.
    apply in_or_app. right. left. reflexivity.
  - injection H as Hx H. destruct (IH a' d d' Hd Hd' H) as [-> ->].
    subst x'. split; reflexivity.
Qed.

(** X8.  The registry key determines the content and the length: two
    candidates share a key only if they have the same content and the
    same length. *)
Theorem patternKey_is_injective (p p' : jsstring) (L L' : nat) :
  patternKey p L = patternKey p' L' <-> p = p' /\ L = L'.
Proof.
  split; [|intros [-> ->]; reflexivity].
  unfold patternKey. change (lit "_") with ["_"%char]. cbn [app].
  intros H. apply split_at_last in H;
    [|apply digits_have_no_underscore|apply digits_have_no_underscore].
  destruct H as [Hp HL]. split; [exact Hp | apply of_nat_inj, HL].
Qed.

Lemma patternKey_inj (p p' : jsstring) (L L' : nat) :
  patternKey p L = patternKey p' L' -> p = p' /\ L = L'.
Proof.
  unfold patternKey. change (lit "_") with ["_"%char]. cbn [app].
  intros H. apply split_at_last in H;
    [|apply digits_have_no_underscore|apply digits_have_no_underscore].
  destruct H as [Hp HL]. split; [exact Hp | apply of_nat_inj, HL].
Qed.

(* ================================================================== *)
(** * The store *)

Lemma store_update_length (st : list PatternObj) (f : PatternObj -> PatternObj) :
  forall l, List.length (store_update st l f) = List.length st.
Proof.
  induction st as [|p st IH]; intros [|l]; cbn [store_update List.length];
    try reflexivity.
  rewrite IH. reflexivity.
Qed.

Lemma deref_update_same (st : list PatternObj) (f : PatternObj -> PatternObj) :
  forall l, (l < List.length st)%nat ->
  deref (store_update st l f) l = f (deref st l).
Proof.
  induction st as [|p st IH]; intros [|l] Hl; cbn [List.length] in Hl;
    try lia; [reflexivity|].
  cbn [store_update]. unfold deref in *. cbn [nth]. apply IH. lia.
Qed.

Lemma deref_update_other (st : list PatternObj) (f : PatternObj -> PatternObj) :
  forall l l', l <> l' -> deref (store_update st l f) l' = deref st l'.
Proof.
  induction st as [|p st IH]; intros [|l] [|l'] Hne; try reflexivity;
    [congruence|].
  cbn [store_update]. unfold deref in *. cbn [nth]. apply IH. congruence.
Qed.

(** An object after an update of the store is the object before, or the
    update of it. *)
Lemma deref_update_cases (st : list PatternObj) (f : PatternObj -> PatternObj)
  (l l' : loc) :
  deref (store_update st l f) l' = deref st l'
  \/ ((l' < List.length st)%nat
      /\ deref (store_update st l f) l' = f (deref st l')).
Proof.
  destruct (Nat.eq_dec l l') as [->|Hne].
  - destruct (Nat.lt_ge_cases l' (List.length st)) as [Hlt|Hge].
    + right. split; [exact Hlt | apply deref_update_same, Hlt].
    + left. unfold deref. rewrite !nth_overflow;
        [reflexivity | exact Hge | rewrite store_update_length; exact Hge].
  - left. apply deref_update_other, Hne.
Qed.

Lemma deref_app_old (st : list PatternObj) (p : PatternObj) (l : loc) :
  (l < List.length st)%nat -> deref (st ++ [p]) l = deref st l.
Proof. intros H. unfold deref. apply app_nth1, H. Qed.

Lemma deref_app_new (st : list PatternObj) (p : PatternObj) :
  deref (st ++ [p]) (List.length st) = p.
Proof. unfold deref. rewrite app_nth2, Nat.sub_diag by lia. reflexivity. Qed.

Lemma deref_In (st : list PatternObj) (l : loc) :
  (l < List.length st)%nat -> In (deref st l) st.
Proof. intros H. unfold deref. apply nth_In, H. Qed.

(* ================================================================== *)
(** * The rhythm of a pattern *)

Lemma slice_length {A} (l : list A) (from n : nat) :
  (from + n <= List.length l)%nat ->
  List.length (slice l from (from + n)) = n.
Proof.
  intros H. unfold slice. rewrite length_firstn, length_skipn. lia.
Qed.

Lemma JsMap_set_nonempty {K V} (keq : K -> K -> bool) (m : list (K * V))
  (k : K) (v : V) : JsMap.set keq m k v <> [].
Proof.
  destruct m as [|[k' v'] m]; cbn [JsMap.set]; [discriminate|].
  destruct (keq k' k); discriminate.
Qed.

Lemma countKey_keys (P : list NoteValue -> Prop) (rhythms : list (list NoteValue)) :
  Forall P rhythms ->
  forall acc, Forall (fun kn => P (fst kn)) acc ->
  Forall (fun kn => P (fst kn)) (fold_left countKey rhythms acc).
Proof.
  induction 1 as [|k rhythms Hk _ IH]; intros acc Hacc; [exact Hacc|].
  cbn [fold_left]. apply IH. unfold countKey.
  apply JsMap_set_Forall; [exact Hacc | | exact Hk].
  intros k' Hk'. apply rhythmKey_eqb_eq in Hk'. subst k'. exact Hk.
Qed.

Lemma countKey_nonempty (rhythms : list (list NoteValue)) :
  forall acc, acc <> [] \/ rhythms <> [] ->
  fold_left countKey rhythms acc <> [].
Proof.
  induction rhythms as [|k rhythms IH]; intros acc H.
  - destruct H as [H|H]; [exact H | congruence].
  - cbn [fold_left]. apply IH. left. apply JsMap_set_nonempty.
Qed.

Lemma splitKey_length (k : list NoteValue) :
  k <> [] -> List.length (splitKey k) = List.length k.
Proof.
  destruct k; [congruence|]. intros _. unfold splitKey. apply length_map.
Qed.

(** For a pattern of at least two characters that occurs in the keystroke
    data, the rhythm analysis returns a rhythm of one category per
    interval of the pattern. *)
Lemma analyzePatternRhythm_some (tempo : float) (pattern : jsstring)
  (keystrokeData : list Keystroke) (i : nat) :
  (2 <= List.length pattern)%nat ->
  (i + List.length pattern <= List.length keystrokeData)%nat ->
  substring (chars keystrokeData) i (i + List.length pattern) = pattern ->
  exists r, analyzePatternRhythm tempo pattern keystrokeData = Some r
            /\ List.length (rhythm r) = (List.length pattern - 1)%nat.
Proof.
  intros Hlen Hin Hocc. unfold analyzePatternRhythm.
  rewrite findPatternOccurrences_spec.
  set (idxs := filter _ _).
  assert (Hi : In i idxs).
  { unfold idxs. apply filter_In. split; [apply in_seq; lia|].
    rewrite <- occurs_at_prefixb. apply Str_eqb_eq, Hocc. }
  assert (Hidx : forall j, In j idxs ->
            (j + List.length pattern <= List.length keystrokeData)%nat).
  { intros j Hj. unfold idxs in Hj. apply filter_In in Hj.
    destruct Hj as [Hj _]. apply in_seq in Hj. lia. }
  set (occs := map _ idxs).
  assert (Hoccs : Forall (fun occ => List.length occ = List.length pattern) occs).
  { unfold occs. apply Forall_map, Forall_forall. intros j Hj.
    apply slice_length, Hidx, Hj. }
  assert (Hne : occs <> []).
  { unfold occs. destruct idxs; [destruct Hi | discriminate]. }
  destruct occs as [|occ occs'] eqn:Eoccs; [congruence|]. rewrite <- Eoccs.
  cbv zeta.
  set (rhythms := map _ occs).
  assert (Hrh : Forall (fun k => List.length k = (List.length pattern - 1)%nat)
                  rhythms).
  { unfold rhythms. apply Forall_map. rewrite Eoccs.
    eapply Forall_impl; [|exact Hoccs].
    intros o Ho. cbv beta. rewrite length_map, intervalsOf_length, Ho.
    reflexivity. }
  assert (Hcounts : Forall (fun kn => List.length (fst kn)
                                      = (List.length pattern - 1)%nat)
                      (fold_left countKey rhythms [])).
  { apply (countKey_keys _ rhythms Hrh). constructor. }
  assert (Hcne : fold_left countKey rhythms [] <> []).
  { apply countKey_nonempty. right. unfold rhythms. rewrite Eoccs.
    discriminate. }
  destruct (jsSort _ (fold_left countKey rhythms [])) as [|[k n] rest] eqn:Es.
  - exfalso. destruct (fold_left countKey rhythms []) as [|kn m] eqn:Ef;
      [congruence|].
    assert (Hin' : In kn (jsSort (fun a b => (snd a <? snd b)%Z) (kn :: m)))
      by (apply jsSort_In; left; reflexivity).
    rewrite Es in Hin'. destruct Hin'.
  - eexists. split; [reflexivity|]. cbn [rhythm].
    assert (Hk : In (k, n) (fold_left countKey rhythms [])).
    { apply (jsSort_In (fun a b => (snd a <? snd b)%Z)). rewrite Es.
      left. reflexivity. }
    rewrite Forall_forall in Hcounts. specialize (Hcounts _ Hk).
    cbn [fst] in Hcounts. rewrite splitKey_length; [exact Hcounts|].
    intros ->. cbn [List.length] in Hcounts. lia.
Qed.

(* ================================================================== *)
(** * The registries after keystroke processing *)

Lemma hoare_keeps {A} (I : Engine -> Prop) (m : Eff A) :
  hoare I m (fun _ => I) -> keeps I m anything.
Proof. intros H w Hw. split; [apply H, Hw | exact Logic.I]. Qed.

Lemma keeps_to_hoare {A} (I : Engine -> Prop) (m : Eff A) :
  keeps I m anything -> hoare I m (fun _ => I).
Proof. intros H w Hw. apply H, Hw. Qed.

(** Code that only reads. *)
Lemma hoare_reads {A} (P : Engine -> Prop) (m : Eff A) :
  (forall w, engine (snd (m w)) = engine w) -> hoare P m (fun _ => P).
Proof. intros H w Hw. rewrite H. exact Hw. Qed.

Lemma calculatePatternScore_reads (l : loc) (repetitions : Z) (w : World) :
  engine (snd (calculatePatternScore l repetitions w)) = engine w.
Proof. apply (unchanged_field (fun e => e)). intros b. frame. Qed.

Lemma calculateFreshnessPenalty_reads (l : loc) (w : World) :
  engine (snd (calculateFreshnessPenalty l w)) = engine w.
Proof. apply (unchanged_field (fun e => e)). intros b. frame. Qed.

Lemma hoare_readObj (P : Engine -> Prop) (l : loc) :
  hoare P (readObj l) (fun p e => P e /\ p = deref (store e) l).
Proof. apply hoare_read. Qed.

Lemma hoare_alloc (P : Engine -> Prop) (p : PatternObj) :
  hoare P (alloc p)
    (fun l e' => exists e, P e /\ l = List.length (store e)
                           /\ e' = with_store (fun st => st ++ [p]) e).
Proof.
  intros w Hw. exists (engine w). repeat split. exact Hw.
Qed.

Lemma store_update_Forall (P : PatternObj -> Prop)
  (f : PatternObj -> PatternObj) (st : list PatternObj) : forall l,
  Forall P st -> (P (deref st l) -> P (f (deref st l))) ->
  Forall P (store_update st l f).
Proof.
  induction st as [|p st IH]; intros l Hst Hf; [constructor|].
  inversion Hst; subst. destruct l as [|l]; cbn [store_update].
  - constructor; [apply Hf; assumption | assumption].
  - constructor; [assumption | apply IH; assumption].
Qed.

Lemma stored_in_range (e : Engine) (l : loc) :
  registryInv e -> (l < List.length (store e))%nat ->
  storedOk (deref (store e) l).
Proof.
  intros [Hst _] Hl. rewrite Forall_forall in Hst. apply Hst, deref_In, Hl.
Qed.

(** An assignment to the object at [l] keeps the invariant when it keeps
    what the invariant says of that object. *)
Lemma registryInv_assign (e : Engine) (l : loc) (f : PatternObj -> PatternObj) :
  registryInv e ->
  (storedOk (deref (store e) l) -> storedOk (f (deref (store e) l))) ->
  (registeredOk (deref (store e) l) -> registeredOk (f (deref (store e) l))) ->
  pattern (f (deref (store e) l)) = pattern (deref (store e) l) ->
  patternLength (f (deref (store e) l)) = patternLength (deref (store e) l) ->
  registryInv (with_store (fun st => store_update st l f) e).
Proof.
  intros [Hst [Hreg [Hhier Hlearned]]] Hs Hr Hp HL.
  unfold registryInv.
  cbn [store detectedPatterns hierarchicalPatterns learnedPatterns with_store].
  assert (Hsame : forall l',
            pattern (deref (store_update (store e) l f) l')
            = pattern (deref (store e) l')
            /\ patternLength (deref (store_update (store e) l f) l')
               = patternLength (deref (store e) l')
            /\ (registeredOk (deref (store e) l') ->
                registeredOk (deref (store_update (store e) l f) l'))).
  { intros l'. destruct (Nat.eq_dec l l') as [<-|Hne].
    - destruct (Nat.lt_ge_cases l (List.length (store e))) as [Hlt|Hge].
      + rewrite deref_update_same by exact Hlt. auto.
      + unfold deref. rewrite !nth_overflow;
          [auto | exact Hge | rewrite store_update_length; exact Hge].
    - rewrite deref_update_other by exact Hne. auto. }
  split; [apply store_update_Forall; assumption|].
  split; [|split; [|exact Hlearned]].
  - eapply Forall_impl; [|exact Hreg].
    intros [k l'] [Hl' [Hk Hok]]. unfold registryEntryOk. cbn [fst snd] in *.
    destruct (Hsame l') as [Ep [EL Er]].
    split; [rewrite store_update_length; exact Hl'|].
    split; [rewrite Ep, EL; exact Hk | apply Er, Hok].
  - eapply Forall_impl; [|exact Hhier].
    intros [k h] [Hpl [Hcl [Hk Hinc]]]. unfold hierarchyEntryOk.
    cbn [fst snd] in *.
    destruct (Hsame (parent h)) as [Epp _].
    destruct (Hsame (child h)) as [Epc _].
    rewrite !store_update_length, Epp, Epc. auto.
Qed.

Lemma candidateInv_assign (e : Engine) (l : loc) (f : PatternObj -> PatternObj)
  (known known' : PatternObj -> Prop) :
  candidateInv l known e ->
  (known (deref (store e) l) -> storedOk (deref (store e) l) ->
   storedOk (f (deref (store e) l))
   /\ (registeredOk (deref (store e) l) ->
       registeredOk (f (deref (store e) l)))
   /\ pattern (f (deref (store e) l)) = pattern (deref (store e) l)
   /\ patternLength (f (deref (store e) l))
      = patternLength (deref (store e) l)
   /\ known' (f (deref (store e) l))) ->
  candidateInv l known' (with_store (fun st => store_update st l f) e).
Proof.
  intros [He [Hl Hk]] Hf.
  destruct (Hf Hk (stored_in_range e l He Hl)) as [Hs [Hr [Hp [HL Hk']]]].
  split; [apply registryInv_assign; auto|].
  cbn [store with_store]. rewrite store_update_length.
  split; [exact Hl|]. rewrite deref_update_same by exact Hl. exact Hk'.
Qed.

Lemma registryInv_alloc (e : Engine) (p : PatternObj) :
  registryInv e -> storedOk p ->
  registryInv (with_store (fun st => st ++ [p]) e).
Proof.
  intros [Hst [Hreg [Hhier Hlearned]]] Hp. unfold registryInv.
  cbn [store detectedPatterns hierarchicalPatterns learnedPatterns with_store].
  split; [apply Forall_app; split; [exact Hst | constructor; [exact Hp | constructor]]|].
  split; [|split; [|exact Hlearned]].
  - eapply Forall_impl; [|exact Hreg].
    intros [k l'] [Hl' [Hk Hok]]. unfold registryEntryOk. cbn [fst snd] in *.
    rewrite deref_app_old by exact Hl'.
    split; [rewrite length_app; lia | auto].
  - eapply Forall_impl; [|exact Hhier].
    intros [k h] [Hpl [Hcl [Hk Hinc]]]. unfold hierarchyEntryOk.
    cbn [fst snd] in *.
    rewrite !deref_app_old by assumption.
    rewrite length_app. repeat split; (lia || assumption).
Qed.

Lemma hoare_assign (P : Engine -> Prop) (l : loc) (f : PatternObj -> PatternObj)
  (Q : Engine -> Prop) :
  (forall e, P e -> Q (with_store (fun st => store_update st l f) e)) ->
  hoare P (assign l f) (fun _ => Q).
Proof. intros H. apply hoare_modify. exact H. Qed.

Lemma storedOk_set_frequency (v : Z) (p : PatternObj) :
  (0 <= v)%Z -> storedOk p -> storedOk (set_frequency v p).
Proof. intros Hv [H1 [H2 [H3 _]]]. repeat split; try apply H2; assumption. Qed.

Lemma registeredOk_set_frequency (v : Z) (p : PatternObj) :
  (2 <= v)%Z -> registeredOk p -> registeredOk (set_frequency v p).
Proof. intros Hv [_ Hr]. split; [exact Hv | exact Hr]. Qed.

(** One round of the sliding window keeps the invariant, when the
    character sequence is the one of the keystroke data and the candidate
    and its first repetition lie inside it. *)
Lemma considerCandidate_registry (keystrokeData : list Keystroke)
  (len i : nat) :
  (2 <= len <= 16)%nat ->
  (i + 2 * len <= List.length keystrokeData)%nat ->
  hoare registryInv
    (considerCandidate (chars keystrokeData) len keystrokeData i)
    (fun _ => registryInv).
Proof.
  intros HL Hi. unfold considerCandidate.
  assert (Hn : List.length (chars keystrokeData) = List.length keystrokeData)
    by apply length_map.
  set (pat := substring (chars keystrokeData) i (i + len)).
  assert (Hpat : List.length pat = len).
  { unfold pat. rewrite substring_length_le by lia. lia. }
  cbv zeta.
  destruct (isSpamPattern pat) eqn:Hspam; [apply hoare_ret; auto|].
  set (reps := countRepetitions _ _ _ _ _ _).
  destruct (Z.leb_spec 2 reps) as [Hreps|_]; [|apply hoare_ret; auto].
  clearbody reps.
  destruct (calculatePatternQuality pat <? 0.3)%float eqn:Hq;
    [apply hoare_ret; auto|].
  assert (Hdet : detectable pat).
  { split; [lia | split; assumption]. }
  set (key := patternKey pat len).
  set (known0 := fun p : PatternObj =>
                   pattern p = pat /\ patternLength p = len).
  set (known1 := fun p : PatternObj => known0 p /\ (2 <= frequency p)%Z).
  set (known2 := fun p : PatternObj => known1 p /\ registeredOk p).
  eapply hoare_bind; [apply hoare_read|]. intros found. cbv beta.
  eapply hoare_bind with (R := fun l => candidateInv l known0).
  { destruct found as [l|].
    - apply hoare_ret. intros e [He Hfound]. symmetry in Hfound.
      apply JsMap_get_In in Hfound. destruct Hfound as [k' [Hin Hk]].
      apply Str_eqb_eq in Hk. subst k'.
      pose proof He as [_ [Hreg _]]. rewrite Forall_forall in Hreg.
      destruct (Hreg _ Hin) as [Hl [Hkey _]]. cbn [fst snd] in *.
      apply patternKey_inj in Hkey. destruct Hkey as [Hp HL'].
      split; [exact He | split; [exact Hl | split; congruence]].
    - eapply hoare_bind; [apply hoare_now|]. intros now.
      eapply hoare_conseq; [apply hoare_alloc | intros e He; exact He |].
      intros l e' [e [[He _] [-> ->]]].
      split; [apply registryInv_alloc; [exact He|]|].
      + split; [cbn [pattern patternLength]; congruence|].
        split; [exact Hdet|]. split; [reflexivity | cbn [frequency]; lia].
      + cbn [store with_store]. rewrite length_app, deref_app_new.
        cbn [List.length]. split; [lia | split; reflexivity]. }
  intros l.
  eapply hoare_bind; [apply hoare_readObj|]. intros p. cbv beta.
  eapply hoare_bind with (R := fun _ => candidateInv l known1).
  { apply hoare_assign. intros e [He ->].
    eapply candidateInv_assign; [exact He|].
    intros Hk Hs. pose proof Hs as [_ [_ [_ Hf]]].
    split; [apply storedOk_set_frequency; [lia | exact Hs]|].
    split; [apply registeredOk_set_frequency; lia|].
    split; [reflexivity|]. split; [reflexivity|].
    split; [exact Hk | cbn [frequency set_frequency]; lia]. }
  intros ?.
  eapply hoare_bind; [apply hoare_now|]. intros now.
  eapply hoare_bind with (R := fun _ => candidateInv l known1).
  { apply hoare_assign. intros e He.
    eapply candidateInv_assign; [exact He|].
    intros Hk Hs.
    split; [exact Hs|]. split; [intros Hr; exact Hr|].
    split; [reflexivity|]. split; [reflexivity | exact Hk]. }
  intros ?.
  eapply hoare_bind;
    [apply hoare_reads; intros; apply calculatePatternScore_reads|].
  intros s.
  eapply hoare_bind with (R := fun _ => candidateInv l known1).
  { apply hoare_assign. intros e He.
    eapply candidateInv_assign; [exact He|].
    intros Hk Hs.
    split; [exact Hs|]. split; [intros Hr; exact Hr|].
    split; [reflexivity|]. split; [reflexivity | exact Hk]. }
  intros ?.
  eapply hoare_bind; [apply hoare_read|]. intros tempo. cbv beta.
  eapply hoare_bind with (R := fun _ => candidateInv l known2).
  { apply hoare_assign. intros e [He _].
    eapply candidateInv_assign; [exact He|].
    intros Hk Hs.
    destruct (analyzePatternRhythm_some tempo pat keystrokeData i)
      as [r [Hr Hrlen]]; [lia | lia | rewrite Hpat; reflexivity|].
    rewrite Hr.
    assert (Hreg : registeredOk
                     (set_rhythmInfo (Some r) (deref (store e) l))).
    { split; [apply Hk|]. exists r. split; [reflexivity|].
      cbn [patternLength set_rhythmInfo]. destruct Hk as [[_ HpL] _].
      rewrite HpL.
      rewrite Hrlen, Hpat. reflexivity. }
    split; [exact Hs|]. split; [intros _; exact Hreg|].
    split; [reflexivity|]. split; [reflexivity|].
    split; [exact Hk | exact Hreg]. }
  intros ?.
  eapply hoare_bind;
    [apply hoare_reads; intros; apply calculateFreshnessPenalty_reads|].
  intros freshnessPenalty.
  eapply hoare_bind; [apply hoare_readObj|]. intros p'. cbv beta.
  eapply hoare_bind with (R := fun _ => candidateInv l known2).
  { apply hoare_assign. intros e [He _].
    eapply candidateInv_assign; [exact He|].
    intros Hk Hs.
    split; [exact Hs|]. split; [intros Hr; exact Hr|].
    split; [reflexivity|]. split; [reflexivity | exact Hk]. }
  intros ?.
  eapply hoare_bind; [apply hoare_readObj|]. intros p''. cbv beta.
  destruct (gtb (score p'') 1.0).
  - apply hoare_modify. intros e [[He [Hl Hk]] _].
    destruct He as [Hst [Hreg Hrest]].
    split; [exact Hst|]. split; [|exact Hrest].
    cbn [store detectedPatterns with_detectedPatterns].
    assert (Hnew : registryEntryOk (store e) (key, l)).
    { destruct Hk as [[[Hp HpL] _] Hr].
      split; [exact Hl|]. split; [|exact Hr].
      cbn [fst snd]. rewrite Hp, HpL. reflexivity. }
    apply JsMap_set_Forall; [exact Hreg | | exact Hnew].
    intros k' Hk'. apply Str_eqb_eq in Hk'. subst k'. exact Hnew.
  - apply hoare_ret. intros e [[He _] _]. exact He.
Qed.

Lemma findPatternsOfLength_registry (keystrokeData : list Keystroke)
  (len : nat) :
  (2 <= len <= 16)%nat ->
  hoare registryInv
    (findPatternsOfLength (chars keystrokeData) len keystrokeData)
    (fun _ => registryInv).
Proof.
  intros HL. unfold findPatternsOfLength. apply hoare_forEach.
  intros i Hi. apply in_seq in Hi.
  apply considerCandidate_registry; [exact HL|].
  unfold chars in Hi. rewrite length_map in Hi. lia.
Qed.

Lemma nestedPairs_In (a b : loc) (l : list loc) :
  In (a, b) (nestedPairs l) -> In a l /\ In b l.
Proof.
  induction l as [|x l IH]; cbn [nestedPairs]; [intros []|].
  intros H. apply in_app_or in H. destruct H as [H|H].
  - apply in_map_iff in H. destruct H as [y [[= <- <-] Hy]].
    split; [left; reflexivity | right; exact Hy].
  - destruct (IH H). split; right; assumption.
Qed.

Lemma aboveThreshold_in_range (e : Engine) (l : loc) :
  registryInv e -> In l (aboveThreshold e) ->
  (l < List.length (store e))%nat.
Proof.
  intros [_ [Hreg _]] Hl. unfold aboveThreshold in Hl.
  apply filter_In in Hl. destruct Hl as [Hl _].
  apply in_map_iff in Hl. destruct Hl as [[k l'] [<- Hin]].
  rewrite Forall_forall in Hreg. apply (Hreg _ Hin).
Qed.

Lemma findNestedPatterns_registry :
  hoare registryInv findNestedPatterns (fun _ => registryInv).
Proof.
  unfold findNestedPatterns. apply hoare_modify. intros e He.
  pose proof He as [Hst [Hreg [Hhier Hrest]]].
  split; [exact Hst|]. split; [exact Hreg|]. split; [|exact Hrest].
  cbn [store hierarchicalPatterns with_hierarchicalPatterns].
  set (allPatterns := jsSort _ (aboveThreshold e)).
  assert (Hall : forall pc, In pc (nestedPairs allPatterns) ->
            (fst pc < List.length (store e))%nat
            /\ (snd pc < List.length (store e))%nat).
  { intros [a b] Hin. apply nestedPairs_In in Hin. destruct Hin as [Ha Hb].
    unfold allPatterns in Ha, Hb. apply jsSort_In in Ha, Hb.
    split; apply aboveThreshold_in_range; assumption. }
  revert Hall Hhier. generalize (hierarchicalPatterns e) as h.
  induction (nestedPairs allPatterns) as [|pc pairs IH]; intros h Hall Hh;
    [exact Hh|].
  cbn [fold_left]. apply IH; [intros; apply Hall; right; assumption|].
  destruct (Hall pc (or_introl eq_refl)) as [Hp Hc].
  destruct (includes _ _) eqn:Hinc; [|exact Hh].
  assert (Hnew : hierarchyEntryOk (store e)
            (nestedKey (pattern (deref (store e) (fst pc)))
               (pattern (deref (store e) (snd pc))),
             {| parent := fst pc; child := snd pc;
                nestingScore := (score (deref (store e) (fst pc))
                                 * score (deref (store e) (snd pc)))%float |})).
  { repeat split; assumption. }
  apply JsMap_set_Forall; [exact Hh | | exact Hnew].
  intros k' Hk'. apply Str_eqb_eq in Hk'. subst k'. exact Hnew.
Qed.

Lemma decayStep_registry (kl : jsstring * loc) :
  hoare registryInv (decayStep kl) (fun _ => registryInv).
Proof.
  unfold decayStep.
  eapply hoare_bind; [apply hoare_now|]. intros now.
  eapply hoare_bind; [apply hoare_readObj|]. intros p. cbv beta.
  apply hoare_assign. intros e [He _].
  apply registryInv_assign; auto.
Qed.

Lemma sortInsert_Permutation {A} (gt : A -> A -> bool) (x : A) (l : list A) :
  Permutation (sortInsert gt x l) (x :: l).
Proof.
  induction l as [|y l IH]; cbn [sortInsert]; [reflexivity|].
  destruct (gt x y); [|reflexivity].
  rewrite IH. apply perm_swap.
Qed.

Lemma jsSort_Permutation {A} (gt : A -> A -> bool) (l : list A) :
  Permutation (jsSort gt l) l.
Proof.
  induction l as [|x l IH]; [reflexivity|].
  cbn [jsSort fold_right]. fold (jsSort gt l).
  rewrite sortInsert_Permutation, IH. reflexivity.
Qed.

Lemma NoDup_firstn {A} (n : nat) (l : list A) : NoDup l -> NoDup (firstn n l).
Proof.
  intros H. rewrite <- (firstn_skipn n l) in H.
  apply NoDup_app_remove_r in H. exact H.
Qed.

Lemma not_learned_not_in (p : jsstring) (ls : list Learned) :
  existsb (fun x => Str.eqb (learned_pattern x) p) ls = false ->
  ~ In p (map learned_pattern ls).
Proof.
  intros H Hin. apply in_map_iff in Hin. destruct Hin as [x [Hx Hin]].
  assert (Ht : existsb (fun x => Str.eqb (learned_pattern x) p) ls = true).
  { apply existsb_exists. exists x. split; [exact Hin|].
    apply Str_eqb_eq, Hx. }
  congruence.
Qed.

Lemma learnStep_registry (top : list loc) (l : loc) :
  In l top ->
  hoare (fun e => registryInv e
                  /\ Forall (fun l => (l < List.length (store e))%nat) top)
    (learnStep l)
    (fun _ e => registryInv e
                /\ Forall (fun l => (l < List.length (store e))%nat) top).
Proof.
  intros Hl. unfold learnStep.
  eapply hoare_bind; [apply hoare_readObj|]. intros p. cbv beta.
  eapply hoare_bind; [apply hoare_read|]. intros learned. cbv beta.
  destruct (negb _ && gtb _ _) eqn:Hcond.
  2:{ apply hoare_ret. intros e [[He _] _]. exact He. }
  apply andb_true_iff in Hcond. destruct Hcond as [Hnew Hstrong].
  apply negb_true_iff in Hnew.
  eapply hoare_bind; [apply hoare_now|]. intros now.
  apply hoare_modify. intros e [[[He Htop] ->] ->].
  split; [|exact Htop].
  destruct He as [Hst [Hreg [Hhier [Hlearned [Hnodup Hcount]]]]].
  split; [exact Hst|]. split; [exact Hreg|]. split; [exact Hhier|].
  cbn [store learnedPatterns with_learnedPatterns].
  set (x := {| learned_pattern := pattern (deref (store e) l);
               learnedAt := now;
               strength := score (deref (store e) l);
               category := categorizePattern (deref (store e) l) |}).
  set (pushed := learnedPatterns e ++ [x]).
  set (sorted := jsSort _ pushed).
  assert (Hx : learnedOk x).
  { split; [|exact Hstrong]. cbn [learned_pattern x].
    rewrite Forall_forall in Htop, Hst.
    apply (Hst (deref (store e) l)), deref_In, Htop, Hl. }
  assert (Hpushed : Forall learnedOk pushed /\ NoDup (map learned_pattern pushed)).
  { split.
    - apply Forall_app. split; [exact Hlearned | constructor; [exact Hx | constructor]].
    - unfold pushed. rewrite map_app. cbn [map].
      apply NoDup_app; [exact Hnodup | constructor; [intros [] | constructor] |].
      intros y Hy [<-|[]]. revert Hy. apply not_learned_not_in, Hnew. }
  assert (Hsorted : Forall learnedOk sorted /\ NoDup (map learned_pattern sorted)).
  { destruct Hpushed as [H1 H2]. split.
    - apply Forall_forall. intros y Hy. unfold sorted in Hy.
      apply jsSort_In in Hy. rewrite Forall_forall in H1. apply H1, Hy.
    - eapply Permutation_NoDup; [|exact H2].
      apply Permutation_map. symmetry. apply jsSort_Permutation. }
  destruct Hsorted as [H1 H2].
  destruct (Nat.ltb_spec 50 (List.length sorted)) as [Hgt|Hle].
  - split; [|split].
    + apply Forall_forall. intros y Hy. apply firstn_incl in Hy.
      rewrite Forall_forall in H1. apply H1, Hy.
    + rewrite <- firstn_map. apply NoDup_firstn, H2.
    + apply firstn_at_most.
  - split; [exact H1 | split; [exact H2 | exact Hle]].
Qed.

Lemma scoreAndRankPatterns_registryInv :
  hoare registryInv scoreAndRankPatterns (fun _ => registryInv).
Proof.
  unfold scoreAndRankPatterns.
  eapply hoare_bind; [apply hoare_now|]. intros now. cbv zeta.
  eapply hoare_bind with (R := fun _ => registryInv).
  { apply hoare_modify. intros e [Hst [Hreg Hrest]].
    split; [exact Hst|]. split; [|exact Hrest].
    cbn [store detectedPatterns with_detectedPatterns].
    apply Forall_forall. intros kl Hkl. apply filter_In in Hkl.
    rewrite Forall_forall in Hreg. apply Hreg, Hkl. }
  intros ?.
  eapply hoare_bind; [apply hoare_read|]. intros entries. cbv beta.
  eapply hoare_bind with (R := fun _ => registryInv).
  { eapply hoare_conseq;
      [apply hoare_forEach; intros kl _; apply decayStep_registry
      | intros e [He _]; exact He
      | intros ? e He; exact He]. }
  intros ?.
  eapply hoare_bind; [apply hoare_read|]. intros top. cbv beta.
  eapply hoare_conseq;
    [apply (hoare_forEach
              (fun e => registryInv e
                        /\ Forall (fun l => (l < List.length (store e))%nat)
                             top));
     intros l Hl; apply learnStep_registry, Hl
    | | intros ? e [He _]; exact He].
  intros e [He ->]. split; [exact He|].
  apply Forall_forall. intros l Hl. unfold topPatterns in Hl.
  apply firstn_incl in Hl. apply jsSort_In in Hl.
  apply aboveThreshold_in_range; assumption.
Qed.

Lemma patternLengths_range (n L : nat) :
  (n <= 32)%nat -> In L (patternLengths n) -> (2 <= L <= 16)%nat.
Proof.
  intros Hn HL. unfold patternLengths, minPatternLength, maxPatternLength in HL.
  apply in_seq in HL.
  assert (n / 2 <= 16)%nat by (apply Nat.Div0.div_le_upper_bound; lia).
  lia.
Qed.

Lemma analyzePatterns_registry :
  hoare registryInv analyzePatterns (fun _ => registryInv).
Proof.
  unfold analyzePatterns.
  eapply hoare_bind; [apply hoare_read|]. intros h. cbv beta.
  destruct (_ <? _)%nat; [apply hoare_ret; intros e [He _]; exact He|].
  cbv zeta.
  eapply hoare_bind with (R := fun _ => registryInv).
  { eapply hoare_conseq;
      [apply hoare_forEach | intros e [He _]; exact He | intros ? e He; exact He].
    intros L HL. apply findPatternsOfLength_registry.
    apply (patternLengths_range (List.length (lastN 32 h))); [|exact HL].
    rewrite lastN_length. lia. }
  intros ?.
  eapply hoare_bind; [apply findNestedPatterns_registry|]. intros ?.
  apply scoreAndRankPatterns_registryInv.
Qed.

Lemma recordKeystroke_registry (c : ascii) (time : Z) :
  keeps registryInv (recordKeystroke c time) anything.
Proof.
  frame_with ltac:(apply hoare_keeps, analyzePatterns_registry).
Qed.

Lemma run_registryInv (evs : list KeyEvent) : registryInv (run evs).
Proof.
  apply run_invariant; [|apply recordKeystroke_registry].
  repeat split; try constructor. cbn. lia.
Qed.

(* ================================================================== *)
(** * Comparisons of binary64 values *)

Lemma SFcompare_antisym (x y : spec_float) (c : comparison) :
  SFcompare x y = Some c -> SFcompare y x = Some (CompOpp c).
Proof.
  destruct x as [sx|sx| |sx mx ex], y as [sy|sy| |sy my ey];
    cbn [SFcompare]; try discriminate; intros [= <-];
    try (destruct sx; reflexivity); try (destruct sy; reflexivity);
    try (destruct sx, sy; reflexivity).
  destruct sx, sy; try reflexivity;
    rewrite (Z.compare_antisym ex ey); destruct (ex ?= ey)%Z;
    cbn [CompOpp]; try reflexivity.
  - rewrite CompOpp_involutive.
    rewrite (Pos.compare_cont_antisym my mx Eq). reflexivity.
  - rewrite (Pos.compare_cont_antisym mx my Eq). reflexivity.
Qed.

(** For two values that compare, "not below" is "at least". *)
Lemma not_ltb_is_leb (c x y : float) :
  (c <=? x)%float = true -> (y <=? y)%float = true ->
  (x <? y)%float = false -> (y <=? x)%float = true.
Proof.
  rewrite !FloatAxioms.leb_spec, FloatAxioms.ltb_spec.
  unfold SFleb, SFltb. intros Hc Hy Hlt.
  destruct (SFcompare (Prim2SF x) (Prim2SF y)) as [cmp|] eqn:E.
  - rewrite (SFcompare_antisym _ _ _ E).
    destruct cmp; [reflexivity | discriminate | reflexivity].
  - exfalso. destruct (Prim2SF x) as [sx|sx| |sx mx ex] eqn:Ex.
    + destruct (Prim2SF y); cbn in E, Hy; congruence.
    + destruct (Prim2SF y); cbn in E, Hy; congruence.
    + destruct (Prim2SF c); cbn in Hc; discriminate.
    + destruct (Prim2SF y); cbn in E, Hy; congruence.
Qed.

Lemma quality_range (s : jsstring) :
  (0 < List.length s)%nat -> (List.length s <= 16)%nat ->
  (0.1 <=? calculatePatternQuality s)%float = true
  /\ (calculatePatternQuality s <=? 2.0)%float = true.
Proof.
  intros Hpos Hle. unfold calculatePatternQuality.
  apply qualityClamp_range, nonneg_not_nan.
  assert (Hq : nonneg (qualityBeforeRepetition s)).
  { apply qualityBeforeRepetition_nonneg; [exact Hpos|].
    apply Z.le_lt_trans with 16%Z; [lia | reflexivity]. }
  destruct (hasExcessiveInternalRepetition s); [|exact Hq].
  apply mul_nonneg_posfin; [exact Hq | reflexivity].
Qed.

Lemma detectable_quality (s : jsstring) :
  detectable s ->
  (0.3 <=? calculatePatternQuality s)%float = true
  /\ (calculatePatternQuality s <=? 2.0)%float = true.
Proof.
  intros [Hlen [_ Hq]].
  destruct (quality_range s) as [Hlo Hhi]; [lia | lia |].
  split; [|exact Hhi].
  apply (not_ltb_is_leb 0.1); [exact Hlo | reflexivity | exact Hq].
Qed.

(* ================================================================== *)
(** * What the registries hold *)

Lemma registryView_entries (e : Engine) (P : PatternObj -> Prop) :
  registryInv e ->
  (forall p, storedOk p -> registeredOk p -> P p) ->
  Forall (fun kp => P (snd kp)) (registryView e).
Proof.
  intros He HP. unfold registryView. apply Forall_map, Forall_forall.
  intros [k l] Hin. cbn [fst snd].
  pose proof He as [_ [Hreg _]]. rewrite Forall_forall in Hreg.
  destruct (Hreg _ Hin) as [Hl [_ Hr]]. cbn [snd] in *.
  apply HP; [apply stored_in_range; assumption | exact Hr].
Qed.

(** X9.  After any sequence of key events, every entry of the pattern
    registry is filed under the key of its content and length, its length
    field is the length of its content, and that length is between 2 and
    16: no pattern longer than half the analysis window of 32 keystrokes
    is ever registered. *)
Theorem registry_entries_are_well_formed (evs : list KeyEvent) :
  Forall (fun kp =>
            fst kp = patternKey (pattern (snd kp)) (patternLength (snd kp))
            /\ patternLength (snd kp) = List.length (pattern (snd kp))
            /\ (2 <= patternLength (snd kp) <= 16)%nat)
         (registryView (run evs)).
Proof.
  pose proof (run_registryInv evs) as He.
  unfold registryView. apply Forall_map, Forall_forall.
  intros [k l] Hin. cbn [fst snd].
  pose proof He as [_ [Hreg _]]. rewrite Forall_forall in Hreg.
  destruct (Hreg _ Hin) as [Hl [Hk _]]. cbn [fst snd] in *.
  destruct (stored_in_range _ l He Hl) as [HL [[Hlen _] _]].
  split; [exact Hk|]. split; [exact HL|]. rewrite HL. exact Hlen.
Qed.

(** X10.  After any sequence of key events, every registered pattern has
    passed the filters: its content is not spam, its quality field is the
    quality of its content, and that quality is at least 0.3 and at most
    2.0. *)
Theorem registered_patterns_passed_the_filters (evs : list KeyEvent) :
  Forall (fun kp =>
            isSpamPattern (pattern (snd kp)) = false
            /\ qualityScore (snd kp) = calculatePatternQuality (pattern (snd kp))
            /\ (0.3 <=? qualityScore (snd kp))%float = true
            /\ (qualityScore (snd kp) <=? 2.0)%float = true)
         (registryView (run evs)).
Proof.
  apply (registryView_entries (run evs)
           (fun p => isSpamPattern (pattern p) = false
                     /\ qualityScore p = calculatePatternQuality (pattern p)
                     /\ (0.3 <=? qualityScore p)%float = true
                     /\ (qualityScore p <=? 2.0)%float = true));
    [apply run_registryInv|].
  intros p [_ [Hdet [Hq _]]] _.
  split; [apply Hdet|]. split; [exact Hq|]. rewrite Hq.
  apply detectable_quality, Hdet.
Qed.

(** X11.  After any sequence of key events whose characters are code
    units U+0000 to U+00FF, every registered pattern has a frequency of at
    least 2 and carries rhythm information: one category for each interval
    between its characters.  The characters of such keys lower-case to one
    code unit each, so that an occurrence found at an offset of the joined
    characters is the slice of the keystrokes at that offset, as long as
    the pattern.  (For the key U+0130, whose lower case has two code units,
    the slice can be shorter or empty, and the rhythm with it.) *)
Theorem registered_patterns_carry_rhythm (evs : list KeyEvent) :
  Forall (fun kp =>
            (2 <= frequency (snd kp))%Z
            /\ exists r, rhythmInfo (snd kp) = Some r
                         /\ List.length (rhythm r)
                            = (List.length (pattern (snd kp)) - 1)%nat)
         (registryView (run evs)).
Proof.
  apply (registryView_entries (run evs)
           (fun p => (2 <= frequency p)%Z
                     /\ exists r, rhythmInfo p = Some r
                                  /\ List.length (rhythm r)
                                     = (List.length (pattern p) - 1)%nat));
    [apply run_registryInv|].
  intros p [HL _] [Hf [r [Hr Hlen]]].
  split; [exact Hf|]. exists r. split; [exact Hr|].
  rewrite <- HL. exact Hlen.
Qed.

Lemma includes_length (s p : jsstring) :
  includes s p = true -> (List.length p <= List.length s)%nat.
Proof.
  unfold includes. destruct (indexOf s p 0) as [i|] eqn:E; [|discriminate].
  intros _. apply indexOf_some in E; [|lia]. lia.
Qed.

(** X12.  After any sequence of key events, every hierarchical relation
    is filed under the key naming its two contents, the parent's content
    includes the child's, and the child is not longer than the parent. *)
Theorem hierarchy_relates_contained_patterns (evs : list KeyEvent) :
  Forall (fun kh =>
            fst kh = nestedKey (pattern (parentData (snd kh)))
                       (pattern (childData (snd kh)))
            /\ includes (pattern (parentData (snd kh)))
                 (pattern (childData (snd kh))) = true
            /\ (List.length (pattern (childData (snd kh)))
                <= List.length (pattern (parentData (snd kh))))%nat)
         (hierarchyView (run evs)).
Proof.
  pose proof (run_registryInv evs) as [_ [_ [Hhier _]]].
  unfold hierarchyView. apply Forall_map.
  eapply Forall_impl; [|exact Hhier].
  intros [k h] [_ [_ [Hk Hinc]]]. cbn [fst snd parentData childData] in *.
  split; [exact Hk|]. split; [exact Hinc | apply includes_length, Hinc].
Qed.

(** X13.  After any sequence of key events there are at most 50 learned
    patterns, no content is learned twice, and every learned pattern is an
    acceptable content (not spam, 2 to 16 characters) that was learned at a
    strength above twice the score threshold. *)
Theorem learned_patterns_are_distinct_and_bounded (evs : list KeyEvent) :
  (List.length (learnedPatterns (run evs)) <= 50)%nat
  /\ NoDup (map learned_pattern (learnedPatterns (run evs)))
  /\ Forall (fun x =>
               isSpamPattern (learned_pattern x) = false
               /\ (2 <= List.length (learned_pattern x) <= 16)%nat
               /\ gtb (strength x) (patternScoreThreshold * 2) = true)
       (learnedPatterns (run evs)).
Proof.
  pose proof (run_registryInv evs) as [_ [_ [_ [Hl [Hnd Hcount]]]]].
  split; [exact Hcount|]. split; [exact Hnd|].
  eapply Forall_impl; [|exact Hl].
  intros x [[Hlen [Hspam _]] Hs]. auto.
Qed.

(* ================================================================== *)
(** * The caller's lower-casing *)

Lemma toLowerCase_idempotent (c : ascii) :
  toLowerCase (toLowerCase c) = toLowerCase c.
Proof.
  destruct c as [[] [] [] [] [] [] [] []]; vm_compute; reflexivity.
Qed.

(** X14.  The game passes [char.toLowerCase()] to [recordKeystroke], which
    lower-cases its argument itself: the call has the same effect, in
    every state, with and without the caller's conversion. *)
Theorem lower_casing_by_the_caller_is_redundant (c : ascii) (time : Z)
  (w : World) :
  recordKeystroke (toLowerCase c) time w = recordKeystroke c time w.
Proof.
  unfold recordKeystroke. rewrite toLowerCase_idempotent. reflexivity.
Qed.

(* ================================================================== *)
(** * The first keystrokes *)

(** X15.  Fewer than four key events leave every registry empty: no
    pattern is detected, no relation, no rhythm and no tempo is recorded,
    and nothing is learned. *)
Theorem nothing_is_recorded_before_four_keystrokes (evs : list KeyEvent) :
  (List.length evs < 4)%nat ->
  detectedPatterns (run evs) = []
  /\ hierarchicalPatterns (run evs) = []
  /\ rhythmPatterns (run evs) = []
  /\ learnedPatterns (run evs) = []
  /\ tempoHistory (run evs) = [].
Proof.
  intros H.
  destruct evs as [|[c1 t1 r1] [|[c2 t2 r2] [|[c3 t3 r3] [|ev evs]]]];
    [| | | |cbn [List.length] in H; lia].
  - repeat split.
  - repeat split.
  - destruct r2; repeat split.
  - destruct r2, r3; repeat split.
Qed.

Lemma nothing_is_recorded_before_four_keystrokes_witness :
  let evs := typed "nan" 1000 200 in
  (List.length evs < 4)%nat
  /\ detectedPatterns (run evs) = []
  /\ hierarchicalPatterns (run evs) = []
  /\ rhythmPatterns (run evs) = []
  /\ learnedPatterns (run evs) = []
  /\ tempoHistory (run evs) = [].
Proof.
  cbv zeta. split; [simpl; lia|].
  apply (nothing_is_recorded_before_four_keystrokes (typed "nan" 1000 200)).
  simpl. lia.
Defined.

(* ================================================================== *)
(** * Patterns that stay *)

Lemma JsMap_set_same {K V} (keq : K -> K -> bool) (m : list (K * V)) (k : K)
  (v : V) :
  JsMap.get keq m k = Some v -> JsMap.set keq m k v = m.
Proof.
  induction m as [|[k' v'] m IH]; cbn [JsMap.get JsMap.set]; [discriminate|].
  destruct (keq k' k); [intros [= ->]; reflexivity|].
  intros H. rewrite IH by exact H. reflexivity.
Qed.

Lemma JsMap_set_absent {K V} (keq : K -> K -> bool) (m : list (K * V)) (k : K)
  (v : V) (kv : K * V) :
  JsMap.get keq m k = None -> In kv m -> In kv (JsMap.set keq m k v).
Proof.
  induction m as [|[k' v'] m IH]; cbn [JsMap.get JsMap.set]; [intros _ []|].
  destruct (keq k' k); [discriminate|].
  intros H [<-|Hin]; [left; reflexivity | right; apply IH; assumption].
Qed.

Section Stays.

Variables (key : jsstring) (l : loc) (s : jsstring) (t f : Z).
Hypothesis frequent : (3 <= f)%Z.

Let holds := holdsEntry key l s t f.

(** An assignment that changes neither the content nor the first-seen
    time of the object it is applied to, and does not lower its
    frequency. *)
Lemma holds_assign (e : Engine) (l' : loc) (g : PatternObj -> PatternObj) :
  pattern (g (deref (store e) l')) = pattern (deref (store e) l') ->
  firstSeen (g (deref (store e) l')) = firstSeen (deref (store e) l') ->
  (frequency (deref (store e) l') <= frequency (g (deref (store e) l')))%Z ->
  holds e -> holds (with_store (fun st => store_update st l' g) e).
Proof.
  intros Hp Ht Hf [Hin [Hl [Hs [Hfirst Hfreq]]]].
  unfold holds, holdsEntry. cbn [detectedPatterns store with_store].
  rewrite store_update_length.
  split; [exact Hin|]. split; [exact Hl|].
  destruct (Nat.eq_dec l' l) as [->|Hne].
  - rewrite deref_update_same by exact Hl.
    split; [congruence|]. split; [congruence | lia].
  - rewrite deref_update_other by exact Hne. auto.
Qed.

Lemma holds_alloc (e : Engine) (p : PatternObj) :
  holds e -> holds (with_store (fun st => st ++ [p]) e).
Proof.
  intros [Hin [Hl H]]. unfold holds, holdsEntry.
  cbn [detectedPatterns store with_store].
  rewrite length_app, deref_app_old by exact Hl.
  split; [exact Hin|]. split; [lia | exact H].
Qed.

Lemma considerCandidate_holds (sequence : jsstring) (len : nat)
  (keystrokeData : list Keystroke) (i : nat) :
  hoare holds (considerCandidate sequence len keystrokeData i)
    (fun _ => holds).
Proof.
  unfold considerCandidate. cbv zeta.
  destruct (isSpamPattern _); [apply hoare_ret; auto|].
  set (reps := countRepetitions _ _ _ _ _ _).
  destruct (Z.leb_spec 2 reps) as [Hreps|_]; [|apply hoare_ret; auto].
  clearbody reps.
  destruct (_ <? 0.3)%float; [apply hoare_ret; auto|].
  set (key' := patternKey _ len).
  set (tracked := fun (l' : loc) (e : Engine) =>
         holds e
         /\ (JsMap.get Str.eqb (detectedPatterns e) key' = Some l'
             \/ JsMap.get Str.eqb (detectedPatterns e) key' = None)).
  assert (Hassign : forall l' g P,
    (forall e, P e -> tracked l' e
       /\ pattern (g (deref (store e) l')) = pattern (deref (store e) l')
       /\ firstSeen (g (deref (store e) l')) = firstSeen (deref (store e) l')
       /\ (frequency (deref (store e) l')
           <= frequency (g (deref (store e) l')))%Z) ->
    hoare P (assign l' g) (fun _ => tracked l')).
  { intros l' g P HP. apply hoare_assign. intros e He.
    destruct (HP e He) as [[Hh Hget] [H1 [H2 H3]]].
    split; [apply holds_assign; assumption | exact Hget]. }
  eapply hoare_bind; [apply hoare_read|]. intros found. cbv beta.
  eapply hoare_bind with (R := tracked).
  { destruct found as [l'|].
    - apply hoare_ret. intros e [He Hfound]. split; [exact He|]. left.
      symmetry. exact Hfound.
    - eapply hoare_bind; [apply hoare_now|]. intros now.
      eapply hoare_conseq; [apply hoare_alloc | intros e He; exact He |].
      intros l' e' [e [[He Hfound] [_ ->]]].
      split; [apply holds_alloc, He|]. right. symmetry. exact Hfound. }
  intros l'.
  eapply hoare_bind; [apply hoare_readObj|]. intros p. cbv beta.
  eapply hoare_bind.
  { apply Hassign. intros e [Htr ->]. split; [exact Htr|].
    cbn [pattern firstSeen frequency set_frequency]. repeat split. lia. }
  intros ?.
  eapply hoare_bind; [apply hoare_now|]. intros now.
  eapply hoare_bind.
  { apply Hassign. intros e Htr. split; [exact Htr|].
    cbn [pattern firstSeen frequency set_lastSeen]. repeat split. lia. }
  intros ?.
  eapply hoare_bind;
    [apply hoare_reads; intros; apply calculatePatternScore_reads|].
  intros sc.
  eapply hoare_bind.
  { apply Hassign. intros e Htr. split; [exact Htr|].
    cbn [pattern firstSeen frequency set_score]. repeat split. lia. }
  intros ?.
  eapply hoare_bind; [apply hoare_read|]. intros tempo. cbv beta.
  eapply hoare_bind.
  { apply Hassign. intros e [Htr _]. split; [exact Htr|].
    cbn [pattern firstSeen frequency set_rhythmInfo]. repeat split. lia. }
  intros ?.
  eapply hoare_bind;
    [apply hoare_reads; intros; apply calculateFreshnessPenalty_reads|].
  intros freshnessPenalty.
  eapply hoare_bind; [apply hoare_readObj|]. intros p'. cbv beta.
  eapply hoare_bind.
  { apply Hassign. intros e [Htr _]. split; [exact Htr|].
    cbn [pattern firstSeen frequency set_score]. repeat split. lia. }
  intros ?.
  eapply hoare_bind; [apply hoare_readObj|]. intros p''. cbv beta.
  destruct (gtb (score p'') 1.0).
  - apply hoare_modify. intros e [[[Hin Hrest] Hget] _].
    unfold holds, holdsEntry.
    cbn [detectedPatterns store with_detectedPatterns].
    split; [|exact Hrest].
    destruct Hget as [Hget|Hget].
    + rewrite JsMap_set_same by exact Hget. exact Hin.
    + apply JsMap_set_absent; assumption.
  - apply hoare_ret. intros e [[He _] _]. exact He.
Qed.

Lemma cleanup_holds (cutoffTime : Z) :
  keeps holds
    (modify (fun e =>
       with_detectedPatterns
         (filter (fun kl =>
                    negb (isStale cutoffTime (deref (store e) (snd kl)))))
         e))
    anything.
Proof.
  apply keeps_modify. intros e [Hin [Hl [Hs [Hfirst Hfreq]]]].
  unfold holds, holdsEntry. cbn [detectedPatterns store with_detectedPatterns].
  split; [|auto]. apply filter_In. split; [exact Hin|].
  cbn [snd]. unfold isStale.
  destruct (Z.ltb_spec (frequency (deref (store e) l)) 3); [lia|].
  rewrite andb_false_r. reflexivity.
Qed.

Lemma decayStep_holds (kl : jsstring * loc) :
  keeps holds (decayStep kl) anything.
Proof.
  apply hoare_keeps. unfold decayStep.
  eapply hoare_bind; [apply hoare_now|]. intros now.
  eapply hoare_bind; [apply hoare_readObj|]. intros p. cbv beta.
  apply hoare_assign. intros e [He _].
  apply holds_assign; [reflexivity | reflexivity | | exact He].
  cbn [frequency set_score]. lia.
Qed.

Lemma recordKeystroke_holds (c : ascii) (time : Z) :
  keeps holds (recordKeystroke c time) anything.
Proof.
  frame_with ltac:(first [ apply hoare_keeps, considerCandidate_holds
                         | apply cleanup_holds
                         | apply decayStep_holds ]).
Qed.

Lemma steps_hold (evs : list KeyEvent) : forall e,
  holds e -> holds (fold_left step evs e).
Proof.
  induction evs as [|ev evs IH]; intros e He; [exact He|].
  cbn [fold_left]. apply IH. unfold step, exec.
  apply (recordKeystroke_holds (ev_char ev) (ev_time ev)). exact He.
Qed.

End Stays.

(** X16.  A registered pattern with a frequency of at least 3 is never
    forgotten: after any further key events the registry still holds an
    entry under its key, with the same content and first-seen time and a
    frequency that is not lower. *)
Theorem frequent_patterns_are_never_forgotten (evs evs' : list KeyEvent)
  (key : jsstring) (p : PatternObj) :
  In (key, p) (registryView (run evs)) -> (3 <= frequency p)%Z ->
  exists p', In (key, p') (registryView (run (evs ++ evs')))
             /\ pattern p' = pattern p
             /\ firstSeen p' = firstSeen p
             /\ (frequency p <= frequency p')%Z.
Proof.
  intros Hin Hf. unfold registryView in Hin. apply in_map_iff in Hin.
  destruct Hin as [[k l] [[= -> <-] Hin]]. cbn [fst snd] in *.
  pose proof (run_registryInv evs) as [_ [Hreg _]].
  rewrite Forall_forall in Hreg. destruct (Hreg _ Hin) as [Hl _].
  cbn [snd] in Hl.
  assert (H0 : holdsEntry key l (pattern (deref (store (run evs)) l))
                 (firstSeen (deref (store (run evs)) l))
                 (frequency (deref (store (run evs)) l)) (run evs)).
  { repeat split; try assumption; lia. }
  apply (steps_hold key l _ _ _ Hf evs') in H0.
  replace (fold_left step evs' (run evs)) with (run (evs ++ evs')) in H0
    by (unfold run; rewrite fold_left_app; reflexivity).
  destruct H0 as [Hin' [_ [Hp [Ht Hfreq]]]].
  exists (deref (store (run (evs ++ evs'))) l).
  split; [|auto].
  unfold registryView. apply in_map_iff. exists (key, l).
  split; [reflexivity | exact Hin'].
Qed.

Lemma frequent_patterns_are_never_forgotten_witness :
  let evs := typed "nanan" 1000 200 in
  let evs' := typed "x" 100000 0 in
  let p := snd (hd ([], noObject) (registryView (run evs))) in
  In (lit "na_2", p) (registryView (run evs))
  /\ (3 <= frequency p)%Z
  /\ exists p', In (lit "na_2", p') (registryView (run (evs ++ evs')))
                /\ pattern p' = pattern p
                /\ firstSeen p' = firstSeen p
                /\ (frequency p <= frequency p')%Z.
Proof.
  cbv zeta.
  split; [vm_compute; left; reflexivity|].
  split; [vm_compute; discriminate|].
  apply (frequent_patterns_are_never_forgotten
           (typed "nanan" 1000 200) (typed "x" 100000 0));
    [vm_compute; left; reflexivity | vm_compute; discriminate].
Defined.

(* ================================================================== *)
(** * Registries without clean-up *)

Lemma JsMap_set_keeps_key {K V} (keq : K -> K -> bool) (m : list (K * V))
  (k k' : K) (v : V) :
  In k (map fst m) -> In k (map fst (JsMap.set keq m k' v)).
Proof.
  induction m as [|[k0 v0] m IH]; cbn [JsMap.set map In fst]; [intros []|].
  destruct (keq k0 k'); cbn [map In fst]; [tauto|].
  intros [H|H]; [left; exact H | right; apply IH, H].
Qed.

Lemma findNestedPatterns_keeps_key (k : jsstring) :
  keeps (fun e => In k (map fst (hierarchicalPatterns e)))
    findNestedPatterns anything.
Proof.
  unfold findNestedPatterns. apply keeps_modify. intros e He.
  cbn [hierarchicalPatterns with_hierarchicalPatterns].
  revert He. generalize (hierarchicalPatterns e) as h.
  induction (nestedPairs _) as [|pc pairs IH]; intros h Hh; [exact Hh|].
  cbn [fold_left]. apply IH.
  destruct (includes _ _); [apply JsMap_set_keeps_key, Hh | exact Hh].
Qed.

(** X17.  Hierarchical relations are never removed: a relation key that
    is present after some key events is present after any further ones. *)
Theorem hierarchy_relations_are_never_removed (evs evs' : list KeyEvent)
  (k : jsstring) :
  In k (map fst (hierarchicalPatterns (run evs))) ->
  In k (map fst (hierarchicalPatterns (run (evs ++ evs')))).
Proof.
  intros H.
  replace (run (evs ++ evs')) with (fold_left step evs' (run evs))
    by (unfold run; rewrite fold_left_app; reflexivity).
  revert H. generalize (run evs) as e.
  induction evs' as [|ev evs' IH]; intros e He; [exact He|].
  cbn [fold_left]. apply IH. unfold step, exec.
  assert (Hk : keeps (fun e => In k (map fst (hierarchicalPatterns e)))
                 (recordKeystroke (ev_char ev) (ev_time ev)) anything).
  { frame_with ltac:(apply findNestedPatterns_keeps_key). }
  apply Hk. exact He.
Qed.

Lemma hierarchy_relations_are_never_removed_witness :
  let evs := typed "abcabcabcabc" 1000 2000 in
  let evs' := typed "x" 100000 0 in
  let k := lit "abcabc_contains_cab" in
  In k (map fst (hierarchicalPatterns (run evs)))
  /\ In k (map fst (hierarchicalPatterns (run (evs ++ evs')))).
Proof.
  cbv zeta. split; [vm_compute; tauto|].
  apply (hierarchy_relations_are_never_removed
           (typed "abcabcabcabc" 1000 2000) (typed "x" 100000 0)).
  vm_compute. tauto.
Defined.

Lemma JsMap_set_In_cases {K V} (keq : K -> K -> bool) (m : list (K * V))
  (k k' : K) (v v' : V) :
  In (k, v) m ->
  In (k, v) (JsMap.set keq m k' v')
  \/ (JsMap.get keq m k' = Some v /\ In (k, v') (JsMap.set keq m k' v')).
Proof.
  induction m as [|[k0 v0] m IH]; cbn [JsMap.set JsMap.get In]; [intros []|].
  destruct (keq k0 k') eqn:E.
  - intros [[= -> ->]|H].
    + right. split; [reflexivity | left; reflexivity].
    + left. right. exact H.
  - intros [[= -> ->]|H]; [left; left; reflexivity|].
    destruct (IH H) as [H'|[Hget H']].
    + left. right. exact H'.
    + right. split; [exact Hget | right; exact H'].
Qed.

Section RhythmStays.

Variables (k : list NoteValue) (f : Z).

Let seen (e : Engine) : Prop :=
  exists r, In (k, r) (rhythmPatterns e) /\ (f <= rhythm_frequency r)%Z.

Lemma analyzeRhythm_seen : keeps seen analyzeRhythm anything.
Proof.
  apply hoare_keeps. unfold analyzeRhythm.
  eapply hoare_bind; [apply hoare_read|]. intros h. cbv beta.
  destruct (_ <? 4)%nat; [apply hoare_ret; intros e [He _]; exact He|].
  destruct (isRhythmSpam _); [apply hoare_ret; intros e [He _]; exact He|].
  cbv zeta.
  eapply hoare_bind; [apply hoare_read|]. intros tempo. cbv beta.
  eapply hoare_bind; [apply hoare_read|]. intros found. cbv beta.
  eapply hoare_bind; [apply hoare_now|]. intros now.
  eapply hoare_bind with (R := fun _ => seen).
  { apply hoare_modify. intros e [[[[r [Hin Hf]] _] _] Hfound].
    unfold seen. cbn [rhythmPatterns with_rhythmPatterns].
    match goal with
    | |- context [JsMap.set rhythmKey_eqb _ ?key ?v] =>
        destruct (JsMap_set_In_cases rhythmKey_eqb (rhythmPatterns e)
                    k key r v Hin) as [H|[Hget H]]
    end.
    - exists r. split; assumption.
    - eexists. split; [exact H|]. rewrite Hfound, Hget.
      cbn [rhythm_frequency]. lia. }
  intros ?. apply keeps_to_hoare. frame.
Qed.

Lemma steps_seen (evs : list KeyEvent) : forall e,
  seen e -> seen (fold_left step evs e).
Proof.
  induction evs as [|ev evs IH]; intros e He; [exact He|].
  cbn [fold_left]. apply IH. unfold step, exec.
  assert (Hk : keeps seen (recordKeystroke (ev_char ev) (ev_time ev)) anything).
  { frame_with ltac:(apply analyzeRhythm_seen). }
  apply Hk. exact He.
Qed.

End RhythmStays.

(** X18.  Rhythm signatures are never removed and their frequencies never
    go down: a signature that is registered after some key events is
    registered after any further ones, with a frequency that is not
    lower. *)
Theorem rhythm_signatures_are_never_removed (evs evs' : list KeyEvent)
  (k : list NoteValue) (r : RhythmObj) :
  In (k, r) (rhythmPatterns (run evs)) ->
  exists r', In (k, r') (rhythmPatterns (run (evs ++ evs')))
             /\ (rhythm_frequency r <= rhythm_frequency r')%Z.
Proof.
  intros H.
  replace (run (evs ++ evs')) with (fold_left step evs' (run evs))
    by (unfold run; rewrite fold_left_app; reflexivity).
  apply (steps_seen k (rhythm_frequency r)).
  exists r. split; [exact H | lia].
Qed.

Lemma rhythm_signatures_are_never_removed_witness :
  let evs := typed "nananana" 1000 200 in
  let evs' := typed "x" 100000 0 in
  let k := [Eighth; Eighth; Eighth] in
  let r := snd (hd ([], {| rhythm_pattern := []; rhythm_frequency := 0;
                           averageInterval := 0; rhythm_lastSeen := 0 |})
                  (rhythmPatterns (run evs))) in
  In (k, r) (rhythmPatterns (run evs))
  /\ exists r', In (k, r') (rhythmPatterns (run (evs ++ evs')))
                /\ (rhythm_frequency r <= rhythm_frequency r')%Z.
Proof.
  cbv zeta. split; [vm_compute; left; reflexivity|].
  apply (rhythm_signatures_are_never_removed
           (typed "nananana" 1000 200) (typed "x" 100000 0)).
  vm_compute. left. reflexivity.
Defined.

(* ================================================================== *)
(** * A quotient of equal values *)

Lemma div_eucl_multiple (m : positive) (k : Z) :
  Z.div_eucl (Z.pos m * k) (Z.pos m) = (k, 0%Z).
Proof.
  assert (H : Z.div_eucl (Z.pos m * k) (Z.pos m)
              = ((Z.pos m * k) / Z.pos m, (Z.pos m * k) mod Z.pos m)%Z).
  { unfold Z.div, Z.modulo. destruct (Z.div_eucl _ _). reflexivity. }
  rewrite H. f_equal.
  - rewrite Z.mul_comm. apply Z.div_mul. discriminate.
  - rewrite Z.mul_comm. apply Z.mod_mul. discriminate.
Qed.

(** A positive finite value divided by itself is 1. *)
Lemma div_self (x : float) :
  posfin x -> Prim2SF (x / x)%float = Prim2SF 1%float.
Proof.
  unfold posfin. rewrite FloatAxioms.div_spec.
  destruct (Prim2SF x) as [| | |[] m e]; try discriminate. intros _.
  unfold SF64div, SFdiv, SFdiv_core_binary.
  replace (Zdigits2 (Z.pos m) + e - (Zdigits2 (Z.pos m) + e))%Z with 0%Z
    by lia.
  replace (e - e)%Z with 0%Z by lia.
  change (Z.min (fexp prec emax 0) 0) with (-53)%Z.
  change (0 - -53)%Z with 53%Z. cbv beta iota zeta.
  rewrite Z.shiftl_mul_pow2 by lia.
  rewrite div_eucl_multiple.
  assert (Hloc : new_location (Z.pos m) 0 = loc_Exact).
  { unfold new_location. destruct (Z.even _); reflexivity. }
  rewrite Hloc. reflexivity.
Qed.

(* ================================================================== *)
(** * The spam filter *)

Lemma forallb_repeat (c : ascii) (n : nat) :
  forallb (fun char => Ascii.eqb char c) (repeat c n) = true.
Proof.
  induction n as [|n IH]; [reflexivity|].
  cbn [repeat forallb]. rewrite Ascii.eqb_refl, IH. reflexivity.
Qed.

Lemma repeated_character_is_spam (c : ascii) (n : nat) :
  (1 <= n)%nat -> isSpamPattern (repeat c n) = true.
Proof.
  intros Hn.
  destruct n as [|[|[|n]]]; [lia | | |].
  - destruct c as [[] [] [] [] [] [] [] []]; vm_compute; reflexivity.
  - destruct c as [[] [] [] [] [] [] [] []]; vm_compute; reflexivity.
  - unfold isSpamPattern. rewrite repeat_length.
    change (2 <? S (S (S n)))%nat with true.
    change (repeat c (S (S (S n)))) with (c :: repeat c (S (S n))) at 1.
    unfold allSameAsFirst.
    change (c :: repeat c (S (S n))) with (repeat c (S (S (S n)))).
    rewrite forallb_repeat. reflexivity.
Qed.

(** X19.  A pattern that is one character repeated, whatever its length,
    is spam. *)
Theorem one_character_repeated_is_spam (c : ascii) (n : nat) :
  (1 <= n)%nat -> isSpamPattern (repeat c n) = true.
Proof. apply repeated_character_is_spam. Qed.

Lemma one_character_repeated_is_spam_witness :
  (1 <= 2)%nat /\ isSpamPattern (repeat "m"%char 2) = true.
Proof.
  split; [lia|]. apply (one_character_repeated_is_spam "m"%char 2). lia.
Defined.

Lemma distinct_In (x : ascii) (s : jsstring) : In x s -> In x (distinct s).
Proof.
  induction s as [|c s IH]; [intros []|].
  cbn [distinct In]. intros [->|H]; [left; reflexivity|].
  destruct (Ascii.eqb_spec c x) as [->|Hne]; [left; reflexivity|].
  right. apply filter_In. split; [apply IH, H|].
  apply negb_true_iff. apply Ascii.eqb_neq. exact Hne.
Qed.

Lemma one_distinct_is_repeat (s : jsstring) (c : ascii) :
  (set_size (c :: s) <= 1)%nat -> c :: s = repeat c (S (List.length s)).
Proof.
  unfold set_size. cbn [distinct List.length]. intros H.
  assert (Hall : forall x, In x s -> x = c).
  { intros x Hx. apply distinct_In in Hx.
    destruct (Ascii.eqb_spec c x) as [->|Hne]; [reflexivity|].
    assert (Hin : In x (filter (fun d => negb (Ascii.eqb c d)) (distinct s))).
    { apply filter_In. split; [exact Hx|].
      apply negb_true_iff, Ascii.eqb_neq, Hne. }
    destruct (filter _ (distinct s)); [destruct Hin|].
    cbn [List.length] in H. lia. }
  clear H. cbn [repeat]. f_equal.
  induction s as [|x s IH]; [reflexivity|].
  cbn [List.length repeat]. rewrite (Hall x) by (left; reflexivity).
  f_equal. apply IH. intros y Hy. apply Hall. right. exact Hy.
Qed.

Lemma not_spam_two_distinct (s : jsstring) :
  (1 <= List.length s)%nat -> isSpamPattern s = false ->
  (2 <= set_size s)%nat.
Proof.
  intros Hlen Hspam. destruct s as [|c s]; [cbn in Hlen; lia|].
  destruct (Nat.le_gt_cases (set_size (c :: s)) 1) as [Hle|Hgt]; [|lia].
  rewrite (one_distinct_is_repeat s c Hle) in Hspam.
  rewrite repeated_character_is_spam in Hspam by lia. discriminate.
Qed.

(** X20.  After any sequence of key events, every registered pattern uses
    at least two different characters. *)
Theorem registered_patterns_use_two_characters (evs : list KeyEvent) :
  Forall (fun kp => (2 <= set_size (pattern (snd kp)))%nat)
         (registryView (run evs)).
Proof.
  apply (registryView_entries (run evs)
           (fun p => (2 <= set_size (pattern p))%nat));
    [apply run_registryInv|].
  intros p [_ [[Hlen [Hspam _]] _]] _.
  apply not_spam_two_distinct; [lia | exact Hspam].
Qed.

(* ================================================================== *)
(** * Keyboard rows *)

Lemma rowOf_range (c : ascii) (r : nat) : rowOf c = Some r -> (r < 3)%nat.
Proof.
  unfold rowOf, keyboardRows. cbn [find fst snd].
  repeat (destruct (mem c _); [intros [= <-]; lia|]). discriminate.
Qed.

Lemma rowPositions_In (pattern : jsstring) (r : nat) :
  In r (rowPositions pattern)
  <-> exists c, In c pattern /\ rowOf c = Some r.
Proof.
  unfold rowPositions. rewrite in_flat_map. split.
  - intros [c [Hc Hr]]. exists c. split; [exact Hc|].
    destruct (rowOf c) as [i|]; [|destruct Hr].
    destruct Hr as [->|[]]. reflexivity.
  - intros [c [Hc Hr]]. exists c. split; [exact Hc|]. rewrite Hr.
    left. reflexivity.
Qed.

(** X21.  A pattern lacks musical coherence exactly when it has a
    character on each of the three letter rows of the keyboard;
    characters on no row (digits, punctuation) never count. *)
Theorem incoherent_patterns_touch_all_three_rows (pattern : jsstring) :
  hasMusicalCoherence pattern = false
  <-> forall r, (r < 3)%nat ->
        exists c, In c pattern /\ rowOf c = Some r.
Proof.
  unfold hasMusicalCoherence. cbv zeta.
  set (rows := nodup Nat.eq_dec (rowPositions pattern)).
  assert (Hnd : NoDup rows) by apply NoDup_nodup.
  assert (Hrange : incl rows [0; 1; 2]%nat).
  { intros r Hr. unfold rows in Hr. apply nodup_In in Hr.
    apply rowPositions_In in Hr. destruct Hr as [c [_ Hr]].
    apply rowOf_range in Hr. cbn [In]. lia. }
  rewrite Nat.leb_gt. split.
  - intros Hlen r Hr.
    apply rowPositions_In. apply (nodup_In Nat.eq_dec). fold rows.
    assert (Hincl : incl [0; 1; 2]%nat rows).
    { apply NoDup_length_incl; [exact Hnd | cbn [List.length]; lia | exact Hrange]. }
    apply Hincl. cbn [In]. lia.
  - intros Hall.
    assert (Hincl : incl [0; 1; 2]%nat rows).
    { intros r Hr. unfold rows. apply nodup_In, rowPositions_In, Hall.
      cbn [In] in Hr. lia. }
    assert (H3 : NoDup [0; 1; 2]%nat).
    { repeat constructor; cbn [In]; lia. }
    pose proof (NoDup_incl_length H3 Hincl) as Hlen.
    cbn [List.length] in Hlen. lia.
Qed.

(* ================================================================== *)
(** * Rests *)

Lemma closestNote_is_a_note (q gap : float) : closestNote q gap <> Rest.
Proof.
  unfold closestNote, ratios. cbn [fold_left]. unfold closestStep.
  cbn [fst snd].
  repeat match goal with
         | |- context [if ?b then _ else _] => destruct b; cbn [fst snd]
         end;
    discriminate.
Qed.

(** X22.  The classification is "rest" exactly when the gap exceeds twice
    the quarter-note duration: the closest-match loop never yields
    "rest" by itself. *)
Theorem rest_only_for_long_gaps (tempo gap : float) :
  classifyInterval tempo gap = Rest
  <-> gtb gap (quarterNoteMs tempo * 2)%float = true.
Proof.
  unfold classifyInterval. cbv zeta.
  destruct (gtb gap _); split; try reflexivity; try discriminate.
  intros H. exfalso. exact (closestNote_is_a_note _ _ H).
Qed.

(* ================================================================== *)
(** * Key mashing *)

Lemma filter_all {A} (f : A -> bool) (l : list A) :
  Forall (fun x => f x = true) l -> filter f l = l.
Proof.
  induction 1 as [|x l Hx _ IH]; [reflexivity|].
  cbn [filter]. rewrite Hx, IH. reflexivity.
Qed.

Lemma mashing_is_rhythm_spam (keystrokes : list Keystroke) :
  (4 <= List.length keystrokes <= 16)%nat ->
  Forall (fun interval => (interval < 80)%Z) (intervalsOf keystrokes) ->
  isRhythmSpam keystrokes = true.
Proof.
  intros Hlen Hfast. unfold isRhythmSpam. cbv zeta.
  destruct (Nat.ltb_spec (List.length keystrokes) 4) as [|_]; [lia|].
  destruct (_ && _ && _); [reflexivity|].
  rewrite filter_all.
  2:{ eapply Forall_impl; [|exact Hfast].
      intros i Hi. apply Z.ltb_lt, Hi. }
  rewrite intervalsOf_length.
  assert (Hone : Prim2SF (N2F (List.length keystrokes - 1)
                          / N2F (List.length keystrokes - 1))%float
                 = Prim2SF 1%float).
  { apply div_self, N2F_posfin; [lia|].
    apply Z.le_lt_trans with 16%Z; [lia | reflexivity]. }
  unfold gtb. rewrite FloatAxioms.ltb_spec, Hone. reflexivity.
Qed.

(** X23.  When every interval between the last 16 keystrokes is below
    80 ms, the rhythm analysis changes nothing: no signature is recorded
    and the tempo is not re-estimated. *)
Theorem key_mashing_leaves_no_rhythm (w : World) :
  Forall (fun interval => (interval < 80)%Z)
         (intervalsOf (lastN 16 (keystrokeHistory (engine w)))) ->
  engine (exec analyzeRhythm w) = engine w.
Proof.
  intros Hfast. unfold exec, analyzeRhythm.
  unfold bind at 1. unfold read at 1. cbv iota.
  destruct (Nat.ltb_spec (List.length (keystrokeHistory (engine w))) 4)
    as [|Hlen]; [reflexivity|].
  rewrite mashing_is_rhythm_spam; [reflexivity | | exact Hfast].
  rewrite lastN_length. lia.
Qed.

Lemma key_mashing_leaves_no_rhythm_witness :
  let w := {| clock := {| pending := []; lastReading := 1300 |};
              engine := engineWithHistory
                          (uniformKeystrokes (lit "asdfasdf") 1000 40) |} in
  Forall (fun interval => (interval < 80)%Z)
         (intervalsOf (lastN 16 (keystrokeHistory (engine w))))
  /\ engine (exec analyzeRhythm w) = engine w.
Proof.
  cbv zeta. split; [vm_compute; repeat constructor|].
  apply (key_mashing_leaves_no_rhythm
           {| clock := {| pending := []; lastReading := 1300 |};
              engine := engineWithHistory
                          (uniformKeystrokes (lit "asdfasdf") 1000 40) |}).
  vm_compute. repeat constructor.
Defined.

(* ================================================================== *)
(** * Saving what was restored *)

Lemma jsonNumber_idempotent (x : float) :
  jsonNumber (jsonNumber x) = jsonNumber x.
Proof.
  assert (H : jsonNumber x = x \/ jsonNumber x = 0%float).
  { unfold jsonNumber. destruct (_ && _); auto. }
  destruct H as [H|H]; rewrite H; [exact H | reflexivity].
Qed.

Lemma jsonPattern_idempotent (p : PatternObj) :
  jsonPattern (jsonPattern p) = jsonPattern p.
Proof.
  unfold jsonPattern.
  cbn [pattern patternLength frequency score lastSeen rhythmInfo
       qualityScore firstSeen].
  rewrite !jsonNumber_idempotent. f_equal.
  destruct (rhythmInfo p) as [r|]; [|reflexivity].
  cbn [option_map]. unfold jsonRhythmInfo. cbn [rhythm confidence].
  rewrite jsonNumber_idempotent. reflexivity.
Qed.

Lemma map_idempotent {A} (f : A -> A) (l : list A) :
  (forall x, f (f x) = f x) -> map f (map f l) = map f l.
Proof.
  intros Hf. rewrite map_map. apply map_ext. intros x. apply Hf.
Qed.

Lemma jsonRegistry_idempotent (v : list (jsstring * PatternObj)) :
  jsonRegistry (jsonRegistry v) = jsonRegistry v.
Proof.
  unfold jsonRegistry. apply map_idempotent. intros [k p]. cbn [fst snd].
  rewrite jsonPattern_idempotent. reflexivity.
Qed.

Lemma jsonHierarchy_idempotent (v : list (jsstring * HierData)) :
  jsonHierarchy (jsonHierarchy v) = jsonHierarchy v.
Proof.
  unfold jsonHierarchy. apply map_idempotent. intros [k h].
  cbn [fst snd parentData childData nestingScoreData].
  rewrite !jsonPattern_idempotent, jsonNumber_idempotent. reflexivity.
Qed.

Lemma jsonRhythms_idempotent (v : list (list NoteValue * RhythmObj)) :
  jsonRhythms (jsonRhythms v) = jsonRhythms v.
Proof.
  unfold jsonRhythms. apply map_idempotent. intros [k r]. cbn [fst snd].
  unfold jsonRhythm.
  cbn [rhythm_pattern rhythm_frequency averageInterval rhythm_lastSeen].
  rewrite jsonNumber_idempotent. reflexivity.
Qed.

Lemma jsonStyle_idempotent (s : UserStyleData) :
  jsonStyle (jsonStyle s) = jsonStyle s.
Proof.
  unfold jsonStyle.
  cbn [preferredData averageTempoData rhythmPreferenceData
       patternComplexityData musicalScaleData].
  rewrite jsonNumber_idempotent, map_idempotent by apply jsonPattern_idempotent.
  reflexivity.
Qed.

(** X24.  Saving and restoring a restored state changes nothing further:
    the second round trip gives back the registry, the hierarchical
    relations, the rhythm registry and the style model of the first,
    exactly. *)
Theorem second_round_trip_is_exact (e : Engine) (now : Z) (e0 : Engine)
  (now' : Z) (e1 : Engine) :
  let restored := restore e now e0 in
  registryView (restore restored now' e1) = registryView restored
  /\ hierarchyView (restore restored now' e1) = hierarchyView restored
  /\ rhythmPatterns (restore restored now' e1) = rhythmPatterns restored
  /\ styleView (restore restored now' e1) = styleView restored.
Proof.
  cbv zeta.
  rewrite (restore_registry (restore e now e0)), (restore_registry e).
  rewrite (restore_hierarchy (restore e now e0)), (restore_hierarchy e).
  rewrite (restore_rhythms (restore e now e0)), (restore_rhythms e).
  rewrite (restore_style (restore e now e0)), (restore_style e).
  rewrite jsonRegistry_idempotent, jsonHierarchy_idempotent,
    jsonRhythms_idempotent, jsonStyle_idempotent.
  repeat split.
Qed.

(* ================================================================== *)
(** * Suggestions *)

Lemma randomIndex_below (n : nat) (s : Choices) :
  (1 <= n)%nat -> (fst (randomIndex n s) < n)%nat.
Proof. intros Hn. cbn [randomIndex fst]. apply Nat.mod_upper_bound. lia. Qed.

(** The characters a random character is drawn from: those of the last
    20 keystrokes, or "a" when there is none. *)
Lemma getRandomCharFromUserHistory_pool (h : list Keystroke) (s : Choices) :
  In (fst (getRandomCharFromUserHistory h s))
     ("a"%char :: map char (lastN 20 h)).
Proof.
  unfold getRandomCharFromUserHistory.
  destruct h as [|k h]; [left; reflexivity|].
  cbv zeta. unfold rnd_bind, rnd_ret. cbn [randomIndex fst]. right.
  apply nth_In. apply Nat.mod_upper_bound.
  rewrite length_map, lastN_length. cbn [List.length]. lia.
Qed.

(** X25.  [getRandomCharFromUserHistory] returns "a" when the history is
    empty, and otherwise the character of one of the last 20 keystrokes,
    whatever the random choice. *)
Theorem random_character_is_a_recent_one (h : list Keystroke) (s : Choices) :
  match h with
  | [] => fst (getRandomCharFromUserHistory h s) = "a"%char
  | _ => In (fst (getRandomCharFromUserHistory h s)) (map char (lastN 20 h))
  end.
Proof.
  destruct h as [|k h]; [reflexivity|].
  unfold getRandomCharFromUserHistory.
  cbv zeta. unfold rnd_bind, rnd_ret. cbn [randomIndex fst].
  apply nth_In. apply Nat.mod_upper_bound.
  rewrite length_map, lastN_length. cbn [List.length]. lia.
Qed.

Lemma setChar_length (i : nat) (c : ascii) (chars : jsstring) :
  List.length (setChar i c chars) = List.length chars.
Proof.
  revert i. induction chars as [|x chars IH]; intros [|i]; cbn [setChar List.length];
    try reflexivity.
  rewrite IH. reflexivity.
Qed.

Lemma setChar_In (i : nat) (c x : ascii) (chars : jsstring) :
  In x (setChar i c chars) -> x = c \/ In x chars.
Proof.
  revert i. induction chars as [|y chars IH]; intros [|i]; cbn [setChar In];
    try tauto.
  - intros [H|H]; [left; congruence | right; right; exact H].
  - intros [H|H]; [right; left; exact H|].
    destruct (IH i H); [left | right; right]; assumption.
Qed.

(** A variation has the length of the pattern, one more, or twice as
    much, and its characters are those of the pattern and of the pool of
    random characters. *)
Lemma generatePatternVariation_shape (h : list Keystroke) (pattern : jsstring)
  (s : Choices) :
  let v := fst (generatePatternVariation h pattern s) in
  (List.length v = List.length pattern
   \/ List.length v = S (List.length pattern)
   \/ List.length v = (2 * List.length pattern)%nat)
  /\ Forall (fun c => In c pattern
                      \/ In c ("a"%char :: map char (lastN 20 h))) v.
Proof.
  cbv zeta. unfold generatePatternVariation, rnd_bind.
  destruct (randomIndex 4 s) as [strategy s1].
  destruct strategy as [|[|[|strategy]]].
  - cbn [rnd_ret fst]. split; [left; apply length_rev|].
    apply Forall_forall. intros c Hc. left. apply in_rev. exact Hc.
  - cbn [rnd_ret fst]. split; [right; right; rewrite length_app; lia|].
    apply Forall_forall. intros c Hc. left.
    apply in_app_or in Hc. tauto.
  - pose proof (getRandomCharFromUserHistory_pool h s1) as Hpool.
    destruct (getRandomCharFromUserHistory h s1) as [c s2].
    cbn [rnd_ret fst] in *.
    split; [right; left; rewrite length_app; cbn [List.length]; lia|].
    apply Forall_forall. intros x Hx. apply in_app_or in Hx.
    destruct Hx as [Hx|[<-|[]]]; [left; exact Hx | right; exact Hpool].
  - destruct (1 <? List.length pattern)%nat.
    + destruct (randomIndex (List.length pattern) s1) as [i s2].
      pose proof (getRandomCharFromUserHistory_pool h s2) as Hpool.
      destruct (getRandomCharFromUserHistory h s2) as [c s3].
      cbn [rnd_ret fst] in *.
      split; [left; apply setChar_length|].
      apply Forall_forall. intros x Hx. apply setChar_In in Hx.
      destruct Hx as [->|Hx]; [right; exact Hpool | left; exact Hx].
    + cbn [rnd_ret fst]. split; [left; reflexivity|].
      apply Forall_forall. intros x Hx. left. exact Hx.
Qed.

(** X26.  For a history of keys in U+0000 to U+00FF, whose recorded
    characters are one code unit each, and whatever the random choices: a
    variation of a pattern has the length of the pattern, one character
    more, or twice the length, and every character of it is a character of
    the pattern, the character of one of the last 20 keystrokes, or "a".
    (The substituted or appended character is the whole recorded character
    of a keystroke: two code units after the key U+0130.) *)
Theorem variation_is_made_of_pattern_and_history (h : list Keystroke)
  (pattern : jsstring) (s : Choices) :
  let v := fst (generatePatternVariation h pattern s) in
  (List.length v = List.length pattern
   \/ List.length v = S (List.length pattern)
   \/ List.length v = (2 * List.length pattern)%nat)
  /\ Forall (fun c => In c pattern
                      \/ In c ("a"%char :: map char (lastN 20 h))) v.
Proof. apply generatePatternVariation_shape. Qed.

Lemma suggestionsFor_lower (h : list Keystroke) (p : PatternObj) (s : Choices) :
  Forall (fun k => lowerCase (char k)) h -> Forall lowerCase (pattern p) ->
  Forall lowerCaseSuggestion (fst (suggestionsFor h p s)).
Proof.
  intros Hh Hp. unfold suggestionsFor. cbv zeta. unfold rnd_bind.
  pose proof (generatePatternVariation_shape h (pattern p) s) as [_ Hv].
  cbv zeta in Hv.
  destruct (generatePatternVariation h (pattern p) s) as [v s1].
  cbn [fst] in Hv.
  assert (Hext : Forall lowerCase (pattern p ++ pattern p))
    by (apply Forall_app; split; exact Hp).
  assert (Hvl : Forall lowerCase v).
  { apply Forall_forall. intros c Hc.
    rewrite Forall_forall in Hv, Hp.
    destruct (Hv c Hc) as [Hin|[<-|Hin]]; [apply Hp, Hin | reflexivity |].
    pose proof (history_window_lower 20 h Hh) as Hw.
    unfold chars in Hw. rewrite Forall_forall in Hw. apply Hw, Hin. }
  destruct (Str.eqb v (pattern p)); cbn [rnd_ret fst].
  - constructor; [split; assumption | constructor].
  - constructor; [split; assumption|].
    constructor; [split; assumption | constructor].
Qed.

Lemma suggestionsForAll_lower (h : list Keystroke) (ps : list PatternObj) :
  Forall (fun k => lowerCase (char k)) h ->
  Forall (fun p => Forall lowerCase (pattern p)) ps ->
  forall s, Forall lowerCaseSuggestion (fst (suggestionsForAll h ps s)).
Proof.
  intros Hh. induction 1 as [|p ps Hp _ IH]; intros s; [constructor|].
  cbn [suggestionsForAll]. unfold rnd_bind.
  pose proof (suggestionsFor_lower h p s Hh Hp) as H1.
  destruct (suggestionsFor h p s) as [first s1].
  specialize (IH s1). destruct (suggestionsForAll h ps s1) as [others s2].
  cbn [rnd_ret fst] in *. apply Forall_app. split; assumption.
Qed.

(** X27.  After any sequence of key events and whatever the random
    choices, [getPatternSuggestions] returns at most five suggestions, and
    every suggestion about a pattern, its original as well as what is
    suggested, is made of lower-case characters. *)
Theorem suggestions_are_few_and_lower_case (evs : list KeyEvent)
  (s : Choices) :
  (List.length (fst (getPatternSuggestions (run evs) s)) <= 5)%nat
  /\ Forall lowerCaseSuggestion (fst (getPatternSuggestions (run evs) s)).
Proof.
  unfold getPatternSuggestions. cbv zeta. unfold rnd_bind.
  pose proof (run_Inv evs) as [Hh Hst].
  assert (Hps : Forall (fun p => Forall lowerCase (pattern p))
                  (map (deref (store (run evs)))
                     (firstn 3 (preferredPatterns (userStyle (run evs)))))).
  { apply Forall_map, Forall_forall. intros l _.
    apply (deref_good _ l Hst). }
  pose proof (suggestionsForAll_lower _ _ Hh Hps s) as Hpat.
  destruct (suggestionsForAll _ _ s) as [forPatterns s1].
  cbn [fst] in Hpat.
  set (forRhythm := match rhythmsByFrequency (run evs) with
                    | [] => rnd_ret []
                    | topRhythm :: _ => _
                    end s1).
  assert (Hr : Forall lowerCaseSuggestion (fst forRhythm)).
  { unfold forRhythm. destruct (rhythmsByFrequency (run evs)) as [|r rest];
      [constructor|].
    unfold rnd_bind. destruct (generateRhythmVariation _ s1) as [v s2].
    cbn [rnd_ret fst]. constructor; [exact Logic.I | constructor]. }
  destruct forRhythm as [forRhythm' s2]. cbn [rnd_ret fst] in *.
  split; [apply firstn_at_most|].
  apply Forall_forall. intros sg Hsg. apply firstn_incl in Hsg.
  assert (Hall : Forall lowerCaseSuggestion (forPatterns ++ forRhythm'))
    by (apply Forall_app; split; assumption).
  rewrite Forall_forall in Hall. apply Hall, Hsg.
Qed.

(** X28.  After any sequence of key events, the analysis for display
    lists as detected patterns exactly the preferred patterns of the style
    model; its keystroke count is the number of key events up to 1000, and
    what it calls the patterns learned is the size of the pattern
    registry. *)
Theorem analysis_shows_the_preferred_patterns (evs : list KeyEvent)
  (s : Choices) :
  let analysis := fst (getCurrentAnalysis (run evs) s) in
  an_detectedPatterns analysis = preferredPatterns (userStyle (run evs))
  /\ totalKeystrokes (an_stats analysis) = Nat.min 1000 (List.length evs)
  /\ patternsLearned (an_stats analysis)
     = List.length (registryView (run evs)).
Proof.
  cbv zeta. unfold getCurrentAnalysis, rnd_bind.
  destruct (getPatternSuggestions (run evs) s) as [sgs s1].
  cbn [rnd_ret fst an_detectedPatterns an_stats totalKeystrokes patternsLearned].
  split; [symmetry; apply run_preferredIsTop|].
  split.
  - rewrite run_history, lastN_length. f_equal.
    generalize (@None Z). induction evs as [|ev evs IH]; intros prev;
      [reflexivity|].
    cbn [keystrokesFrom List.length]. rewrite IH. reflexivity.
  - unfold registryView. rewrite length_map. reflexivity.
Qed.

(* ================================================================== *)
(** * One entry per content *)

Lemma JsMap_set_keys {V} (m : list (jsstring * V)) (k : jsstring) (v : V) :
  map fst (JsMap.set Str.eqb m k v) = map fst m
  \/ (~ In k (map fst m)
      /\ map fst (JsMap.set Str.eqb m k v) = map fst m ++ [k]).
Proof.
  induction m as [|[k' v'] m IH]; cbn [JsMap.set map fst].
  - right. split; [intros [] | reflexivity].
  - destruct (Str.eqb k' k) eqn:E; [left; reflexivity|].
    cbn [map fst]. destruct IH as [IH|[Hnot IH]].
    + left. rewrite IH. reflexivity.
    + right. split; [|rewrite IH; reflexivity].
      intros [->|Hin]; [|exact (Hnot Hin)].
      assert (Ht : Str.eqb k k = true) by (apply Str_eqb_eq; reflexivity).
      congruence.
Qed.

Lemma set_key_keeps_unique (k : jsstring) (l : loc) :
  keeps (fun e => NoDup (map fst (detectedPatterns e)))
    (modify (with_detectedPatterns (fun m => JsMap.set Str.eqb m k l)))
    anything.
Proof.
  apply keeps_modify. intros e He.
  cbn [detectedPatterns with_detectedPatterns].
  destruct (JsMap_set_keys (detectedPatterns e) k l) as [->|[Hnot ->]];
    [exact He|].
  apply NoDup_app; [exact He | constructor; [intros [] | constructor] |].
  intros x Hx [<-|[]]. exact (Hnot Hx).
Qed.

Lemma NoDup_map_filter {A B} (g : A -> B) (f : A -> bool) (l : list A) :
  NoDup (map g l) -> NoDup (map g (filter f l)).
Proof.
  induction l as [|x l IH]; [intros; constructor|].
  cbn [map filter]. intros H. inversion H as [|y ys Hnot Hnd]; subst.
  destruct (f x); [|apply IH, Hnd].
  cbn [map]. constructor; [|apply IH, Hnd].
  intros Hin. apply Hnot. apply in_map_iff in Hin.
  destruct Hin as [z [Hz Hin]]. apply filter_In in Hin.
  apply in_map_iff. exists z. tauto.
Qed.

Lemma cleanup_keeps_unique (cutoffTime : Z) :
  keeps (fun e => NoDup (map fst (detectedPatterns e)))
    (modify (fun e =>
       with_detectedPatterns
         (filter (fun kl =>
                    negb (isStale cutoffTime (deref (store e) (snd kl)))))
         e))
    anything.
Proof.
  apply keeps_modify. intros e He.
  cbn [detectedPatterns with_detectedPatterns].
  apply NoDup_map_filter, He.
Qed.

Lemma run_unique_keys (evs : list KeyEvent) :
  NoDup (map fst (detectedPatterns (run evs))).
Proof.
  apply (run_invariant (fun e => NoDup (map fst (detectedPatterns e))));
    [constructor|].
  intros c time.
  frame_with ltac:(first [ apply set_key_keeps_unique
                         | apply cleanup_keeps_unique ]).
Qed.

(** X29.  After any sequence of key events the pattern registry holds at
    most one entry per key, and no two entries have the same content. *)
Theorem registry_has_one_entry_per_content (evs : list KeyEvent) :
  NoDup (map fst (registryView (run evs)))
  /\ NoDup (map (fun kp => pattern (snd kp)) (registryView (run evs))).
Proof.
  pose proof (run_unique_keys evs) as Hkeys.
  pose proof (run_registryInv evs) as He.
  assert (Hfst : map fst (registryView (run evs))
                 = map fst (detectedPatterns (run evs))).
  { unfold registryView. rewrite map_map. reflexivity. }
  split; [rewrite Hfst; exact Hkeys|].
  apply (NoDup_map_inv (fun s => patternKey s (List.length s))).
  rewrite map_map.
  replace (map (fun kp => patternKey (pattern (snd kp))
                            (List.length (pattern (snd kp))))
             (registryView (run evs)))
    with (map fst (registryView (run evs))); [rewrite Hfst; exact Hkeys|].
  unfold registryView. rewrite !map_map. apply map_ext_in.
  intros [k l] Hin. cbn [fst snd].
  pose proof He as [_ [Hreg _]]. rewrite Forall_forall in Hreg.
  destruct (Hreg _ Hin) as [Hl [Hk _]]. cbn [fst snd] in *.
  destruct (stored_in_range _ l He Hl) as [HL _].
  rewrite Hk, HL. reflexivity.
Qed.

(* ================================================================== *)
(** * Keystrokes at the same instant *)

(** The distance from 1 of a ratio with numerator 0 is 1, or NaN. *)
Lemma zero_ratio_distance (d : float) :
  Prim2SF (PrimFloat.abs (0 / d - 1))%float = Prim2SF 1%float
  \/ Prim2SF (PrimFloat.abs (0 / d - 1))%float = S754_nan.
Proof.
  rewrite FloatAxioms.abs_spec, FloatAxioms.sub_spec, FloatAxioms.div_spec.
  change (Prim2SF 0) with (S754_zero false).
  destruct (Prim2SF d) as [s|s| |s m e]; try destruct s;
    (left; reflexivity) || (right; reflexivity).
Qed.

Lemma closestStep_zero (acc : NoteValue * float) (note : NoteValue)
  (d : float) :
  (Prim2SF (snd acc) = Prim2SF 1%float \/ Prim2SF (snd acc) = S754_nan) ->
  closestStep acc (note, (0 / d)%float) = acc.
Proof.
  intros Hacc. unfold closestStep. cbn [fst snd].
  rewrite FloatAxioms.ltb_spec.
  destruct (zero_ratio_distance d) as [-> | ->], Hacc as [-> | ->];
    reflexivity.
Qed.

Lemma closestNote_zero (q : float) : closestNote q 0 = Quarter.
Proof.
  unfold closestNote, ratios. cbn [fold_left].
  set (start := (Quarter, PrimFloat.abs (0 / q - 1)%float)).
  assert (Hstart : Prim2SF (snd start) = Prim2SF 1%float
                   \/ Prim2SF (snd start) = S754_nan)
    by apply zero_ratio_distance.
  rewrite (closestStep_zero start Whole _ Hstart).
  rewrite (closestStep_zero start Half _ Hstart).
  rewrite (closestStep_zero start Quarter _ Hstart).
  rewrite (closestStep_zero start Eighth _ Hstart).
  rewrite (closestStep_zero start Sixteenth _ Hstart).
  rewrite (closestStep_zero start Thirtysecond _ Hstart).
  reflexivity.
Qed.

Lemma positive_finite (x : float) :
  (0 <? x)%float = true -> (x <? infinity)%float = true -> posfin x.
Proof.
  rewrite !FloatAxioms.ltb_spec. unfold posfin.
  change (Prim2SF 0) with (S754_zero false).
  change (Prim2SF infinity) with (S754_infinity false).
  destruct (Prim2SF x) as [s|s| |s m e]; try destruct s;
    cbn; intros; congruence.
Qed.

Lemma nonneg_not_below_zero (x : float) : nonneg x -> (x <? 0)%float = false.
Proof.
  unfold nonneg. rewrite FloatAxioms.ltb_spec.
  change (Prim2SF 0) with (S754_zero false).
  destruct (Prim2SF x) as [s|s| |s m e]; try destruct s; cbn;
    intros; congruence.
Qed.

(** X30.  At every positive finite tempo, a gap of 0 ms, two keystrokes
    with the same timestamp, is classified "quarter": every ratio is 0,
    no category is closer than the default. *)
Theorem simultaneous_keystrokes_are_a_quarter (tempo : float) :
  (0 <? tempo)%float = true -> (tempo <? infinity)%float = true ->
  classifyInterval tempo 0 = Quarter.
Proof.
  intros Hpos Hfin. unfold classifyInterval. cbv zeta.
  rewrite closestNote_zero.
  assert (Hq : nonneg (quarterNoteMs tempo * 2)%float).
  { unfold quarterNoteMs. apply mul_nonneg_posfin; [|reflexivity].
    apply mul_nonneg_posfin; [|reflexivity].
    apply div_nonneg_posfin; [reflexivity|].
    apply positive_finite; assumption. }
  unfold gtb. rewrite (nonneg_not_below_zero _ Hq). reflexivity.
Qed.

Lemma simultaneous_keystrokes_are_a_quarter_witness :
  (0 <? 120)%float = true /\ (120 <? infinity)%float = true
  /\ classifyInterval 120 0 = Quarter.
Proof.
  split; [reflexivity|]. split; [reflexivity|].
  apply (simultaneous_keystrokes_are_a_quarter 120); reflexivity.
Defined.
